(** * process_survey.py: survey pre-aggregation, embedded and verified

    A shallow embedding of [src/process_survey.py].  A DataFrame is a list
    of rows, a column cell is [option string] ([None] is pandas' NaN), the
    [cells] dictionary is a [gmap] keyed by the composite key string, and
    the HTML file touched by [embed_in_html] lives in an explicit store. *)

From Stdlib Require Import ZArith QArith Qabs Qcanon Qround Ascii String SpecFloat.
From stdpp Require Import gmap strings list sorting pretty.

(** ** Configuration constants *)

Definition ATTENTION_ANSWER : string := "7".
Definition DATE_CUTOFF : string := "2026-01-15".
Definition MIN_COUNTRY_N : nat := 100.

Definition AGE_GROUPS : list string :=
  [ "18-24 years old"; "25-34 years old"; "35-44 years old";
    "45-54 years old"; "55-64 years old"; "65+ years old" ].

Definition AGE_SHORT : list (string * string) :=
  [ ("18-24 years old", "18-24"); ("25-34 years old", "25-34");
    ("35-44 years old", "35-44"); ("45-54 years old", "45-54");
    ("55-64 years old", "55-64"); ("65+ years old", "65+") ].

Definition EDU_GROUPS : list (string * string) :=
  [ ("Graduate or professional degree (MA, MS, MBA, PhD, Law Degree, Medical Degree etc)",
     "Graduate degree");
    ("University - Bachelors Degree", "Bachelor's degree");
    ("Some University but no degree", "Some university");
    ("Vocational or Similar", "Vocational");
    ("Secondary", "Secondary") ].

Definition EDU_MERGE : list (string * string) :=
  [ ("Some Secondary", "Less than secondary");
    ("Primary", "Less than secondary");
    ("Less than Primary", "Less than secondary") ].

Definition EDU_SHORT_ORDER : list string :=
  map snd EDU_GROUPS ++ ["Less than secondary"].

Definition COUNTRY_SHORT : list (string * string) :=
  [ ("United States of America", "United States");
    ("United Kingdom of Great Britain and Northern Ireland", "United Kingdom");
    ("United Arab Emirates", "UAE");
    ("Congo, Democratic Republic of the", "DR Congo");
    ("Iran (Islamic Republic of)", "Iran");
    ("Bolivia (Plurinational State of)", "Bolivia");
    ("Venezuela (Bolivarian Republic of)", "Venezuela");
    ("Tanzania, United Republic of", "Tanzania");
    ("Korea, Republic of", "South Korea");
    ("Lao People's Democratic Republic", "Laos");
    ("Viet Nam", "Vietnam");
    ("Russian Federation", "Russia");
    ("Moldova, Republic of", "Moldova");
    ("Syrian Arab Republic", "Syria");
    ("Micronesia (Federated States of)", "Micronesia") ].

Definition Q31_OPTIONS : list string :=
  [ "Climate change is happening"; "Climate change is not happening"; "Not sure" ].

Definition Q32_OPTIONS : list string :=
  [ "Caused by human activities";
    "Caused by natural changes in the environment";
    "Caused by a mix of human activities and natural changes in the environment";
    "I don't know" ].

Definition Q41_OPTIONS : list string :=
  [ "Strongly agree"; "Somewhat agree"; "Neither agree nor disagree";
    "Somewhat disagree"; "Strongly disagree" ].

Definition Q77_FULL_OPTIONS : list string :=
  [ "Given to poor country governments without restrictions";
    "Given directly to people in poor countries";
    "Put in an insurance fund for disasters (like droughts and hurricanes)";
    "Given to poor country governments and communities for climate resilience investments (like seawalls and air conditioning)";
    "Put in a fund for climate resilience investments that people can apply to, controlled by rich countries" ].

(** A literal Python dict read with [d[k]] or [d.get(k, default)]: the
    first binding of the key. *)
Fixpoint dict_get (d : list (string * string)) (k : string) : option string :=
  match d with
  | [] => None
  | (k', v) :: d' => if decide (k' = k) then Some v else dict_get d' k
  end.

(** ** The respondent table *)

(** The [StartDate] column holds text as read from the CSV and timestamps
    (nanoseconds since the epoch) once [pd.to_datetime] has run. *)
Inductive DateCell :=
  | NaT
  | RawDate (s : string)
  | Timestamp (t : Z).

Record Row := {
  StartDate : DateCell;
  Country : option string;
  Age : option string;
  Education : option string;
  is_oecd : option string;
  is_lmic : option string;
  Attention_Check : option string;
  Q3_1 : option string;
  Q3_2 : option string;
  Q4_1 : option string;
  Q7_1 : option string;
  Q7_2 : option string;
  Q7_3 : option string;
  Q7_4 : option string;
  Q7_5 : option string;
  Q7_6 : option string;
  Q7_7 : option string;
  Q7_8_1 : option string;
  Q7_8_7 : option string;
  Q7_8_8 : option string;
  Q7_8_9 : option string;
  Q7_8_10 : option string
}.

Global Instance DateCell_eq_dec : EqDecision DateCell.
Proof. solve_decision. Defined.

Global Instance Row_eq_dec : EqDecision Row.
Proof. solve_decision. Defined.

Definition Q78_COLS : list (Row → option string) :=
  [ Q7_8_1; Q7_8_7; Q7_8_8; Q7_8_9; Q7_8_10 ].

(** [(series == v).sum()]: NaN equals nothing. *)
Definition count_eq (series : list (option string)) (v : string) : nat :=
  length (filter (λ c, c = Some v) series).

(** [str.contains(pat, regex=False)] on one string. *)
Fixpoint contains (pat s : string) : bool :=
  if String.prefix pat s then true
  else match s with
       | EmptyString => false
       | String _ s' => contains pat s'
       end.

(** [series.str.contains(pat, na=False)] on one cell. *)
Definition cell_contains (pat : string) (c : option string) : bool :=
  match c with
  | Some s => contains pat s
  | None => false
  end.

(** ** Counting *)

Definition count_yes_no (series : list (option string)) : list nat :=
  [ count_eq series "Yes"; count_eq series "No" ].

Definition count_options (series : list (option string)) (options : list string)
  : list nat :=
  map (λ opt, count_eq series opt) options.

Definition count_q77 (series : list (option string)) : list nat :=
  map (λ full_opt, length (filter (λ c, cell_contains full_opt c = true) series))
      Q77_FULL_OPTIONS.

(** [series.notna().sum() - (series == "").sum()] *)
Definition answered_q77 (series : list (option string)) : nat :=
  length (filter (λ c, c ≠ None) series) - count_eq series "".

(** ** Binary64 primitives

    [mean_q78] computes with pandas' number parser, NumPy's mean and Python's
    [round] on doubles.  The aggregator is written over this interface;
    [binary64] below is its instance in the arithmetic of doubles. *)
Class Float64 := {
  float : Type;
  f_zero : float;                        (* the literal 0.0 *)
  to_numeric : string → option float;    (* pd.to_numeric(errors="coerce"); None is NaN *)
  f_mean : list float → float;           (* Series.mean() of a non-empty column *)
  f_round1 : float → float               (* round(float(x), 1) *)
}.

(** [pd.to_numeric(col, errors="coerce").fillna(0)] on one cell. *)
Definition coerce_numeric `{Float64} (c : option string) : float :=
  match c with
  | Some s => default f_zero (to_numeric s)
  | None => f_zero
  end.

Definition answered (r : Row) : Prop := Q7_7 r ≠ None ∧ Q7_7 r ≠ Some "".

Global Instance answered_dec r : Decision (answered r).
Proof. unfold answered. apply _. Defined.

Definition mean_q78 `{Float64} (subset : list Row) : list float * nat :=
  let has_q77 := filter answered subset in
  if decide (length has_q77 = 0) then (replicate (length Q78_COLS) f_zero, 0)
  else
    (map (λ col, f_round1 (f_mean (map (λ r, coerce_numeric (col r)) has_q77))) Q78_COLS,
     length has_q77).

(** ** Doubles

    The arithmetic of [mean_q78]: IEEE 754 binary64 as the Standard
    Library specifies it ([SpecFloat] at precision 53 and exponents up to
    1024), every operation rounding to nearest, ties to even. *)

Section Doubles.
Local Open Scope Z_scope.

Definition float_add : spec_float → spec_float → spec_float := SFadd 53 1024.
Definition float_div : spec_float → spec_float → spec_float := SFdiv 53 1024.

(** A count as a double, as [np.float64(n)] gives it. *)
Definition float_of_Z (n : Z) : spec_float := binary_normalize 53 1024 n 0 false.

(** The double nearest to [p / q]. *)
Definition nearest_double (s : bool) (p q : positive) : spec_float :=
  float_div (S754_finite s p 0) (S754_finite false q 0).

(** A sum of the doubles of a list in some order: the additions form a
    tree over the values, taken in any order, zeros being free.  NumPy
    adds the values of an array in blocks, pairwise and with several
    accumulators; which additions it makes depends on its version and on
    the layout of the array, so the sum of a column is any one of these. *)
Inductive summation : list spec_float → spec_float → Prop :=
  | summation_nil : summation [] (S754_zero false)
  | summation_one x : summation [x] x
  | summation_app xs ys a b :
      summation xs a → summation ys b → summation (xs ++ ys) (float_add a b)
  | summation_perm xs ys a : xs ≡ₚ ys → summation xs a → summation ys a.

(** [Series.mean()] of a column of doubles: its sum, divided by its
    length as a double. *)
Definition float_mean (fsum : list spec_float → spec_float) (xs : list spec_float)
  : spec_float :=
  float_div (fsum xs) (float_of_Z (Z.of_nat (length xs))).

(** [a / b] rounded to an integer, ties to even; [b] is positive. *)
Definition round_half_even_div (a b : Z) : Z :=
  let q := a / b in
  match 2 * (a mod b) ?= b with
  | Lt => q
  | Gt => q + 1
  | Eq => if Z.even q then q else q + 1
  end.

(** [10 * m * 2 ^ e] rounded to an integer. *)
Definition tenths (m : positive) (e : Z) : Z :=
  if 0 <=? e then 10 * Zpos m * 2 ^ e
  else round_half_even_div (10 * Zpos m) (2 ^ (- e)).

(** The double nearest to [k / 10], signed. *)
Definition tenth_double (s : bool) (k : Z) : spec_float :=
  match k with
  | Zpos p => nearest_double s p 10
  | _ => S754_zero s
  end.

(** [round(x, 1)]: the decimal with one digit after the point nearest to
    [x], then the double nearest to that decimal; zeros, infinities and
    NaN are returned as they are. *)
Definition round1 (x : spec_float) : spec_float :=
  match x with
  | S754_finite s m e => tenth_double s (tenths m e)
  | _ => x
  end.

(** The primitives in doubles, given pandas' reader of numbers and the way
    the sum of a column is taken.  A text read as NaN is filled with zero
    like a text that is not a number. *)
Definition binary64 (to_double : string → option spec_float)
    (fsum : list spec_float → spec_float) : Float64 :=
  {| float := spec_float;
     f_zero := S754_zero false;
     to_numeric s := match to_double s with
                     | Some S754_nan => None
                     | x => x
                     end;
     f_mean := float_mean fsum;
     f_round1 := round1 |}.
End Doubles.

(** ** Cells *)

Module Cell.
Record t `{Float64} := {
  n : nat;
  q71 : list nat;
  q31 : list nat;
  q32 : list nat;
  q41 : list nat;
  q72 : list nat;
  q73 : list nat;
  q74 : list nat;
  q75 : list nat;
  q76 : list nat;
  n_q76 : nat;
  q77 : list nat;
  n_q77 : nat;
  q78 : list float;
  n_q78 : nat
}.
End Cell.

Definition aggregate_cell `{Float64} (subset : list Row) : option Cell.t :=
  let n := length subset in
  if decide (n = 0) then None
  else
    let q76 := count_yes_no (map Q7_6 subset) in
    let m78 := mean_q78 subset in
    Some {|
      Cell.n := n;
      Cell.q71 := count_yes_no (map Q7_1 subset);
      Cell.q31 := count_options (map Q3_1 subset) Q31_OPTIONS;
      Cell.q32 := count_options (map Q3_2 subset) Q32_OPTIONS;
      Cell.q41 := count_options (map Q4_1 subset) Q41_OPTIONS;
      Cell.q72 := count_yes_no (map Q7_2 subset);
      Cell.q73 := count_yes_no (map Q7_3 subset);
      Cell.q74 := count_yes_no (map Q7_4 subset);
      Cell.q75 := count_yes_no (map Q7_5 subset);
      Cell.q76 := q76;
      Cell.n_q76 := q76 !!! 0 + q76 !!! 1;
      Cell.q77 := count_q77 (map Q7_7 subset);
      Cell.n_q77 := answered_q77 (map Q7_7 subset);
      Cell.q78 := m78.1;
      Cell.n_q78 := m78.2
    |}.

(** ** Grouping *)

(** [edu_map]: the comprehension over [EDU_GROUPS], then [update(EDU_MERGE)],
    whose bindings win. *)
Definition edu_map : list (string * string) := EDU_MERGE ++ EDU_GROUPS.

(** The derived column [data["Education"].map(edu_map).fillna("")]. *)
Definition edu_short (r : Row) : string :=
  default "" (Education r ≫= dict_get edu_map).

(** [AGE_SHORT[age_full]] *)
Definition age_short_of (age_full : string) : string :=
  default "" (dict_get AGE_SHORT age_full).

(** The f-string [f"{key_prefix}|{age}|{edu}"]. *)
Definition cell_key (key_prefix age edu : string) : string :=
  key_prefix +:+ "|" +:+ age +:+ "|" +:+ edu.

(** [if cell and cell["n"] >= 5: cells[key] = cell] *)
Definition put_if_ge5 `{Float64} (key : string) (cell : option Cell.t)
    (cells : gmap string Cell.t) : gmap string Cell.t :=
  match cell with
  | Some c => if decide (5 ≤ Cell.n c) then <[key := c]> cells else cells
  | None => cells
  end.

(** [subset[subset["Age"] == age_full]] and [subset[subset["edu_short"] == edu]] *)
Definition by_age (age_full : string) (subset : list Row) : list Row :=
  filter (λ r, Age r = Some age_full) subset.

Definition by_edu (edu : string) (subset : list Row) : list Row :=
  filter (λ r, edu_short r = edu) subset.

Definition add_cells `{Float64} (key_prefix : string) (subset : list Row)
    (cells : gmap string Cell.t) : gmap string Cell.t :=
  (* all ages, all education *)
  let cells :=
    match aggregate_cell subset with
    | Some cell => <[cell_key key_prefix "All" "All" := cell]> cells
    | None => cells
    end in
  (* each age group, all education *)
  let cells :=
    foldl (λ cells age_full,
             let age_short := age_short_of age_full in
             let age_subset := by_age age_full subset in
             put_if_ge5 (cell_key key_prefix age_short "All")
                        (aggregate_cell age_subset) cells)
          cells AGE_GROUPS in
  (* each education group, all ages *)
  let cells :=
    foldl (λ cells edu,
             let edu_subset := by_edu edu subset in
             put_if_ge5 (cell_key key_prefix "All" edu)
                        (aggregate_cell edu_subset) cells)
          cells EDU_SHORT_ORDER in
  (* each age x education combination *)
  foldl (λ cells age_full,
           let age_short := age_short_of age_full in
           let age_subset := by_age age_full subset in
           foldl (λ cells edu,
                    let combo_subset := by_edu edu age_subset in
                    put_if_ge5 (cell_key key_prefix age_short edu)
                               (aggregate_cell combo_subset) cells)
                 cells EDU_SHORT_ORDER)
        cells AGE_GROUPS.

Module CountryInfo.
Record t := {
  id : string;
  name : string;
  full_name : string;
  group : string;
  n : nat
}.
End CountryInfo.

Definition build_cells `{Float64} (data : list Row) (countries : list CountryInfo.t)
  : gmap string Cell.t :=
  let cells := add_cells "All" data ∅ in
  let oecd_data := filter (λ r, is_oecd r = Some "True") data in
  let cells := add_cells "OECD" oecd_data cells in
  let lmic_data := filter (λ r, is_lmic r = Some "True") data in
  let cells := add_cells "LMIC" lmic_data cells in
  foldl (λ cells country_info,
           let full_name := CountryInfo.full_name country_info in
           let short_name := CountryInfo.id country_info in
           let country_data := filter (λ r, Country r = Some full_name) data in
           add_cells short_name country_data cells)
        cells countries.

(** ** Geography resolver *)

(** Distinct values in order of first appearance. *)
Fixpoint unique (l : list string) : list string :=
  match l with
  | [] => []
  | x :: l' => x :: filter (λ y, y ≠ x) (unique l')
  end.

Definition count_desc (a b : string * nat) : Prop := b.2 ≤ a.2.

Global Instance count_desc_dec a b : Decision (count_desc a b).
Proof. unfold count_desc. apply _. Defined.

(** [Series.value_counts()]: NaN dropped, one entry per distinct value,
    largest count first.  pandas leaves the order of equal counts open; the
    sort used here is one admissible choice. *)
Definition value_counts (col : list (option string)) : list (string * nat) :=
  merge_sort count_desc (map (λ v, (v, count_eq col v)) (unique (omap id col))).

(** [series.eq("True").any()] over the rows of one country. *)
Definition any_true (flag : Row → option string) (rows : list Row) : bool :=
  bool_decide (Exists (λ r, flag r = Some "True") rows).

Definition get_country_info (data : list Row) : list CountryInfo.t :=
  let counts := value_counts (map Country data) in
  omap (λ '(country_name, n),
          if decide (MIN_COUNTRY_N ≤ n) then
            let short := default country_name (dict_get COUNTRY_SHORT country_name) in
            let rows := filter (λ r, Country r = Some country_name) data in
            let oecd := any_true is_oecd rows in
            let lmic := any_true is_lmic rows in
            let group := if oecd then "oecd" else if lmic then "lmic" else "other" in
            Some {| CountryInfo.id := short; CountryInfo.name := short;
                    CountryInfo.full_name := country_name;
                    CountryInfo.group := group; CountryInfo.n := n |}
          else None)
       counts.

(** ** Output assembler *)

Definition Q77_SHORT : list string :=
  [ "Unrestricted govt aid"; "Direct to people"; "Disaster insurance";
    "Resilience investments"; "Rich-country controlled fund" ].

Definition Q78_LABELS : list string :=
  [ "Unrestricted govt aid"; "Direct to people"; "Disaster insurance";
    "Resilience investments"; "Rich-country controlled fund" ].

(** question id, text, option labels *)
Definition QUESTIONS_META : list (string * (string * list string)) :=
  [ ("q71", ("Support for climate compensation program", ["Yes"; "No"]));
    ("q31", ("Do you think climate change is happening?",
             ["Happening"; "Not happening"; "Not sure"]));
    ("q32", ("What causes climate change?",
             ["Human activities"; "Natural changes"; "Mix of both"; "Don't know"]));
    ("q41", ("Country should take measures to fight climate change",
             ["Strongly agree"; "Somewhat agree"; "Neither";
              "Somewhat disagree"; "Strongly disagree"]));
    ("q72", ("Fund via carbon tax", ["Yes"; "No"]));
    ("q73", ("Fund via wealth tax on billionaires", ["Yes"; "No"]));
    ("q74", ("Fund via corporate minimum tax", ["Yes"; "No"]));
    ("q75", ("Fund via general tax revenues", ["Yes"; "No"]));
    ("q76", ("Require emissions reduction commitments", ["Yes"; "No"]));
    ("q77", ("How should climate fund be spent?", Q77_SHORT));
    ("q78", ("Fund allocation percentages", Q78_LABELS)) ].

Module Meta.
Record country := { id : string; name : string; group : string; n : nat }.
Record t := {
  generated : string;
  total_n : nat;
  countries : list country;
  age_groups : list string;
  edu_groups : list string;
  questions : list (string * (string * list string))
}.
End Meta.

Module Output.
Record t `{Float64} := { meta : Meta.t; cells : gmap string Cell.t }.
End Output.

(** [today] stands for [datetime.now().strftime("%Y-%m-%d")]. *)
Definition build_json `{Float64} (today : string) (data : list Row)
    (countries : list CountryInfo.t) (cells : gmap string Cell.t) : Output.t :=
  {| Output.meta :=
       {| Meta.generated := today;
          Meta.total_n := length data;
          Meta.countries :=
            map (λ c, {| Meta.id := CountryInfo.id c; Meta.name := CountryInfo.name c;
                         Meta.group := CountryInfo.group c; Meta.n := CountryInfo.n c |})
                countries;
          Meta.age_groups := map age_short_of AGE_GROUPS;
          Meta.edu_groups := EDU_SHORT_ORDER;
          Meta.questions := QUESTIONS_META |};
     Output.cells := cells |}.

(** ** Filter stage *)

Definition set_StartDate (d : DateCell) (r : Row) : Row :=
  {| StartDate := d; Country := Country r; Age := Age r; Education := Education r;
     is_oecd := is_oecd r; is_lmic := is_lmic r;
     Attention_Check := Attention_Check r;
     Q3_1 := Q3_1 r; Q3_2 := Q3_2 r; Q4_1 := Q4_1 r; Q7_1 := Q7_1 r;
     Q7_2 := Q7_2 r; Q7_3 := Q7_3 r; Q7_4 := Q7_4 r; Q7_5 := Q7_5 r;
     Q7_6 := Q7_6 r; Q7_7 := Q7_7 r; Q7_8_1 := Q7_8_1 r; Q7_8_7 := Q7_8_7 r;
     Q7_8_8 := Q7_8_8 r; Q7_8_9 := Q7_8_9 r; Q7_8_10 := Q7_8_10 r |}.

(** [df.iloc[1:]] *)
Definition skip_label_row (df : list Row) : list Row := drop 1 df.

(** [data[~data["Q3.1"].str.contains("ImportId", na=False)]] *)
Definition remove_import_rows (data : list Row) : list Row :=
  filter (λ r, cell_contains "ImportId" (Q3_1 r) = false) data.

(** [data[data["Attention Check"] == ATTENTION_ANSWER]] *)
Definition attention_filter (data : list Row) : list Row :=
  filter (λ r, Attention_Check r = Some ATTENTION_ANSWER) data.

(** A timestamp at or after the cut-off; NaT compares false.  The
    comparison only ever runs on a converted column. *)
Definition on_or_after (cutoff : Z) (r : Row) : Prop :=
  match StartDate r with
  | Timestamp t => (cutoff ≤ t)%Z
  | _ => False
  end.

Global Instance on_or_after_dec cutoff r : Decision (on_or_after cutoff r).
Proof. unfold on_or_after. destruct (StartDate r); apply _. Defined.

(** [data[data["StartDate"] >= cutoff]] *)
Definition date_filter (cutoff : Z) (data : list Row) : list Row :=
  filter (on_or_after cutoff) data.

(** [pd.to_datetime] (pandas 2) on a column of texts.  The format is
    guessed from the first value that is not null, and every text of the
    column is then read against that one format; only when no format can
    be guessed is each text parsed on its own.  The three functions are
    pandas' own and are kept apart from the code that uses them; [None] is
    the ValueError that aborts the run. *)
Record DateParser := {
  guess_datetime_format : string → option string;   (* a strftime format *)
  strptime : string → string → option Z;            (* format, text *)
  parse_datetime_string : string → option Z         (* a text on its own *)
}.

(** Texts that convert to NaT whatever the format. *)
Definition nat_strings : list string := ["NaT"; "nat"; "NAT"; "nan"; "NaN"; "NAN"].

Definition null_text (s : string) : Prop := s = "" ∨ s ∈ nat_strings.

Global Instance null_text_dec s : Decision (null_text s).
Proof. unfold null_text. apply _. Defined.

(** [tslib.first_non_null]: the first value that is neither null nor one
    of the texts read without a format. *)
Fixpoint first_non_null (col : list DateCell) : option DateCell :=
  match col with
  | [] => None
  | NaT :: col' => first_non_null col'
  | RawDate s :: col' =>
      if decide (null_text s ∨ s ∈ ["now"; "today"]) then first_non_null col'
      else Some (RawDate s)
  | Timestamp t :: _ => Some (Timestamp t)
  end.

Section Filter.
Variable parse_datetime : DateParser.

(** [_guess_datetime_format_for_array]: a format only when the first
    value is a text and a format can be guessed from it. *)
Definition column_format (col : list DateCell) : option string :=
  match first_non_null col with
  | Some (RawDate s) => guess_datetime_format parse_datetime s
  | _ => None
  end.

(** One cell, given the format of its column. *)
Definition to_datetime_cell (format : option string) (d : DateCell) : option DateCell :=
  match d with
  | NaT => Some NaT
  | RawDate s =>
      if decide (null_text s) then Some NaT
      else Timestamp <$> match format with
                         | Some fmt => strptime parse_datetime fmt s
                         | None => parse_datetime_string parse_datetime s
                         end
  | Timestamp t => Some (Timestamp t)
  end.

(** [data["StartDate"] = pd.to_datetime(data["StartDate"])] *)
Definition to_datetime (data : list Row) : option (list Row) :=
  let format := column_format (map StartDate data) in
  mapM (λ r, d ← to_datetime_cell format (StartDate r); Some (set_StartDate d r)) data.

(** The result is [None] when the date column (or the cut-off, which the
    comparison reads on its own) does not convert.  The counts the
    function prints along the way are left out. *)
Definition load_and_filter (df : list Row) : option (list Row) :=
  let data := skip_label_row df in
  let data := remove_import_rows data in
  data ← to_datetime data;
  cutoff ← parse_datetime_string parse_datetime DATE_CUTOFF;
  let data := date_filter cutoff data in
  let data := attention_filter data in
  Some data.
End Filter.


(** ** Embedding into the HTML file *)

(** Files hold one character per byte (code points below 256); [stdout]
    collects the printed lines. *)
Record World := { files : gmap string string; stdout : list string }.

Inductive Outcome :=
  | Returned
  | Exited (code : Z)
  | Raised (exc : string).

Definition print (line : string) (w : World) : World :=
  {| files := files w; stdout := stdout w ++ [line] |}.

(** [open(path, "r").read()]: text mode translates the line endings CR LF
    and CR to LF (universal newlines). *)
Fixpoint universal_newlines (s : string) : string :=
  match s with
  | EmptyString => EmptyString
  | String c s' =>
      if decide (c = "013"%char) then
        match s' with
        | String c' s'' =>
            if decide (c' = "010"%char) then String "010" (universal_newlines s'')
            else String "010" (universal_newlines s')
        | EmptyString => String "010" EmptyString
        end
      else String c (universal_newlines s')
  end.

(** [open(path, "w").write(text)] where [os.linesep] is LF (POSIX): the text
    is stored as it is. *)
Definition write_text (path text : string) (w : World) : World :=
  {| files := <[path := text]> (files w); stdout := stdout w |}.

(** [\s] of a str pattern, on the code points below 256. *)
Definition re_space (c : ascii) : bool :=
  let k := nat_of_ascii c in
  (9 <=? k) && (k <=? 13) || (28 <=? k) && (k <=? 32) || (k =? 133) || (k =? 160).

Definition dquote : string := String "034" EmptyString.

Definition TAG_OPEN : string := "<script".
Definition TAG_ID : string := "id=" +:+ dquote +:+ "survey-data" +:+ dquote.
Definition TAG_TYPE : string := "type=" +:+ dquote +:+ "application/json" +:+ dquote +:+ ">".
Definition TAG_CLOSE : string := "</script>".

(** [s] without the literal [p] in front, when it starts with it. *)
Fixpoint strip_prefix (p s : string) : option string :=
  match p with
  | EmptyString => Some s
  | String a p' =>
      match s with
      | String b s' => if decide (a = b) then strip_prefix p' s' else None
      | EmptyString => None
      end
  end.

Fixpoint skip_spaces (s : string) : string :=
  match s with
  | String c s' => if re_space c then skip_spaces s' else s
  | EmptyString => EmptyString
  end.

(** [\s+] in front of a literal that starts with a non-space character:
    the run of spaces is taken whole. *)
Definition spaces1 (s : string) : option string :=
  match s with
  | String c s' => if re_space c then Some (skip_spaces s') else None
  | EmptyString => None
  end.

(** Group 1, [<script\s+id="survey-data"\s+type="application/json">], at
    the front of [s]; the result is what follows it. *)
Definition match_open (s : string) : option string :=
  s ← strip_prefix TAG_OPEN s;
  s ← spaces1 s;
  s ← strip_prefix TAG_ID s;
  s ← spaces1 s;
  strip_prefix TAG_TYPE s.

(** [(.*?)(</script>)] with DOTALL: the offset of the first [</script>]. *)
Fixpoint find_close (s : string) : option nat :=
  match strip_prefix TAG_CLOSE s with
  | Some _ => Some 0
  | None =>
      match s with
      | String _ s' => S <$> find_close s'
      | EmptyString => None
      end
  end.

(** [re.search(pattern, html, re.DOTALL)], leftmost match first; the result
    is [(match.start(2), match.end(2))], counted from [pos] characters
    before [s]. *)
Fixpoint search_from (pos : nat) (s : string) : option (nat * nat) :=
  let here :=
    rest ← match_open s;
    k ← find_close rest;
    let start2 := pos + (String.length s - String.length rest) in
    Some (start2, start2 + k) in
  match here with
  | Some m => Some m
  | None =>
      match s with
      | String _ s' => search_from (S pos) s'
      | EmptyString => None
      end
  end.

Definition re_search (html : string) : option (nat * nat) := search_from 0 html.

(** The slices [s[:i]] and [s[i:]]. *)
Fixpoint take_str (i : nat) (s : string) : string :=
  match i, s with
  | S i', String c s' => String c (take_str i' s')
  | _, _ => EmptyString
  end.

Fixpoint drop_str (i : nat) (s : string) : string :=
  match i, s with
  | S i', String _ s' => drop_str i' s'
  | _, _ => s
  end.

(** [f"{n:,}"] *)
Fixpoint group3 (rev_digits : list ascii) : list ascii :=
  match rev_digits with
  | a :: b :: c :: ((_ :: _) as more) => a :: b :: c :: ","%char :: group3 more
  | _ => rev_digits
  end.

Definition format_thousands (n : nat) : string :=
  string_of_list_ascii (rev (group3 (rev (list_ascii_of_string (pretty n))))).

Definition MSG_NO_TAG : string :=
  "ERROR: Could not find <script id=" +:+ dquote +:+ "survey-data" +:+ dquote
  +:+ "> tag in HTML file.".

Definition MSG_HINT : string :=
  "Make sure the tag exists: <script id=" +:+ dquote +:+ "survey-data" +:+ dquote
  +:+ " type=" +:+ dquote +:+ "application/json" +:+ dquote +:+ "></script>".

Definition embed_in_html (json_str html_path : string) (w : World) : Outcome * World :=
  match files w !! html_path with
  | None => (Raised "FileNotFoundError", w)
  | Some bytes =>
      let html := universal_newlines bytes in
      match re_search html with
      | None => (Exited 1, print MSG_HINT (print MSG_NO_TAG w))
      | Some (start2, end2) =>
          let new_html := take_str start2 html +:+ json_str +:+ drop_str end2 html in
          let w := write_text html_path new_html w in
          (Returned,
           print ("Embedded " +:+ format_thousands (String.length json_str)
                  +:+ " bytes of JSON into " +:+ html_path) w)
      end
  end.

(** What the pattern describes. *)
Fixpoint all_space (s : string) : bool :=
  match s with
  | EmptyString => true
  | String c s' => re_space c && all_space s'
  end.

Definition is_open_tag (tag : string) : Prop :=
  ∃ ws1 ws2, ws1 ≠ "" ∧ ws2 ≠ "" ∧ all_space ws1 = true ∧ all_space ws2 = true ∧
    tag = TAG_OPEN +:+ ws1 +:+ TAG_ID +:+ ws2 +:+ TAG_TYPE.

Definition has_marker (html : string) : Prop :=
  ∃ pre tag inner post,
    is_open_tag tag ∧ html = pre +:+ tag +:+ inner +:+ TAG_CLOSE +:+ post.

(** ** Concrete instances for running the model *)

Definition digit_of (c : ascii) : option Z :=
  let k := Z.of_nat (nat_of_ascii c) in
  if decide (48 ≤ k ≤ 57)%Z then Some (k - 48)%Z else None.

Definition two_digits (a b : ascii) : option Z :=
  x ← digit_of a; y ← digit_of b; Some (10 * x + y)%Z.

(** Days from 1970-01-01 to the given day of the proleptic Gregorian calendar. *)
Definition days_from_civil (y m d : Z) : Z :=
  let y' := (if decide (m ≤ 2) then y - 1 else y)%Z in
  let era := (y' `div` 400)%Z in
  let yoe := (y' - era * 400)%Z in
  let mp := (if decide (m ≤ 2) then m + 9 else m - 3)%Z in
  let doy := ((153 * mp + 2) `div` 5 + d - 1)%Z in
  let doe := (yoe * 365 + yoe `div` 4 - yoe `div` 100 + doy)%Z in
  (era * 146097 + doe - 719468)%Z.

Definition time_of_day (rest : list ascii) : option Z :=
  match rest with
  | [] => Some 0%Z
  | " "%char :: h1 :: h2 :: ":"%char :: n1 :: n2 :: ":"%char :: s1 :: s2 :: [] =>
      h ← two_digits h1 h2; n ← two_digits n1 n2; s ← two_digits s1 s2;
      if decide (h < 24 ∧ n < 60 ∧ s < 60)%Z then Some (h * 3600 + n * 60 + s)%Z
      else None
  | _ => None
  end.

(** A timestamp reader for the export's own format, [YYYY-MM-DD] with an
    optional [ HH:MM:SS]; anything else is refused. *)
Definition iso_timestamp (s : string) : option Z :=
  match list_ascii_of_string s with
  | y1 :: y2 :: y3 :: y4 :: "-"%char :: m1 :: m2 :: "-"%char :: d1 :: d2 :: rest =>
      yh ← two_digits y1 y2; yl ← two_digits y3 y4;
      m ← two_digits m1 m2; d ← two_digits d1 d2;
      secs ← time_of_day rest;
      if decide (1 ≤ m ≤ 12 ∧ 1 ≤ d ≤ 31)%Z then
        Some ((days_from_civil (100 * yh + yl) m d * 86400 + secs) * 1000000000)%Z
      else None
  | _ => None
  end.

Definition FORMAT_DATE : string := "%Y-%m-%d".
Definition FORMAT_DATE_TIME : string := "%Y-%m-%d %H:%M:%S".

(** The parser for the export's own format: a date text gives the date
    format, a date and time text the date and time format, and a text is
    read against a format only when it has that format's length. *)
Definition parse_iso_datetime : DateParser :=
  {| guess_datetime_format s :=
       _ ← iso_timestamp s;
       if decide (String.length s = 10) then Some FORMAT_DATE else Some FORMAT_DATE_TIME;
     strptime fmt s :=
       if decide (fmt = FORMAT_DATE ∧ String.length s = 10) then iso_timestamp s
       else if decide (fmt = FORMAT_DATE_TIME ∧ String.length s = 19) then iso_timestamp s
       else None;
     parse_datetime_string := iso_timestamp |}.

Fixpoint read_digits (s : string) (acc : Z) (cnt : nat) : Z * nat * string :=
  match s with
  | String c s' =>
      match digit_of c with
      | Some d => read_digits s' (10 * acc + d)%Z (S cnt)
      | None => (acc, cnt, s)
      end
  | EmptyString => (acc, cnt, s)
  end.

(** Plain decimal numerals: sign, digits, optional fraction. *)
Definition parse_decimal (s : string) : option Qc :=
  let '(neg, s1) :=
    match s with
    | String "-" r => (true, r)
    | String "+" r => (false, r)
    | _ => (false, s)
    end in
  let '(ip, ic, s2) := read_digits s1 0 0 in
  let signed (q : Q) : option Qc := Some (Q2Qc (if neg : bool then Qopp q else q)) in
  match s2 with
  | EmptyString => if decide (ic = 0) then None else signed (inject_Z ip)
  | String "." s3 =>
      let '(fp, fc, s4) := read_digits s3 0 0 in
      match s4 with
      | EmptyString =>
          if decide (ic + fc = 0) then None
          else signed (Qplus (inject_Z ip) (Qdiv (inject_Z fp) (inject_Z (10 ^ Z.of_nat fc))))
      | _ => None
      end
  | _ => None
  end.

Definition round_half_even (q : Q) : Z :=
  let f := Qfloor q in
  match Qcompare (Qminus q (inject_Z f)) (Qmake 1 2) with
  | Lt => f
  | Gt => (f + 1)%Z
  | Eq => if Z.even f then f else (f + 1)%Z
  end.

(** Exact rational arithmetic in the place of binary64, to run the model on
    examples; it agrees with the doubles only where no rounding occurs. *)
Definition exact_arith : Float64 :=
  {| float := Qc;
     f_zero := Q2Qc 0;
     to_numeric := parse_decimal;
     f_mean := λ l, (foldr Qcplus (Q2Qc 0) l / Q2Qc (inject_Z (Z.of_nat (length l))))%Qc;
     f_round1 := λ x, Q2Qc (Qdiv (inject_Z (round_half_even (Qmult (inject_Z 10) x)))
                              (inject_Z 10)) |}.

(** Plain decimal numerals as doubles: sign, digits, optional fraction;
    the nearest double. *)
Definition parse_float (s : string) : option spec_float :=
  let '(neg, s1) :=
    match s with
    | String "-" r => (true, r)
    | String "+" r => (false, r)
    | _ => (false, s)
    end in
  let '(ip, ic, s2) := read_digits s1 0 0 in
  let number (n : Z) (fc : nat) : option spec_float :=
    Some match n with
         | Zpos p => nearest_double neg p (Z.to_pos (10 ^ Z.of_nat fc))
         | _ => S754_zero neg
         end in
  match s2 with
  | EmptyString => if decide (ic = 0) then None else number ip 0
  | String "." s3 =>
      let '(fp, fc, s4) := read_digits s3 0 0 in
      match s4 with
      | EmptyString =>
          if decide (ic + fc = 0) then None
          else number (ip * 10 ^ Z.of_nat fc + fp)%Z fc
      | _ => None
      end
  | _ => None
  end.

(** The sum taken from left to right, from 0.0. *)
Definition sequential_sum (xs : list spec_float) : spec_float :=
  foldl float_add (S754_zero false) xs.

Definition blank_row : Row :=
  {| StartDate := NaT; Country := None; Age := None; Education := None;
     is_oecd := None; is_lmic := None; Attention_Check := None;
     Q3_1 := None; Q3_2 := None; Q4_1 := None; Q7_1 := None; Q7_2 := None;
     Q7_3 := None; Q7_4 := None; Q7_5 := None; Q7_6 := None; Q7_7 := None;
     Q7_8_1 := None; Q7_8_7 := None; Q7_8_8 := None; Q7_8_9 := None;
     Q7_8_10 := None |}.

(** A respondent with the grouping columns and the Q7.7 answer filled in. *)
Definition respondent (date : DateCell) (country age education attention q77 : option string)
  : Row :=
  {| StartDate := date; Country := country; Age := age; Education := education;
     is_oecd := Some "False"; is_lmic := Some "False"; Attention_Check := attention;
     Q3_1 := Some "Climate change is happening"; Q3_2 := None; Q4_1 := None;
     Q7_1 := Some "Yes"; Q7_2 := None; Q7_3 := None; Q7_4 := None; Q7_5 := None;
     Q7_6 := Some "No"; Q7_7 := q77;
     Q7_8_1 := Some "40"; Q7_8_7 := Some "60"; Q7_8_8 := None; Q7_8_9 := Some "n/a";
     Q7_8_10 := Some "0.5" |}.


(** ** Example tables *)

(** One respondent who ticked two of the Q7.7 options. *)
Definition two_options_row : Row :=
  respondent NaT (Some "Chile") (Some "25-34 years old") (Some "Secondary") (Some "7")
    (Some ("Given directly to people in poor countries,"
           +:+ "Put in an insurance fund for disasters (like droughts and hurricanes)")).

(** 100 respondents whose country reads "All", and one from elsewhere. *)
Definition table_with_country_All : list Row :=
  replicate 100 (respondent NaT (Some "All") (Some "25-34 years old") (Some "Secondary")
                            (Some "7") None)
  ++ [respondent NaT (Some "Chile") (Some "25-34 years old") (Some "Secondary")
                 (Some "7") None].

(** 100 respondents from one country. *)
Definition chile_table : list Row :=
  replicate 100 (respondent NaT (Some "Chile") (Some "25-34 years old") (Some "Secondary")
                            (Some "7") None).

(** A respondent whose education answer is in neither table. *)
Definition other_education_row : Row :=
  respondent NaT (Some "Chile") (Some "25-34 years old") (Some "Other") (Some "7") None.

(** A raw export: the label row, then one valid respondent. *)
Definition raw_export : list Row :=
  [ respondent (RawDate "Start Date") (Some "Country") (Some "Age") (Some "Education")
               (Some "Attention Check") None;
    respondent (RawDate "2026-02-01 10:00:00") (Some "Chile") (Some "25-34 years old")
               (Some "Secondary") (Some "7") None ].

(** Three respondents with their allocations, the third without an
    answer to Q7.7, and one with a field that is no number. *)
Definition allocation_row (q77 a1 a7 a8 a9 a10 : option string) : Row :=
  {| StartDate := NaT; Country := Some "Chile"; Age := None; Education := None;
     is_oecd := None; is_lmic := None; Attention_Check := Some "7";
     Q3_1 := None; Q3_2 := None; Q4_1 := None; Q7_1 := None; Q7_2 := None;
     Q7_3 := None; Q7_4 := None; Q7_5 := None; Q7_6 := None; Q7_7 := q77;
     Q7_8_1 := a1; Q7_8_7 := a7; Q7_8_8 := a8; Q7_8_9 := a9; Q7_8_10 := a10 |}.

Definition allocation_rows : list Row :=
  [ allocation_row (Some "Other") (Some "40") (Some "35") (Some "12.5") None (Some "12.5");
    allocation_row (Some "Other") (Some "30") (Some "35") (Some "0.1") (Some "n/a")
                   (Some "100");
    allocation_row None (Some "100") (Some "100") (Some "100") (Some "100") (Some "100");
    allocation_row (Some "Other") (Some "30") (Some "30") (Some "0.2") (Some "20")
                   (Some "20") ].

(** The placeholder's opening tag as the usage note spells it. *)
Definition MARKER_OPEN : string := TAG_OPEN +:+ " " +:+ TAG_ID +:+ " " +:+ TAG_TYPE.

Definition page_with_marker : string :=
  "<html><body>" +:+ MARKER_OPEN +:+ "stale" +:+ TAG_CLOSE +:+ "</body></html>".

Definition page_without_marker : string := "<html><body><p>No data.</p></body></html>".

(** A page with a CR LF line ending in front of the marker. *)
Definition page_with_crlf : string :=
  "<p>" +:+ String "013" (String "010" EmptyString) +:+ MARKER_OPEN +:+ TAG_CLOSE.

Definition one_file (path content : string) : World :=
  {| files := {[ path := content ]}; stdout := [] |}.

(** ** Vocabulary of the statements *)

(** The second and third components a grouping key can have. *)
Definition AGE_LABELS : list string := "All" :: map age_short_of AGE_GROUPS.
Definition EDU_LABELS : list string := "All" :: EDU_SHORT_ORDER.

(** The reporting scopes [build_cells] walks through, each with its key
    prefix and row subset. *)
Definition geographies (data : list Row) (countries : list CountryInfo.t)
  : list (string * list Row) :=
  ("All", data)
  :: ("OECD", filter (λ r, is_oecd r = Some "True") data)
  :: ("LMIC", filter (λ r, is_lmic r = Some "True") data)
  :: map (λ ci, (CountryInfo.id ci,
                 filter (λ r, Country r = Some (CountryInfo.full_name ci)) data))
         countries.

(** Count lists against their denominators: the sum for the questions with
    exclusive options, each single count for the multi-select one. *)
Definition counts_within `{Float64} (c : Cell.t) : Prop :=
  sum_list (Cell.q71 c) ≤ Cell.n c ∧
  sum_list (Cell.q31 c) ≤ Cell.n c ∧
  sum_list (Cell.q32 c) ≤ Cell.n c ∧
  sum_list (Cell.q41 c) ≤ Cell.n c ∧
  sum_list (Cell.q72 c) ≤ Cell.n c ∧
  sum_list (Cell.q73 c) ≤ Cell.n c ∧
  sum_list (Cell.q74 c) ≤ Cell.n c ∧
  sum_list (Cell.q75 c) ≤ Cell.n c ∧
  sum_list (Cell.q76 c) = Cell.n_q76 c ∧ Cell.n_q76 c ≤ Cell.n c ∧
  Forall (λ k, k ≤ Cell.n_q77 c) (Cell.q77 c) ∧ Cell.n_q77 c ≤ Cell.n c.

(** The education value has no entry in either table (NaN has none). *)
Definition unmapped_education (r : Row) : Prop :=
  ∀ v, Education r = Some v →
       (v ∉ map fst EDU_GROUPS) ∧ (v ∉ map fst EDU_MERGE).

Definition CR : ascii := "013".
Definition LF : ascii := "010".

Arguments match_open : simpl never.
Arguments find_close : simpl never.
Arguments search_from : simpl never.

Fixpoint has_char (c : ascii) (s : string) : bool :=
  match s with
  | EmptyString => false
  | String c' s' => bool_decide (c' = c) || has_char c s'
  end.

(** The filter stage after the label row is skipped. *)
Definition quality_filters (parse_datetime : DateParser) (data : list Row)
  : option (list Row) :=
  data ← to_datetime parse_datetime (remove_import_rows data);
  cutoff ← parse_datetime_string parse_datetime DATE_CUTOFF;
  Some (attention_filter (date_filter cutoff data)).

(** Largest count first. *)
Definition n_desc (a b : CountryInfo.t) : Prop := CountryInfo.n b ≤ CountryInfo.n a.

(** The part of a key after the prefix. *)
Definition key_tail (age edu : string) : string := "|" +:+ age +:+ "|" +:+ edu.

(** What [add_cells key_prefix subset] may store under key [k]: the
    top-level cell of the subset, or a breakdown cell of at least 5 rows. *)
Definition top_write `{Float64} (key_prefix : string) (subset : list Row)
    (k : string) (c : Cell.t) : Prop :=
  k = cell_key key_prefix "All" "All" ∧ aggregate_cell subset = Some c.

Definition sub_write `{Float64} (key_prefix : string) (k : string) (c : Cell.t) : Prop :=
  ∃ age edu sub,
    age ∈ AGE_LABELS ∧ edu ∈ EDU_LABELS ∧ (age ≠ "All" ∨ edu ≠ "All") ∧
    k = cell_key key_prefix age edu ∧ aggregate_cell sub = Some c ∧ 5 ≤ Cell.n c.

Definition written `{Float64} (key_prefix : string) (subset : list Row)
    (k : string) (c : Cell.t) : Prop :=
  top_write key_prefix subset k c ∨ sub_write key_prefix k c.

(** [add_cells] over a list of scopes, in order. *)
Definition add_all `{Float64} (scopes : list (string * list Row))
    (cells : gmap string Cell.t) : gmap string Cell.t :=
  foldl (λ cells scope, add_cells scope.1 scope.2 cells) cells scopes.

(** ** Brackets and slices *)

(** A bracket is [None] for "all" or [Some] of the value the rows carry: the
    full age text, the short education label. *)
Definition AGE_BRACKETS : list (option string) := None :: map Some AGE_GROUPS.
Definition EDU_BRACKETS : list (option string) := None :: map Some EDU_SHORT_ORDER.

Definition age_label (age : option string) : string :=
  match age with Some age_full => age_short_of age_full | None => "All" end.

Definition edu_label (edu : option string) : string := default "All" edu.

(** The rows of a subset in one (age, education) bracket pair. *)
Definition slice (age edu : option string) (subset : list Row) : list Row :=
  let age_subset := match age with Some a => by_age a subset | None => subset end in
  match edu with Some e => by_edu e age_subset | None => age_subset end.

(** The cell [add_cells] has to store for a bracket pair, if any: the
    aggregate of the slice, kept below 5 rows only for (all, all). *)
Definition expected_cell `{Float64} (age edu : option string) (subset : list Row)
  : option Cell.t :=
  match age, edu with
  | None, None => aggregate_cell subset
  | _, _ =>
      c ← aggregate_cell (slice age edu subset);
      if decide (5 ≤ Cell.n c) then Some c else None
  end.

Definition tail_chars (age edu : string) : list ascii :=
  list_ascii_of_string (key_tail age edu).

(** The bracket pairs in the order [add_cells] goes through them. *)
Definition bracket_order : list (option string * option string) :=
  (None, None)
  :: map (λ a, (Some a, None)) AGE_GROUPS
  ++ map (λ e, (None, Some e)) EDU_SHORT_ORDER
  ++ (a ← AGE_GROUPS; map (λ e, (Some a, Some e)) EDU_SHORT_ORDER).

(** One assignment [cells[key] = cell], skipped when there is no cell. *)
Definition store_cell `{Float64} (cells : gmap string Cell.t)
    (w : string * option Cell.t) : gmap string Cell.t :=
  match w.2 with
  | Some c => <[w.1 := c]> cells
  | None => cells
  end.

Definition cell_writes `{Float64} (key_prefix : string) (subset : list Row)
  : list (string * option Cell.t) :=
  map (λ b, (cell_key key_prefix (age_label b.1) (edu_label b.2),
             expected_cell b.1 b.2 subset))
      bracket_order.

(** The lengths of a cell's lists, by question id, in the cell's own order. *)
Definition cell_list_lengths `{Float64} (c : Cell.t) : list (string * nat) :=
  [ ("q71", length (Cell.q71 c)); ("q31", length (Cell.q31 c));
    ("q32", length (Cell.q32 c)); ("q41", length (Cell.q41 c));
    ("q72", length (Cell.q72 c)); ("q73", length (Cell.q73 c));
    ("q74", length (Cell.q74 c)); ("q75", length (Cell.q75 c));
    ("q76", length (Cell.q76 c)); ("q77", length (Cell.q77 c));
    ("q78", length (Cell.q78 c)) ].

(** [pat] occurs in [s] as a contiguous piece. *)
Definition substring_of (pat s : string) : Prop :=
  ∃ pre post, s = pre +:+ pat +:+ post.

(** ** The output block of [main] *)

(** Python's truth of an optional argument: given, and not the empty string. *)
Definition given (arg : option string) : option string :=
  match arg with
  | Some s => if decide (s = "") then None else Some s
  | None => None
  end.

Definition MSG_NOT_SAVED : string :=
  String "010"
    "No --output or --embed specified. Use --output FILE or --embed HTML to save results.".

(** The last block of [main], once [json_str] is there: write the --output
    file, embed into the --embed file, or say that nothing was saved. *)
Definition main_outputs (json_str : string) (output embed : option string) (w : World)
  : Outcome * World :=
  let w :=
    match given output with
    | Some path => print ("Written to " +:+ path) (write_text path json_str w)
    | None => w
    end in
  match given embed with
  | Some html_path => embed_in_html json_str html_path w
  | None =>
      match given output with
      | Some _ => (Returned, w)
      | None => (Returned, print MSG_NOT_SAVED w)
      end
  end.

(** The format the filter stage reads the dates with: that of the first
    date, not null, of the rows after the label row that carry no import
    marker. *)
Definition date_format (parse_datetime : DateParser) (df : list Row) : option string :=
  column_format parse_datetime (map StartDate (remove_import_rows (skip_label_row df))).

(** A row the filter stage keeps, by the row as it was read. *)
Definition valid_response (parse_datetime : DateParser) (format : option string)
    (cutoff : Z) (r : Row) : Prop :=
  cell_contains "ImportId" (Q3_1 r) = false ∧
  Attention_Check r = Some ATTENTION_ANSWER ∧
  ∃ t, to_datetime_cell parse_datetime format (StartDate r) = Some (Timestamp t) ∧
       (cutoff ≤ t)%Z.

Global Instance valid_response_dec parse_datetime format cutoff r :
  Decision (valid_response parse_datetime format cutoff r).
Proof.
  unfold valid_response. apply and_dec; [apply _|]. apply and_dec; [apply _|].
  destruct (to_datetime_cell parse_datetime format (StartDate r)) as [[| |t]|].
  - right. by intros (? & ? & _).
  - right. by intros (? & ? & _).
  - destruct (decide (cutoff ≤ t)%Z) as [Hle|Hle].
    + left. by exists t.
    + right. intros (t' & [= <-] & ?). done.
  - right. by intros (? & ? & _).
Defined.

(** The value of a finite double, as a fraction. *)
Definition SF2Q (x : spec_float) : Q :=
  match x with
  | S754_finite s m e =>
      if (0 <=? e)%Z then inject_Z (cond_Zopp s (Zpos m) * 2 ^ e)
      else cond_Zopp s (Zpos m) # Z.to_pos (2 ^ (- e))
  | _ => 0%Q
  end.

Definition SFfinite (x : spec_float) : bool :=
  match x with
  | S754_zero _ | S754_finite _ _ _ => true
  | _ => false
  end.

(** A finite double with a value from 0 to 100. *)
Definition in_percent_range (x : spec_float) : Prop :=
  SFfinite x = true ∧ (0 <= SF2Q x)%Q ∧ (SF2Q x <= 100)%Q.

(** A well-formed percentage: a double of the format, from 0 to 100. *)
Definition percentage (x : spec_float) : Prop :=
  valid_binary 53 1024 x = true ∧ in_percent_range x.

Global Instance Qle_dec (x y : Q) : Decision (x <= y)%Q.
Proof.
  destruct (Qle_bool x y) eqn:E.
  - left. by apply Qle_bool_iff.
  - right. intros H. apply Qle_bool_iff in H. congruence.
Defined.

Global Instance percentage_dec x : Decision (percentage x).
Proof. unfold percentage, in_percent_range. apply _. Defined.

(** A field as a number, in the spec's words: the number read from its
    text, and zero when the field is missing or its text is no number. *)
Definition number_or_zero (to_double : string → option spec_float) (c : option string)
  : spec_float :=
  match c with
  | Some s =>
      match to_double s with
      | Some S754_nan | None => S754_zero false
      | Some x => x
      end
  | None => S754_zero false
  end.

(** The numbers of one allocation field over the rows that answered Q7.7. *)
Definition q78_values (to_double : string → option spec_float)
    (col : Row → option string) (subset : list Row) : list spec_float :=
  map (λ r, number_or_zero to_double (col r)) (filter answered subset).

(** [r] is [x] rounded to one decimal place: the double nearest to
    [k / 10] for an integer [k] nearest to ten times the value of [x],
    with the sign of [x]. *)
Definition rounded_to_tenths (x r : spec_float) : Prop :=
  match x with
  | S754_finite s _ _ =>
      ∃ k : Z, (Qabs (10 * Qabs (SF2Q x) - inject_Z k) <= 1 # 2)%Q ∧ r = tenth_double s k
  | _ => r = x
  end.

(** Whether a rounding step lost anything. *)
Definition inx (l : location) : Z :=
  match l with loc_Exact => 0 | loc_Inexact _ => 1 end%Z.

(** A non-negative double at most [mB * 2 ^ eB], at an exponent no larger
    than [eB]; zero counts with either sign. *)
Definition bounded_by (mB eB : Z) (x : spec_float) : Prop :=
  match x with
  | S754_zero _ => True
  | S754_finite false m e => (e ≤ eB ∧ Zpos m ≤ mB * 2 ^ (eB - e))%Z
  | _ => False
  end.

(** ** Strings *)

Lemma append_cons (x : ascii) (a b : string) : String x a +:+ b = String x (a +:+ b).
Proof. reflexivity. Qed.

Lemma append_nil_l (a : string) : "" +:+ a = a.
Proof. reflexivity. Qed.

Lemma append_assoc (a b c : string) : (a +:+ b) +:+ c = a +:+ (b +:+ c).
Proof. induction a as [|x a IH]; [done | by rewrite !append_cons, IH]. Qed.

Lemma append_nil_r (a : string) : a +:+ "" = a.
Proof. induction a as [|x a IH]; [done | by rewrite append_cons, IH]. Qed.

Lemma length_append (a b : string) :
  String.length (a +:+ b) = String.length a + String.length b.
Proof. induction a as [|x a IH]; [done | by rewrite append_cons; simpl; rewrite IH]. Qed.

Lemma chars_append (a b : string) :
  list_ascii_of_string (a +:+ b) = list_ascii_of_string a ++ list_ascii_of_string b.
Proof. induction a as [|x a IH]; [done | by rewrite append_cons; simpl; rewrite IH]. Qed.

Lemma chars_inj (a b : string) :
  list_ascii_of_string a = list_ascii_of_string b → a = b.
Proof.
  intros E. apply (f_equal string_of_list_ascii) in E.
  by rewrite !string_of_list_ascii_of_string in E.
Qed.

Lemma append_inj_r (a b c : string) : a +:+ c = b +:+ c → a = b.
Proof.
  intros E. apply chars_inj. apply (f_equal list_ascii_of_string) in E.
  rewrite !chars_append in E. by apply app_inv_tail in E.
Qed.

Lemma take_str_append (a b : string) : take_str (String.length a) (a +:+ b) = a.
Proof.
  induction a as [|x a IH]; [by destruct b | by rewrite append_cons; simpl; rewrite IH].
Qed.

Lemma drop_str_append (a b : string) : drop_str (String.length a) (a +:+ b) = b.
Proof. induction a as [|x a IH]; [by destruct b | by rewrite append_cons]. Qed.

(** ** Counting lemmas *)

Section Counting.
Context {A : Type}.
Implicit Types (P Q : A → Prop) (l : list A).

Lemma filter_length_mono P Q `{!∀ x, Decision (P x)} `{!∀ x, Decision (Q x)} l :
  (∀ x, P x → Q x) → length (filter P l) ≤ length (filter Q l).
Proof.
  intros HPQ. induction l as [|x l IH]; [done|].
  rewrite !filter_cons. destruct (decide (P x)) as [HP|HP].
  - rewrite decide_True by auto. simpl. lia.
  - destruct (decide (Q x)); simpl; lia.
Qed.

Lemma filter_length_minus P Q `{!∀ x, Decision (P x)} `{!∀ x, Decision (Q x)} l :
  (∀ x, Q x → P x) →
  length (filter P l) - length (filter Q l) = length (filter (λ x, P x ∧ ¬ Q x) l) ∧
  length (filter Q l) ≤ length (filter P l).
Proof.
  intros HQP. induction l as [|x l [IH1 IH2]]; [done|].
  rewrite !filter_cons.
  destruct (decide (Q x)) as [HQ|HQ].
  - rewrite decide_True by auto. rewrite decide_False by tauto. simpl. lia.
  - destruct (decide (P x)) as [HP|HP].
    + rewrite decide_True by tauto. simpl. lia.
    + rewrite decide_False by tauto. simpl. lia.
Qed.
End Counting.

Lemma count_eq_cons c series v :
  count_eq (c :: series) v = (if decide (c = Some v) then 1 else 0) + count_eq series v.
Proof. unfold count_eq. rewrite filter_cons. by case_decide. Qed.

Lemma count_eq_le series v : count_eq series v ≤ length series.
Proof. apply length_filter. Qed.

Lemma one_option_hit (c : option string) options :
  NoDup options →
  sum_list (map (λ opt, if decide (c = Some opt) then 1 else 0) options) ≤ 1.
Proof.
  induction 1 as [|opt options Hnotin _ IH]; simpl; [lia|].
  case_decide as Hc; [|lia].
  assert (sum_list (map (λ opt, if decide (c = Some opt) then 1 else 0) options) = 0)
    as ->; [|lia].
  clear IH. induction options as [|o options IH]; [done|]. simpl.
  rewrite decide_False.
  - apply IH. set_solver.
  - intros ->. simplify_eq. set_solver.
Qed.

Lemma count_options_cons c series options :
  sum_list (count_options (c :: series) options)
  = sum_list (map (λ opt, if decide (c = Some opt) then 1 else 0) options)
    + sum_list (count_options series options).
Proof.
  unfold count_options. induction options as [|o options IH]; [done|].
  simpl. rewrite count_eq_cons, IH. lia.
Qed.

(** Exclusive options: the counts add up to at most the number of rows. *)
Lemma count_options_sum series options :
  NoDup options → sum_list (count_options series options) ≤ length series.
Proof.
  intros Hnd. induction series as [|c series IH].
  - unfold count_options. induction options; [done|]. simpl.
    inversion Hnd; subst. unfold count_eq at 1. simpl. auto.
  - rewrite count_options_cons. pose proof (one_option_hit c options Hnd). simpl. lia.
Qed.

Lemma count_yes_no_sum series : sum_list (count_yes_no series) ≤ length series.
Proof.
  change (count_yes_no series) with (count_options series ["Yes"; "No"]).
  apply count_options_sum. by apply (bool_decide_unpack _).
Qed.

Lemma contains_empty pat : pat ≠ "" → contains pat "" = false.
Proof. by destruct pat. Qed.

Lemma answered_q77_spec series :
  answered_q77 series = length (filter (λ c, c ≠ None ∧ ¬ c = Some "") series) ∧
  count_eq series "" ≤ length (filter (λ c, c ≠ None) series).
Proof.
  unfold answered_q77, count_eq.
  apply (filter_length_minus (λ c, c ≠ None) (λ c, c = Some "")). by intros ? ->.
Qed.

Lemma answered_q77_le series : answered_q77 series ≤ length series.
Proof. destruct (answered_q77_spec series) as [-> _]. apply length_filter. Qed.

(** Every option count of the multi-select question is within [n_q77]. *)
Lemma count_q77_le series : Forall (λ k, k ≤ answered_q77 series) (count_q77 series).
Proof.
  unfold count_q77. apply Forall_map, Forall_forall. intros pat Hpat. simpl.
  destruct (answered_q77_spec series) as [-> _].
  apply filter_length_mono. intros [s|]; simpl; [|done].
  intros Hc. split; [done|]. intros [= ->].
  rewrite contains_empty in Hc; [done|].
  intros ->. revert Hpat. by apply (bool_decide_unpack _).
Qed.

Lemma aggregate_cell_counts `{Float64} subset c :
  aggregate_cell subset = Some c → counts_within c.
Proof.
  unfold aggregate_cell. case_decide; [done|].
  intros Hc. apply (inj Some) in Hc. subst c.
  unfold counts_within.
  cbn [Cell.n Cell.q71 Cell.q31 Cell.q32 Cell.q41 Cell.q72 Cell.q73 Cell.q74
       Cell.q75 Cell.q76 Cell.n_q76 Cell.q77 Cell.n_q77].
  pose proof (count_yes_no_sum (map Q7_6 subset)) as H76.
  repeat split.
  1, 5, 6, 7, 8: etrans; [apply count_yes_no_sum | by rewrite length_map].
  1, 2, 3: etrans; [apply count_options_sum; by apply (bool_decide_unpack _)
                   | by rewrite length_map].
  - unfold count_yes_no. simpl. lia.
  - rewrite length_map in H76. unfold count_yes_no in *. simpl in *. lia.
  - apply count_q77_le.
  - etrans; [apply answered_q77_le | by rewrite length_map].
Qed.

Lemma aggregate_cell_n `{Float64} subset c :
  aggregate_cell subset = Some c → Cell.n c = length subset ∧ subset ≠ [].
Proof.
  unfold aggregate_cell. case_decide as Hn; [done|]. intros [= <-]. simpl.
  split; [done|]. by intros ->.
Qed.

Lemma aggregate_cell_nonempty `{Float64} subset :
  subset ≠ [] → is_Some (aggregate_cell subset).
Proof.
  intros Hne. unfold aggregate_cell. case_decide as Hn; [|by eexists].
  by destruct subset.
Qed.

(** ** Composite keys *)

Lemma cell_key_tail p a e : cell_key p a e = p +:+ key_tail a e.
Proof. reflexivity. Qed.

Lemma suffix_of_equal_apps {A} (x y t u : list A) :
  length u ≤ length t → x ++ t = y ++ u → drop (length t - length u) t = u.
Proof.
  intros Hlen E. rewrite <- (take_drop (length t - length u) t) in E at 1.
  rewrite app_assoc in E. apply app_inj_2 in E; [by destruct E|].
  rewrite length_drop. lia.
Qed.

(** Only the tail of a top-level key ends in [|All|All]. *)
Lemma key_tail_table :
  Forall (λ a, Forall (λ e,
    8 ≤ length (list_ascii_of_string (key_tail a e)) ∧
    (drop (length (list_ascii_of_string (key_tail a e)) - 8)
          (list_ascii_of_string (key_tail a e))
     = list_ascii_of_string (key_tail "All" "All") → a = "All" ∧ e = "All"))
    EDU_LABELS) AGE_LABELS.
Proof. apply (bool_decide_unpack _). by vm_compute. Qed.

Lemma cell_key_top_inv p p' a e :
  a ∈ AGE_LABELS → e ∈ EDU_LABELS →
  cell_key p a e = cell_key p' "All" "All" → a = "All" ∧ e = "All" ∧ p = p'.
Proof.
  intros Ha He E.
  pose proof key_tail_table as T.
  rewrite Forall_forall in T. specialize (T a Ha).
  rewrite Forall_forall in T. destruct (T e He) as [Hlen Hsuf].
  assert (a = "All" ∧ e = "All") as [-> ->].
  { apply Hsuf. rewrite !cell_key_tail in E.
    apply (f_equal list_ascii_of_string) in E. rewrite !chars_append in E.
    by apply suffix_of_equal_apps in E. }
  split_and!; [done..|]. rewrite !cell_key_tail in E. by apply append_inj_r in E.
Qed.

Lemma age_short_labels :
  Forall (λ age_full, age_short_of age_full ∈ AGE_LABELS ∧ age_short_of age_full ≠ "All")
         AGE_GROUPS.
Proof. apply (bool_decide_unpack _). by vm_compute. Qed.

Lemma edu_short_labels :
  Forall (λ edu, edu ∈ EDU_LABELS ∧ edu ≠ "All") EDU_SHORT_ORDER.
Proof. apply (bool_decide_unpack _). by vm_compute. Qed.

(** ** The cell dictionary *)

Section Cells.
Context `{Float64}.
Implicit Types (m cells : gmap string Cell.t) (k key : string) (c : Cell.t).

Lemma foldl_origin {A} (W : string → Cell.t → Prop)
    (f : gmap string Cell.t → A → gmap string Cell.t) (l : list A) :
  (∀ m x k c, x ∈ l → f m x !! k = Some c → m !! k = Some c ∨ W k c) →
  ∀ m k c, foldl f m l !! k = Some c → m !! k = Some c ∨ W k c.
Proof.
  induction l as [|x l IH]; intros Hstep m k c; simpl; [by left|].
  intros Hk. apply IH in Hk as [Hk|Hk]; [|by right|].
  - eapply Hstep; [|done]. by left.
  - intros ?????. eapply Hstep. by right.
Qed.

Lemma foldl_keeps {A} (f : gmap string Cell.t → A → gmap string Cell.t) (l : list A) :
  (∀ m x k, is_Some (m !! k) → is_Some (f m x !! k)) →
  ∀ m k, is_Some (m !! k) → is_Some (foldl f m l !! k).
Proof.
  intros Hstep. induction l as [|x l IH]; intros m k Hk; simpl; [done|].
  by apply IH, Hstep.
Qed.

Lemma put_if_ge5_origin key cell m k c :
  put_if_ge5 key cell m !! k = Some c →
  m !! k = Some c ∨ (k = key ∧ cell = Some c ∧ 5 ≤ Cell.n c).
Proof.
  unfold put_if_ge5. destruct cell as [c'|]; [|by left].
  case_decide; [|by left].
  destruct (decide (key = k)) as [->|Hne].
  - rewrite lookup_insert_eq. intros [= ->]. by right.
  - rewrite lookup_insert_ne by done. by left.
Qed.

Lemma put_if_ge5_keeps key cell m k :
  is_Some (m !! k) → is_Some (put_if_ge5 key cell m !! k).
Proof.
  unfold put_if_ge5. destruct cell as [c'|]; [|done]. case_decide; [|done].
  intros Hk. rewrite lookup_insert. by case_decide.
Qed.

Lemma add_cells_origin p subset m k c :
  add_cells p subset m !! k = Some c → m !! k = Some c ∨ written p subset k c.
Proof.
  pose proof age_short_labels as HA. rewrite Forall_forall in HA.
  pose proof edu_short_labels as HE. rewrite Forall_forall in HE.
  assert ("All" ∈ AGE_LABELS ∧ "All" ∈ EDU_LABELS) as [HallA HallE].
  { split; by apply (bool_decide_unpack _). }
  unfold add_cells. intros Hk.
  apply (foldl_origin (written p subset)) in Hk as [Hk|Hk]; [|by right|]; cycle 1.
  { intros m' age k' c' Hage Hk'.
    apply (foldl_origin (written p subset)) in Hk' as [Hk'|Hk']; [by left|by right|].
    intros m'' edu k'' c'' Hedu Hk''.
    apply put_if_ge5_origin in Hk'' as [?|(-> & Hc & Hn)]; [by left|].
    right. right. exists (age_short_of age), edu, (by_edu edu (by_age age subset)).
    destruct (HA age Hage), (HE edu Hedu). split_and!; auto. }
  apply (foldl_origin (written p subset)) in Hk as [Hk|Hk]; [|by right|]; cycle 1.
  { intros m' edu k' c' Hedu Hk'.
    apply put_if_ge5_origin in Hk' as [?|(-> & Hc & Hn)]; [by left|].
    right. right. exists "All", edu, (by_edu edu subset).
    destruct (HE edu Hedu). split_and!; auto. }
  apply (foldl_origin (written p subset)) in Hk as [Hk|Hk]; [|by right|]; cycle 1.
  { intros m' age k' c' Hage Hk'.
    apply put_if_ge5_origin in Hk' as [?|(-> & Hc & Hn)]; [by left|].
    right. right. exists (age_short_of age), "All", (by_age age subset).
    destruct (HA age Hage). split_and!; auto. }
  destruct (aggregate_cell subset) as [cell|] eqn:Hagg; [|by left].
  destruct (decide (cell_key p "All" "All" = k)) as [<-|Hne].
  - rewrite lookup_insert_eq in Hk. injection Hk as ->. right. by left.
  - rewrite lookup_insert_ne in Hk by done. by left.
Qed.

Lemma add_cells_keeps p subset m k :
  is_Some (m !! k) → is_Some (add_cells p subset m !! k).
Proof.
  intros Hk. unfold add_cells.
  apply foldl_keeps.
  { intros m' age k' Hk'. apply foldl_keeps; [|done].
    intros. by apply put_if_ge5_keeps. }
  apply foldl_keeps; [intros; by apply put_if_ge5_keeps|].
  apply foldl_keeps; [intros; by apply put_if_ge5_keeps|].
  destruct (aggregate_cell subset); [|done].
  rewrite lookup_insert. by case_decide.
Qed.

Lemma add_cells_top p subset m :
  subset ≠ [] → is_Some (add_cells p subset m !! cell_key p "All" "All").
Proof.
  intros Hne. unfold add_cells.
  apply foldl_keeps.
  { intros m' age k' Hk'. apply foldl_keeps; [|done].
    intros. by apply put_if_ge5_keeps. }
  apply foldl_keeps; [intros; by apply put_if_ge5_keeps|].
  apply foldl_keeps; [intros; by apply put_if_ge5_keeps|].
  destruct (aggregate_cell_nonempty subset Hne) as [cell ->].
  by rewrite lookup_insert_eq.
Qed.

Lemma add_all_origin scopes m k c :
  add_all scopes m !! k = Some c →
  m !! k = Some c ∨ ∃ p subset, (p, subset) ∈ scopes ∧ written p subset k c.
Proof.
  unfold add_all. intros Hk.
  apply (foldl_origin (λ k c, ∃ p subset, (p, subset) ∈ scopes ∧ written p subset k c))
    in Hk; [done|].
  intros m' [p subset] k' c' Hin Hk'. simpl in Hk'.
  apply add_cells_origin in Hk' as [?|?]; [by left|]. right. eauto.
Qed.

Lemma add_all_keeps scopes m k :
  is_Some (m !! k) → is_Some (add_all scopes m !! k).
Proof. unfold add_all. apply foldl_keeps. intros. by apply add_cells_keeps. Qed.

Lemma add_all_top scopes m p subset :
  (p, subset) ∈ scopes → subset ≠ [] →
  is_Some (add_all scopes m !! cell_key p "All" "All").
Proof.
  revert m. induction scopes as [|[p' s'] scopes IH]; intros m Hin Hne.
  - by apply elem_of_nil in Hin.
  - apply elem_of_cons in Hin as [[= <- <-]|Hin].
    + apply (add_all_keeps scopes), add_cells_top, Hne.
    + by apply IH.
Qed.

Lemma build_cells_add_all data countries :
  build_cells data countries = add_all (geographies data countries) ∅.
Proof.
  unfold build_cells, geographies, add_all. simpl.
  generalize (add_cells "LMIC" (filter (λ r, is_lmic r = Some "True") data)
    (add_cells "OECD" (filter (λ r, is_oecd r = Some "True") data)
      (add_cells "All" data ∅))).
  induction countries as [|ci countries IH]; intros m; simpl; [done|]. by rewrite IH.
Qed.

Lemma build_cells_origin data countries k c :
  build_cells data countries !! k = Some c →
  ∃ p subset, (p, subset) ∈ geographies data countries ∧ written p subset k c.
Proof.
  rewrite build_cells_add_all. intros Hk.
  apply add_all_origin in Hk as [Hk|Hk]; [|done]. by rewrite lookup_empty in Hk.
Qed.

Lemma build_cells_top data countries g subset :
  (g, subset) ∈ geographies data countries → subset ≠ [] →
  is_Some (build_cells data countries !! cell_key g "All" "All").
Proof. intros Hin Hne. rewrite build_cells_add_all. by eapply add_all_top. Qed.
End Cells.

(** ** Suppression and the overall cell *)

(** C1: a cell stored under a key whose age or education component is not
    "All" has at least 5 respondents; and for every geography with a
    non-empty row subset the key "<geography>|All|All" is present, whatever
    the subset's size. *)
Theorem suppression_below_five `{Float64} (data : list Row)
    (countries : list CountryInfo.t) :
  (∀ g age edu cell,
     age ∈ AGE_LABELS → edu ∈ EDU_LABELS → age ≠ "All" ∨ edu ≠ "All" →
     build_cells data countries !! cell_key g age edu = Some cell →
     5 ≤ Cell.n cell) ∧
  (∀ g subset,
     (g, subset) ∈ geographies data countries → subset ≠ [] →
     is_Some (build_cells data countries !! cell_key g "All" "All")).
Proof.
  split.
  - intros g age edu cell Hage Hedu Hnot Hk.
    apply build_cells_origin in Hk as (p & s & _ & [[Hkey _]|Hsub]).
    + apply cell_key_top_inv in Hkey as (-> & -> & _); [|done..].
      by destruct Hnot.
    + by destruct Hsub as (? & ? & ? & _ & _ & _ & _ & _ & ?).
  - intros g subset Hin Hne. by apply build_cells_top with subset.
Qed.

(** C2, as amended: in every cell of the output, the counts of each yes/no
    and single-choice question sum to at most n, the counts of Q7.6 sum to
    n_q76, and each single option count of the multi-select question is at
    most n_q77, which is at most n. *)
Theorem cell_counts_within_denominators `{Float64} (data : list Row)
    (countries : list CountryInfo.t) (k : string) (c : Cell.t) :
  build_cells data countries !! k = Some c → counts_within c.
Proof.
  intros Hk. apply build_cells_origin in Hk as (p & s & _ & [[_ Hagg]|Hsub]).
  - by eapply aggregate_cell_counts.
  - destruct Hsub as (? & ? & sub & _ & _ & _ & _ & Hagg & _).
    by eapply aggregate_cell_counts.
Qed.

Lemma cell_counts_within_denominators_witness :
  ∃ c, build_cells (H:=exact_arith) [two_options_row] [] !! "All|All|All" = Some c ∧
       counts_within c.
Proof.
  destruct (build_cells_top (H:=exact_arith) [two_options_row] [] "All" [two_options_row])
    as [c Hc]; [by left | done |].
  exists c. split; [exact Hc|].
  exact (cell_counts_within_denominators (H:=exact_arith) [two_options_row] []
           "All|All|All" c Hc).
Defined.

(** C2 as stated fails for the multi-select question: one respondent who
    ticked two options gives option counts that sum to 2 against n_q77 = 1. *)
Lemma multi_select_sum_exceeds_n_q77 :
  ∃ c, build_cells (H:=exact_arith) [two_options_row] [] !! "All|All|All" = Some c ∧
       Cell.q77 c = [0; 1; 1; 0; 0] ∧ Cell.n_q77 c = 1 ∧
       ¬ sum_list (Cell.q77 c) ≤ Cell.n_q77 c.
Proof.
  assert ((λ c : @Cell.t exact_arith, (Cell.q77 c, Cell.n_q77 c))
            <$> (build_cells (H:=exact_arith) [two_options_row] [] !! "All|All|All")
          = Some ([0; 1; 1; 0; 0], 1)) as E by (by vm_compute).
  destruct (build_cells (H:=exact_arith) [two_options_row] [] !! "All|All|All")
    as [c|]; [|done].
  exists c. injection E as -> ->. split_and!; [done..|]. simpl. lia.
Qed.

(** C10, as amended: for a non-empty table and a country list in which no
    country has the id "All", the cell keyed "All|All|All" is present, its n
    is the number of rows, and so is meta.total_n. *)
Theorem overall_cell_counts_all_rows `{Float64} (today : string) (data : list Row)
    (countries : list CountryInfo.t) :
  data ≠ [] →
  (∀ ci, ci ∈ countries → CountryInfo.id ci ≠ "All") →
  ∃ cell,
    build_cells data countries !! "All|All|All" = Some cell ∧
    Cell.n cell = length data ∧
    Meta.total_n
      (Output.meta (build_json today data countries (build_cells data countries)))
    = length data.
Proof.
  intros Hne Hids.
  assert (is_Some (build_cells data countries !! cell_key "All" "All" "All"))
    as [cell Hcell].
  { apply build_cells_top with data; [by left | done]. }
  exists cell. split; [done|]. split; [|done].
  apply build_cells_origin in Hcell as (p & s & Hin & [[Hkey Hagg]|Hsub]).
  - apply append_inj_r in Hkey as <-.
    assert (s = data) as ->; [|by apply aggregate_cell_n in Hagg as [-> _]].
    unfold geographies in Hin.
    apply elem_of_cons in Hin as [[= ->]|Hin]; [done|].
    apply elem_of_cons in Hin as [[=]|Hin].
    apply elem_of_cons in Hin as [[=]|Hin].
    apply list_elem_of_fmap in Hin as (ci & [= Hid _] & Hci).
    by destruct (Hids ci Hci).
  - destruct Hsub as (a & e & ? & Ha & He & Hnot & Hkey & _).
    symmetry in Hkey. apply cell_key_top_inv in Hkey as (-> & -> & _); [|done..].
    by destruct Hnot.
Qed.

Lemma overall_cell_counts_all_rows_witness :
  ∃ cell,
    build_cells (H:=exact_arith) chile_table (get_country_info chile_table)
      !! "All|All|All" = Some cell ∧
    Cell.n cell = length chile_table ∧
    Meta.total_n
      (Output.meta (build_json (H:=exact_arith) "2026-03-01" chile_table
                      (get_country_info chile_table)
                      (build_cells chile_table (get_country_info chile_table))))
    = length chile_table.
Proof.
  apply (overall_cell_counts_all_rows (H:=exact_arith) "2026-03-01" chile_table
           (get_country_info chile_table)).
  - intros E. by vm_compute in E.
  - apply Forall_forall. apply (bool_decide_unpack _). by vm_compute.
Defined.

(** C10 as stated fails when a reported country has the id "All": its
    top-level cell replaces the overall one under the same key. *)
Lemma overall_cell_replaced_by_country_All :
  ∃ cell,
    build_cells (H:=exact_arith) table_with_country_All
      (get_country_info table_with_country_All) !! "All|All|All" = Some cell ∧
    Cell.n cell = 100 ∧
    length table_with_country_All = 101 ∧
    Meta.total_n
      (Output.meta (build_json (H:=exact_arith) "2026-03-01" table_with_country_All
                      (get_country_info table_with_country_All)
                      (build_cells table_with_country_All
                         (get_country_info table_with_country_All))))
    = 101.
Proof.
  assert (@Cell.n exact_arith <$> (build_cells (H:=exact_arith) table_with_country_All
                        (get_country_info table_with_country_All) !! "All|All|All")
          = Some 100) as E by (by vm_compute).
  destruct (build_cells (H:=exact_arith) table_with_country_All
              (get_country_info table_with_country_All) !! "All|All|All")
    as [cell|]; [|done].
  exists cell. injection E as ->. split_and!; [done..|]. by vm_compute.
Qed.

(** ** Education buckets *)

Lemma dict_get_None d k : k ∉ map fst d → dict_get d k = None.
Proof.
  induction d as [|[k' v] d IH]; intros Hk; simpl; [done|].
  simpl in Hk. rewrite not_elem_of_cons in Hk. destruct Hk as [Hne Hk].
  rewrite decide_False by done. by apply IH.
Qed.

Lemma edu_short_unmapped r : unmapped_education r → edu_short r = "".
Proof.
  unfold unmapped_education, edu_short. destruct (Education r) as [v|]; [|done].
  intros Hv. destruct (Hv v eq_refl) as [Hg Hm].
  change (Some v ≫= dict_get edu_map) with (dict_get edu_map v).
  rewrite dict_get_None; [done|].
  unfold edu_map. rewrite map_app. rewrite elem_of_app. tauto.
Qed.

Lemma empty_label_is_no_bucket : "" ∉ EDU_SHORT_ORDER.
Proof. apply (bool_decide_unpack _). by vm_compute. Qed.

(** C9: a row whose education value is in neither table gets the empty
    label, is in no education subset (alone or crossed with age) of any
    table, and is still among the rows of the all-education cells: the
    top-level one and the one of its age group. *)
Theorem unmapped_education_in_no_bucket `{Float64} (r : Row) (subset : list Row) :
  unmapped_education r → r ∈ subset →
  edu_short r = "" ∧
  (∀ edu, edu ∈ EDU_SHORT_ORDER →
     (r ∉ by_edu edu subset) ∧ ∀ age_full, r ∉ by_edu edu (by_age age_full subset)) ∧
  (∃ c, aggregate_cell subset = Some c ∧ Cell.n c = length subset) ∧
  (∀ age_full, Age r = Some age_full →
     r ∈ by_age age_full subset ∧
     ∃ c, aggregate_cell (by_age age_full subset) = Some c ∧
          Cell.n c = length (by_age age_full subset)).
Proof.
  intros Hun Hin. pose proof (edu_short_unmapped r Hun) as Hlabel.
  assert (∀ l, r ∈ l → ∃ c, aggregate_cell l = Some c ∧ Cell.n c = length l) as Hcell.
  { intros l Hl. destruct (aggregate_cell_nonempty l) as [c Hc].
    - intros ->. by apply elem_of_nil in Hl.
    - exists c. split; [done|]. by apply aggregate_cell_n in Hc as [? _]. }
  split_and!; [done| |by apply Hcell|].
  - intros edu Hedu.
    assert (edu_short r ≠ edu) as Hne.
    { rewrite Hlabel. intros <-. by apply empty_label_is_no_bucket. }
    unfold by_edu. split; [|intros age_full]; rewrite list_elem_of_filter; tauto.
  - intros age_full Hage.
    assert (r ∈ by_age age_full subset) as Hr
      by (unfold by_age; by rewrite list_elem_of_filter).
    split; [done|]. by apply Hcell.
Qed.

Lemma unmapped_education_in_no_bucket_witness :
  edu_short other_education_row = "" ∧
  (∀ edu, edu ∈ EDU_SHORT_ORDER →
     (other_education_row ∉ by_edu edu [two_options_row; other_education_row]) ∧
     ∀ age_full,
       other_education_row
         ∉ by_edu edu (by_age age_full [two_options_row; other_education_row])) ∧
  (∃ c, aggregate_cell (H:=exact_arith) [two_options_row; other_education_row] = Some c ∧
        Cell.n c = length [two_options_row; other_education_row]) ∧
  (∀ age_full, Age other_education_row = Some age_full →
     other_education_row ∈ by_age age_full [two_options_row; other_education_row] ∧
     ∃ c, aggregate_cell (H:=exact_arith)
            (by_age age_full [two_options_row; other_education_row]) = Some c ∧
          Cell.n c = length (by_age age_full [two_options_row; other_education_row])).
Proof.
  apply (unmapped_education_in_no_bucket (H:=exact_arith) other_education_row
           [two_options_row; other_education_row]).
  - intros v [= <-]. split; apply (bool_decide_unpack _); by vm_compute.
  - apply elem_of_cons. right. apply elem_of_cons. by left.
Defined.

(** ** Filter stage *)


Lemma filter_all {A} (P : A → Prop) `{!∀ x, Decision (P x)} (l : list A) :
  Forall P l → filter P l = l.
Proof.
  induction 1 as [|x l Hx _ IH]; [done|]. by rewrite filter_cons_True, IH.
Qed.

Lemma set_StartDate_same r : set_StartDate (StartDate r) r = r.
Proof. by destruct r. Qed.

Section FilterFacts.
Variable parse_datetime : DateParser.

Lemma load_and_filter_stages df :
  load_and_filter parse_datetime df
  = quality_filters parse_datetime (skip_label_row df).
Proof. reflexivity. Qed.

(** [to_datetime] touches the date column only. *)
Lemma to_datetime_rows data data' :
  to_datetime parse_datetime data = Some data' →
  Forall2 (λ r r', Q3_1 r' = Q3_1 r ∧ Attention_Check r' = Attention_Check r) data data'.
Proof.
  unfold to_datetime. generalize (column_format parse_datetime (map StartDate data)).
  intros format Hm. apply mapM_Some_1 in Hm.
  induction Hm as [|r r' data data' Hr _ IH]; [constructor|].
  destruct (to_datetime_cell parse_datetime format (StartDate r)) as [d|]; [|done].
  injection Hr as <-. by constructor.
Qed.

(** Converting a converted column changes nothing. *)
Lemma to_datetime_converted data :
  Forall (λ r, ∃ t, StartDate r = Timestamp t) data →
  to_datetime parse_datetime data = Some data.
Proof.
  intros Hall. unfold to_datetime.
  generalize (column_format parse_datetime (map StartDate data)). intros format.
  apply mapM_Some_2.
  induction Hall as [|r data [t Ht] _ IH]; constructor; [|done].
  rewrite Ht. simpl. by rewrite <- Ht, set_StartDate_same.
Qed.

(** C3, as amended: on the output of the filter stage, removing import
    rows, converting the dates, the date cut-off and the attention check
    change nothing; the skip of the first row is left out. *)
Theorem refiltering_changes_nothing (df out : list Row) :
  load_and_filter parse_datetime df = Some out →
  quality_filters parse_datetime out = Some out.
Proof.
  rewrite load_and_filter_stages. unfold quality_filters.
  set (data0 := remove_import_rows (skip_label_row df)).
  destruct (to_datetime parse_datetime data0) as [data|] eqn:Hconv; [|done].
  destruct (parse_datetime_string parse_datetime DATE_CUTOFF) as [cutoff|]; [|done].
  simpl. intros [= <-].
  pose proof (to_datetime_rows _ _ Hconv) as Hsame.
  set (out := attention_filter (date_filter cutoff data)).
  assert (Forall (λ r, cell_contains "ImportId" (Q3_1 r) = false) data) as Himp.
  { assert (Forall (λ r, cell_contains "ImportId" (Q3_1 r) = false) data0) as H0.
    { apply Forall_forall. intros r Hr. unfold data0, remove_import_rows in Hr.
      by apply list_elem_of_filter in Hr as [? _]. }
    clear Hconv. induction Hsame as [|r r' l l' [Hq _] _ IH]; [constructor|].
    inversion H0; subst. constructor; [by rewrite Hq | by apply IH]. }
  assert (∀ r, r ∈ out →
            cell_contains "ImportId" (Q3_1 r) = false ∧ on_or_after cutoff r ∧
            Attention_Check r = Some ATTENTION_ANSWER) as Hout.
  { intros r Hr. unfold out, attention_filter, date_filter in Hr.
    apply list_elem_of_filter in Hr as [Hatt Hr].
    apply list_elem_of_filter in Hr as [Hdate Hr].
    rewrite Forall_forall in Himp. auto. }
  assert (remove_import_rows out = out) as ->.
  { apply filter_all, Forall_forall. intros r Hr. by apply Hout. }
  rewrite to_datetime_converted; cycle 1.
  { apply Forall_forall. intros r Hr. destruct (Hout r Hr) as (_ & Hdate & _).
    unfold on_or_after in Hdate. destruct (StartDate r); [done..|by eexists]. }
  simpl. f_equal.
  assert (date_filter cutoff out = out) as ->.
  { apply filter_all, Forall_forall. intros r Hr. by apply Hout. }
  apply filter_all, Forall_forall. intros r Hr. by apply Hout.
Qed.
End FilterFacts.

Lemma refiltering_changes_nothing_witness :
  ∃ out, load_and_filter parse_iso_datetime raw_export = Some out ∧ out ≠ [] ∧
         quality_filters parse_iso_datetime out = Some out.
Proof.
  eexists. split; [by vm_compute|]. split; [done|].
  apply (refiltering_changes_nothing parse_iso_datetime raw_export). by vm_compute.
Defined.

(** C3 as stated fails: the stage drops the first row of whatever it is
    given, so a second pass over its own output loses a valid respondent. *)
Lemma second_pass_drops_a_respondent :
  ∃ out, load_and_filter parse_iso_datetime raw_export = Some out ∧
         length out = 1 ∧
         load_and_filter parse_iso_datetime out = Some [] ∧
         load_and_filter parse_iso_datetime out ≠ Some out.
Proof. eexists. split; [by vm_compute|]. by split_and!. Qed.

(** ** Geography resolver *)

Lemma elem_of_unique x l : x ∈ unique l ↔ x ∈ l.
Proof.
  induction l as [|y l IH]; simpl; [done|].
  rewrite !elem_of_cons, list_elem_of_filter, IH.
  destruct (decide (x = y)); tauto.
Qed.

Lemma count_eq_pos col v : Some v ∈ col ↔ 0 < count_eq col v.
Proof.
  unfold count_eq. induction col as [|c col IH]; simpl.
  - split; [by intros ?%elem_of_nil | lia].
  - rewrite filter_cons, elem_of_cons. case_decide; simpl.
    + split; [lia | by left].
    + rewrite <- IH. split; [|by right]. by intros [?|?].
Qed.

Lemma count_eq_column (col : Row → option string) data v :
  count_eq (map col data) v = length (filter (λ r, col r = Some v) data).
Proof.
  unfold count_eq. induction data as [|r data IH]; [done|].
  simpl. rewrite !filter_cons. case_decide; simpl; by rewrite IH.
Qed.

Global Instance count_desc_trans : Transitive count_desc.
Proof. unfold count_desc. intros ???. lia. Qed.

Global Instance count_desc_total : Total count_desc.
Proof. unfold count_desc. intros ??. lia. Qed.

Lemma elem_of_value_counts col v k :
  (v, k) ∈ value_counts col ↔ Some v ∈ col ∧ k = count_eq col v.
Proof.
  unfold value_counts. rewrite merge_sort_Permutation, list_elem_of_fmap.
  split.
  - intros (v' & [= -> ->] & Hv). split; [|done].
    apply elem_of_unique, list_elem_of_omap in Hv as (c & Hc & Hid).
    simpl in Hid. by subst c.
  - intros [Hv ->]. exists v. split; [done|].
    apply elem_of_unique, list_elem_of_omap. by exists (Some v).
Qed.

Lemma value_counts_sorted col : StronglySorted count_desc (value_counts col).
Proof. apply StronglySorted_merge_sort; apply _. Qed.

Lemma StronglySorted_omap {A B} (R : relation A) (R' : relation B)
    (f : A → option B) (l : list A) :
  (∀ x y x' y', R x y → f x = Some x' → f y = Some y' → R' x' y') →
  StronglySorted R l → StronglySorted R' (omap f l).
Proof.
  intros Hmono. induction 1 as [|x l _ IH Hx]; simpl; [constructor|].
  destruct (f x) as [x'|] eqn:Hfx; [|done].
  constructor; [done|]. apply Forall_forall. intros y' Hy'.
  apply list_elem_of_omap in Hy' as (y & Hy & Hfy).
  rewrite Forall_forall in Hx. eauto.
Qed.

Lemma any_true_spec flag rows :
  any_true flag rows = true ↔ Exists (λ r, flag r = Some "True") rows.
Proof. unfold any_true. apply bool_decide_eq_true. Qed.

(** The descriptor [get_country_info] builds from one entry of the counts. *)
Lemma get_country_info_entry data ci :
  ci ∈ get_country_info data ↔
  ∃ country_name n,
    (country_name, n) ∈ value_counts (map Country data) ∧ MIN_COUNTRY_N ≤ n ∧
    let rows := filter (λ r, Country r = Some country_name) data in
    let short := default country_name (dict_get COUNTRY_SHORT country_name) in
    ci = {| CountryInfo.id := short; CountryInfo.name := short;
            CountryInfo.full_name := country_name;
            CountryInfo.group :=
              if any_true is_oecd rows then "oecd"
              else if any_true is_lmic rows then "lmic" else "other";
            CountryInfo.n := n |}.
Proof.
  unfold get_country_info. rewrite list_elem_of_omap. split.
  - intros ([country_name n] & Hin & Hci). case_decide; [|done].
    injection Hci as <-. by exists country_name, n.
  - intros (country_name & n & Hin & Hn & ->). exists (country_name, n).
    split; [done|]. by rewrite decide_True.
Qed.

(** C4: a country is reported exactly when at least 100 rows of the table
    name it; its descriptor carries that row count, the group "oecd" when a
    row of the country has the OECD flag, else "lmic" when a row has the
    LMIC flag, else "other"; and the list runs from the largest count down. *)
Theorem countries_reported_from_100 (data : list Row) :
  (∀ country_name,
     (∃ ci, ci ∈ get_country_info data ∧ CountryInfo.full_name ci = country_name) ↔
     100 ≤ length (filter (λ r, Country r = Some country_name) data)) ∧
  (∀ ci, ci ∈ get_country_info data →
     let rows := filter (λ r, Country r = Some (CountryInfo.full_name ci)) data in
     let oecd := Exists (λ r, is_oecd r = Some "True") rows in
     let lmic := Exists (λ r, is_lmic r = Some "True") rows in
     CountryInfo.n ci = length rows ∧
     (oecd → CountryInfo.group ci = "oecd") ∧
     (¬ oecd → lmic → CountryInfo.group ci = "lmic") ∧
     (¬ oecd → ¬ lmic → CountryInfo.group ci = "other")) ∧
  StronglySorted n_desc (get_country_info data).
Proof.
  split_and!.
  - intros country_name. rewrite <- count_eq_column. split.
    + intros (ci & Hci & <-).
      apply get_country_info_entry in Hci as (cn & n & Hin & Hn & ->). simpl.
      apply elem_of_value_counts in Hin as [_ ->]. exact Hn.
    + intros Hn. eexists. split.
      * apply get_country_info_entry.
        exists country_name, (count_eq (map Country data) country_name).
        split_and!; [|exact Hn|reflexivity].
        apply elem_of_value_counts. split; [|done]. apply count_eq_pos. lia.
      * done.
  - intros ci Hci.
    apply get_country_info_entry in Hci as (cn & n & Hin & Hn & ->). simpl.
    apply elem_of_value_counts in Hin as [_ ->].
    rewrite <- !any_true_spec, count_eq_column.
    destruct (any_true is_oecd _), (any_true is_lmic _);
      split_and!; try done; intros; exfalso; intuition congruence.
  - unfold get_country_info.
    apply (StronglySorted_omap count_desc); [|apply value_counts_sorted].
    intros [v1 n1] [v2 n2] ci1 ci2 Hdesc H1 H2.
    case_decide; [|done]. case_decide; [|done].
    injection H1 as <-. injection H2 as <-. exact Hdesc.
Qed.

(** ** The placeholder pattern *)

Lemma strip_prefix_Some p s r : strip_prefix p s = Some r ↔ s = p +:+ r.
Proof.
  revert s. induction p as [|a p IH]; intros s; simpl.
  - rewrite append_nil_l. split; congruence.
  - rewrite append_cons. destruct s as [|b s]; [done|].
    case_decide as Hab.
    + subst b. rewrite IH. split; congruence.
    + split; [done|]. congruence.
Qed.

Lemma strip_prefix_append p r : strip_prefix p (p +:+ r) = Some r.
Proof. by apply strip_prefix_Some. Qed.

Lemma skip_spaces_split s : ∃ ws, all_space ws = true ∧ s = ws +:+ skip_spaces s.
Proof.
  induction s as [|c s (ws & Hws & Hs)]; simpl.
  - by exists "".
  - destruct (re_space c) eqn:Hc.
    + exists (String c ws). simpl. rewrite Hc, append_cons. by rewrite <- Hs.
    + by exists "".
Qed.

Lemma skip_spaces_append ws r :
  all_space ws = true → skip_spaces r = r → skip_spaces (ws +:+ r) = r.
Proof.
  intros Hws Hr. induction ws as [|c ws IH]; [done|].
  simpl in Hws. apply andb_true_iff in Hws as [Hc Hws].
  rewrite append_cons. simpl. rewrite Hc. by apply IH.
Qed.

Lemma spaces1_sound s r :
  spaces1 s = Some r → ∃ ws, ws ≠ "" ∧ all_space ws = true ∧ s = ws +:+ r.
Proof.
  destruct s as [|c s]; simpl; [done|].
  destruct (re_space c) eqn:Hc; [|done]. intros [= <-].
  destruct (skip_spaces_split s) as (ws & Hws & Hs).
  exists (String c ws). simpl. rewrite Hc, append_cons. by rewrite <- Hs.
Qed.

Lemma spaces1_complete ws r :
  ws ≠ "" → all_space ws = true → skip_spaces r = r → spaces1 (ws +:+ r) = Some r.
Proof.
  intros Hne Hws Hr. destruct ws as [|c ws]; [done|].
  simpl in Hws. apply andb_true_iff in Hws as [Hc Hws].
  rewrite append_cons. simpl. rewrite Hc. f_equal. by apply skip_spaces_append.
Qed.

Lemma bind_of_Some {A B} (f : A → option B) (x : A) : Some x ≫= f = f x.
Proof. reflexivity. Qed.

Lemma match_open_sound s r :
  match_open s = Some r → ∃ tag, is_open_tag tag ∧ s = tag +:+ r.
Proof.
  unfold match_open. intros Hm.
  apply bind_Some in Hm as (s1 & H1 & Hm).
  apply bind_Some in Hm as (s2 & H2 & Hm).
  apply bind_Some in Hm as (s3 & H3 & Hm).
  apply bind_Some in Hm as (s4 & H4 & Hm).
  apply strip_prefix_Some in H1, H3, Hm.
  apply spaces1_sound in H2 as (ws1 & ? & ? & H2), H4 as (ws2 & ? & ? & H4).
  exists (TAG_OPEN +:+ ws1 +:+ TAG_ID +:+ ws2 +:+ TAG_TYPE). split.
  - by exists ws1, ws2.
  - rewrite !append_assoc. congruence.
Qed.

Lemma match_open_complete tag r : is_open_tag tag → match_open (tag +:+ r) = Some r.
Proof.
  intros (ws1 & ws2 & Hne1 & Hne2 & Hws1 & Hws2 & ->).
  rewrite !append_assoc. unfold match_open.
  rewrite strip_prefix_append, bind_of_Some.
  rewrite spaces1_complete, bind_of_Some by done.
  rewrite strip_prefix_append, bind_of_Some.
  rewrite spaces1_complete, bind_of_Some by done.
  apply strip_prefix_append.
Qed.

Lemma find_close_eq s :
  find_close s
  = match strip_prefix TAG_CLOSE s with
    | Some _ => Some 0
    | None => match s with
              | String _ s' => S <$> find_close s'
              | EmptyString => None
              end
    end.
Proof. by destruct s. Qed.

Lemma find_close_sound s k :
  find_close s = Some k →
  ∃ inner post, s = inner +:+ TAG_CLOSE +:+ post ∧ String.length inner = k.
Proof.
  revert k. induction s as [|c s IH]; intros k; rewrite find_close_eq.
  - destruct (strip_prefix TAG_CLOSE "") as [post|] eqn:Hp; [|done].
    intros [= <-]. apply strip_prefix_Some in Hp. by exists "", post.
  - destruct (strip_prefix TAG_CLOSE (String c s)) as [post|] eqn:Hp.
    + intros [= <-]. apply strip_prefix_Some in Hp. by exists "", post.
    + destruct (find_close s) as [k'|]; [|done]. intros [= <-].
      destruct (IH k' eq_refl) as (inner & post & -> & <-).
      by exists (String c inner), post.
Qed.

Lemma find_close_complete inner post :
  is_Some (find_close (inner +:+ TAG_CLOSE +:+ post)).
Proof.
  induction inner as [|c inner [k IH]]; rewrite find_close_eq.
  - rewrite append_nil_l, strip_prefix_append. by eexists.
  - rewrite append_cons.
    destruct (strip_prefix TAG_CLOSE _); [by eexists|]. rewrite IH. by eexists.
Qed.

Lemma search_from_eq pos s :
  search_from pos s
  = match (rest ← match_open s;
           k ← find_close rest;
           let start2 := pos + (String.length s - String.length rest) in
           Some (start2, start2 + k)) with
    | Some m => Some m
    | None => match s with
              | String _ s' => search_from (S pos) s'
              | EmptyString => None
              end
    end.
Proof. by destruct s. Qed.

Lemma search_here_sound pos s m :
  (rest ← match_open s;
   k ← find_close rest;
   let start2 := pos + (String.length s - String.length rest) in
   Some (start2, start2 + k)) = Some m →
  ∃ tag inner post,
    is_open_tag tag ∧ s = tag +:+ inner +:+ TAG_CLOSE +:+ post ∧
    m = (pos + String.length tag, pos + String.length tag + String.length inner).
Proof.
  intros Hm.
  apply bind_Some in Hm as (rest & Ho & Hm).
  apply bind_Some in Hm as (k & Hc & Hm).
  injection Hm as <-.
  apply match_open_sound in Ho as (tag & Htag & ->).
  apply find_close_sound in Hc as (inner & post & -> & <-).
  exists tag, inner, post. split_and!; [done..|].
  rewrite length_append. repeat f_equal; lia.
Qed.

(** A match found by the search is an opening tag, the shortest content up
    to a closing tag, and the offsets of that content. *)
Lemma search_from_sound pos s a b :
  search_from pos s = Some (a, b) →
  ∃ pre tag inner post,
    is_open_tag tag ∧ s = pre +:+ tag +:+ inner +:+ TAG_CLOSE +:+ post ∧
    a = pos + String.length (pre +:+ tag) ∧ b = a + String.length inner.
Proof.
  revert pos. induction s as [|c s IH]; intros pos; rewrite search_from_eq.
  - destruct (_ ≫= _) as [m|] eqn:Hhere; [|done]. intros [= ->].
    apply search_here_sound in Hhere as (tag & inner & post & ? & ? & [= -> ->]).
    by exists "", tag, inner, post.
  - destruct (_ ≫= _) as [m|] eqn:Hhere.
    + intros [= ->].
      apply search_here_sound in Hhere as (tag & inner & post & ? & ? & [= -> ->]).
      by exists "", tag, inner, post.
    + intros Hs. apply IH in Hs as (pre & tag & inner & post & ? & -> & -> & ->).
      exists (String c pre), tag, inner, post. split_and!; [done..| |done].
      rewrite append_cons. simpl. lia.
Qed.

(** The search finds a match whenever the text has the marker. *)
Lemma search_from_complete pos s : has_marker s → is_Some (search_from pos s).
Proof.
  intros (pre & tag & inner & post & Htag & ->). revert pos.
  induction pre as [|c pre IH]; intros pos; rewrite search_from_eq.
  - rewrite append_nil_l, match_open_complete, bind_of_Some by done.
    destruct (find_close_complete inner post) as [k ->]. by eexists.
  - destruct (_ ≫= _); [by eexists|]. rewrite append_cons. apply IH.
Qed.

Lemma re_search_marker html : is_Some (re_search html) ↔ has_marker html.
Proof.
  unfold re_search. split; [|apply search_from_complete].
  intros [[a b] Hs]. apply search_from_sound in Hs as (pre & tag & inner & post & ? & ? & _).
  by exists pre, tag, inner, post.
Qed.

Lemma universal_newlines_no_cr s : has_char CR s = false → universal_newlines s = s.
Proof.
  induction s as [|c s IH]; [done|]. simpl. intros Hc.
  apply orb_false_iff in Hc as [Hc Hs]. apply bool_decide_eq_false in Hc.
  unfold CR in Hc. rewrite decide_False by done. by rewrite IH.
Qed.

(** ** Embedding *)

(** C6: when the document read from the file has no placeholder marker, the
    call exits with code 1 after printing the two diagnostic lines, and the
    file store, the target document included, is unchanged. *)
Theorem embed_without_marker_exits (json_str html_path : string) (w : World)
    (doc : string) :
  files w !! html_path = Some doc →
  ¬ has_marker (universal_newlines doc) →
  ∃ w', embed_in_html json_str html_path w = (Exited 1, w') ∧
        (1 ≠ 0)%Z ∧
        stdout w' = stdout w ++ [MSG_NO_TAG; MSG_HINT] ∧
        files w' = files w ∧
        files w' !! html_path = Some doc.
Proof.
  intros Hdoc Hno. unfold embed_in_html. rewrite Hdoc.
  destruct (re_search (universal_newlines doc)) as [m|] eqn:Hs.
  - destruct Hno. apply re_search_marker. by eexists.
  - eexists. split; [reflexivity|]. simpl.
    split_and!; [done| |done..]. by rewrite <- app_assoc.
Qed.

Lemma embed_without_marker_exits_witness :
  ∃ w', embed_in_html "{}" "index.html" (one_file "index.html" page_without_marker)
        = (Exited 1, w') ∧
        (1 ≠ 0)%Z ∧
        stdout w' = stdout (one_file "index.html" page_without_marker)
                    ++ [MSG_NO_TAG; MSG_HINT] ∧
        files w' = files (one_file "index.html" page_without_marker) ∧
        files w' !! "index.html" = Some page_without_marker.
Proof.
  apply (embed_without_marker_exits "{}" "index.html"
           (one_file "index.html" page_without_marker) page_without_marker).
  - by vm_compute.
  - intros Hm. apply re_search_marker in Hm. vm_compute in Hm. by destruct Hm.
Defined.

(** ** Doubles *)

Section DoubleFacts.
Local Open Scope Z_scope.

Lemma digits2_pos_size p : digits2_pos p = Pos.size p.
Proof. induction p; simpl; congruence. Qed.

Lemma digits_bounds (p : positive) :
  2 ^ (Zpos (digits2_pos p) - 1) ≤ Zpos p < 2 ^ Zpos (digits2_pos p).
Proof.
  rewrite digits2_pos_size. split.
  - pose proof (Pos.size_le p) as H.
    apply Pos2Z.pos_le_pos in H. rewrite Pos2Z.inj_pow in H.
    replace (Zpos (Pos.size p)) with (Zpos (Pos.size p) - 1 + 1) in H by lia.
    rewrite Z.pow_add_r, Z.pow_1_r in H by lia. lia.
  - pose proof (Pos.size_gt p) as H.
    apply Pos2Z.pos_lt_pos in H. by rewrite Pos2Z.inj_pow in H.
Qed.

Lemma pow2_pos e : 0 < 2 ^ e ∨ e < 0.
Proof. destruct (Z_lt_le_dec e 0); [by right | left; by apply Z.pow_pos_nonneg]. Qed.

Lemma pow2_lt_inv a b : 0 ≤ b → 2 ^ a < 2 ^ b → a < b.
Proof. intros Hb H. apply (Z.pow_lt_mono_r_iff 2); [lia | done | done]. Qed.

(** [shr_1] on a record with a non-negative mantissa. *)
Lemma shr_1_spec mrs :
  0 ≤ shr_m mrs →
  shr_m (shr_1 mrs) = shr_m mrs / 2 ∧
  (orb (shr_r (shr_1 mrs)) (shr_s (shr_1 mrs)) = false ↔
   orb (shr_r mrs) (shr_s mrs) = false ∧ shr_m mrs mod 2 = 0).
Proof.
  destruct mrs as [m r s]. simpl. intros Hm.
  destruct m as [|p|p]; [|destruct p as [p|p|]|lia]; simpl.
  - split; [done|]. destruct r, s; simpl; split; try done; by intros [? _].
  - split; [by apply Z.div_unique with 1; lia|].
    split; [done|]. intros [_ H].
    replace (Zpos p~1) with (1 + Zpos p * 2) in H by lia.
    rewrite Z.mod_add in H by lia. done.
  - split; [by apply Z.div_unique with 0; lia|].
    replace (Zpos p~0) with (0 + Zpos p * 2) by lia.
    rewrite Z.mod_add by lia.
    destruct r, s; simpl; split; try done; by intros [? _].
  - split; [done|]. split; [done|]. by intros [_ ?].
Qed.

Lemma iter_pos_invariant {A} (f : A → A) (P : Z → A → Prop) :
  (∀ k x, 0 ≤ k → P k x → P (k + 1) (f x)) →
  ∀ p k x, 0 ≤ k → P k x → P (k + Zpos p) (SpecFloat.iter_pos f p x).
Proof.
  intros Hstep. induction p as [p IH|p IH|]; intros k x Hk HP; simpl.
  - replace (k + Zpos p~1) with (k + 1 + Zpos p + Zpos p) by lia.
    apply IH; [lia|]. apply IH; [lia|]. by apply Hstep.
  - replace (k + Zpos p~0) with (k + Zpos p + Zpos p) by lia.
    apply IH; [lia|]. by apply IH.
  - by apply Hstep.
Qed.

(** [n] shifts to the right: the quotient, and whether anything was lost. *)
Lemma iter_shr_1 p m r s :
  0 ≤ m →
  let mrs := SpecFloat.iter_pos shr_1 p {| shr_m := m; shr_r := r; shr_s := s |} in
  shr_m mrs = m / 2 ^ Zpos p ∧
  (orb (shr_r mrs) (shr_s mrs) = false ↔ orb r s = false ∧ m mod 2 ^ Zpos p = 0).
Proof.
  intros Hm.
  apply (iter_pos_invariant shr_1
           (λ k x, shr_m x = m / 2 ^ k ∧
                   (orb (shr_r x) (shr_s x) = false ↔
                    orb r s = false ∧ m mod 2 ^ k = 0)) ) with (k := 0).
  - intros k x Hk [Hq Hi].
    assert (0 ≤ shr_m x) as Hx by (rewrite Hq; apply Z.div_pos; [lia|]; by apply Z.pow_pos_nonneg).
    destruct (shr_1_spec x Hx) as [Hq' Hi'].
    assert (0 < 2 ^ k) as Hpk by (by apply Z.pow_pos_nonneg).
    split.
    + rewrite Hq', Hq, Z.pow_add_r, Z.pow_1_r by lia.
      rewrite Z.div_div by lia. done.
    + rewrite Hi', Hi, Hq. rewrite Z.pow_add_r, Z.pow_1_r by lia.
      rewrite (Z.rem_mul_r m (2 ^ k) 2) by lia.
      pose proof (Z.mod_pos_bound m (2 ^ k) Hpk).
      pose proof (Z.mod_pos_bound (m / 2 ^ k) 2 ltac:(lia)).
      split.
      * intros [[? ?] ?]. split; [done|]. lia.
      * intros [? ?]. assert (m mod 2 ^ k = 0) by nia. split_and!; [done..|]. nia.
  - lia.
  - simpl. rewrite Z.div_1_r, Z.mod_1_r. tauto.
Qed.

Lemma fexp64 e : fexp 53 1024 e = Z.max (e - 53) (-1074).
Proof. reflexivity. Qed.

Lemma inx_loc_of mrs :
  inx (loc_of_shr_record mrs) = if orb (shr_r mrs) (shr_s mrs) then 1 else 0.
Proof. by destruct mrs as [m [] []]. Qed.

Lemma inx_range l : 0 ≤ inx l ≤ 1.
Proof. destruct l; simpl; lia. Qed.

(** The exponent a mantissa is rounded at is no larger than that of any
    double that bounds the value. *)
Lemma fexp_le_bound m e mB eB :
  0 ≤ m → mB < 2 ^ 53 → -1074 ≤ eB → e ≤ eB →
  m ≤ mB * 2 ^ (eB - e) →
  fexp 53 1024 (Zdigits2 m + e) ≤ eB.
Proof.
  intros Hm HmB HeB He Hle. rewrite fexp64.
  destruct m as [|q|q]; [simpl; lia| |lia].
  simpl. pose proof (digits_bounds q) as [Hd _].
  assert (0 < 2 ^ (eB - e)) by (apply Z.pow_pos_nonneg; lia).
  assert (2 ^ (Zpos (digits2_pos q) - 1) < 2 ^ (53 + (eB - e))) as Hlt.
  { rewrite Z.pow_add_r by lia. nia. }
  apply pow2_lt_inv in Hlt; lia.
Qed.

Lemma shr_m_of_loc m l : shr_m (shr_record_of_loc m l) = m.
Proof. by destruct l as [|[]]. Qed.

Lemma loc_of_record_of_loc m l : loc_of_shr_record (shr_record_of_loc m l) = l.
Proof. by destruct l as [|[]]. Qed.

(** One alignment step of the rounding: the mantissa is cut at the
    exponent of the format; bounds by a double carry over. *)
Lemma shr_fexp_bounds m e l mB eB :
  0 ≤ m → mB < 2 ^ 53 → -1074 ≤ eB → e ≤ eB →
  m + inx l ≤ mB * 2 ^ (eB - e) →
  let r := shr_fexp 53 1024 m e l in
  e ≤ r.2 ≤ eB ∧ 0 ≤ shr_m r.1 ∧
  shr_m r.1 + inx (loc_of_shr_record r.1) ≤ mB * 2 ^ (eB - r.2) ∧
  (mB * 2 ^ (eB - e) ≤ m → mB * 2 ^ (eB - r.2) ≤ shr_m r.1).
Proof.
  intros Hm HmB HeB He Hle.
  pose proof (inx_range l) as Hl.
  pose proof (fexp_le_bound m e mB eB Hm HmB HeB He ltac:(lia)) as Hfexp.
  unfold shr_fexp, shr.
  destruct (fexp 53 1024 (Zdigits2 m + e) - e) as [|p|p] eqn:Hn; simpl.
  - rewrite shr_m_of_loc, loc_of_record_of_loc. split_and!; [lia..|done].
  - assert (0 < 2 ^ Zpos p) as Hpp by (by apply Z.pow_pos_nonneg).
    assert (mB * 2 ^ (eB - e) = mB * 2 ^ (eB - (e + Zpos p)) * 2 ^ Zpos p) as HK.
    { rewrite <- Z.mul_assoc, <- Z.pow_add_r by lia. do 2 f_equal. lia. }
    set (K := mB * 2 ^ (eB - (e + Zpos p))) in *.
    assert (∀ r s, shr_record_of_loc m l = {| shr_m := m; shr_r := r; shr_s := s |} →
                   (orb r s = false ↔ inx l = 0)) as Hrec.
    { intros r s. destruct l as [|[]]; simpl; intros [= <- <-]; simpl; split; done. }
    destruct (shr_record_of_loc m l) as [m' r s] eqn:Hrc.
    assert (m' = m) as -> by (by destruct l as [|[]]; injection Hrc).
    specialize (Hrec r s eq_refl).
    destruct (iter_shr_1 p m r s Hm) as [Hq Hi].
    rewrite inx_loc_of. rewrite Hq.
    pose proof (Z.div_mod m (2 ^ Zpos p) ltac:(lia)) as Hdm.
    pose proof (Z.mod_pos_bound m (2 ^ Zpos p) Hpp) as Hmod.
    assert (0 ≤ m / 2 ^ Zpos p) by (apply Z.div_pos; lia).
    split_and!; [lia..| |].
    + destruct (orb (shr_r _) (shr_s _)) eqn:Hor.
      * assert (¬ (orb r s = false ∧ m mod 2 ^ Zpos p = 0)) as Hne
          by (rewrite <- Hi; congruence).
        assert (inx l = 1 ∨ 0 < m mod 2 ^ Zpos p) as Hcase.
        { destruct (decide (inx l = 0)) as [H0|H0]; [|lia].
          right. apply Hrec in H0.
          destruct (decide (m mod 2 ^ Zpos p = 0)); [by destruct Hne | lia]. }
        nia.
      * nia.
    + intros Hlow. nia.
  - rewrite shr_m_of_loc, loc_of_record_of_loc. split_and!; [lia..|done].
Qed.

Lemma round_nearest_even_bounds m l :
  m ≤ round_nearest_even m l ≤ m + inx l.
Proof.
  destruct l as [|[]]; simpl; try lia. destruct (Z.even m); lia.
Qed.

(** Rounding never passes a double: what is at most a double (of the
    format, finite) is rounded to at most that double, and what is that
    double is left as it is. *)
Lemma binary_round_aux_bounds m e l mB eB :
  0 ≤ m → mB < 2 ^ 53 → -1074 ≤ eB ≤ 971 → e ≤ eB →
  m + inx l ≤ mB * 2 ^ (eB - e) →
  bounded_by mB eB (binary_round_aux 53 1024 false m e l) ∧
  (mB * 2 ^ (eB - e) ≤ m → 0 < mB →
   ∃ m' e', binary_round_aux 53 1024 false m e l = S754_finite false m' e' ∧
            e ≤ e' ≤ eB ∧ Zpos m' = mB * 2 ^ (eB - e')).
Proof.
  intros Hm HmB HeB He Hle. unfold binary_round_aux.
  destruct (shr_fexp_bounds m e l mB eB Hm HmB ltac:(lia) He Hle)
    as (He1 & Hm1 & Hup1 & Hlow1).
  destruct (shr_fexp 53 1024 m e l) as [mrs1 e1]. simpl in *.
  pose proof (round_nearest_even_bounds (shr_m mrs1) (loc_of_shr_record mrs1)) as Hr.
  set (m2 := round_nearest_even (shr_m mrs1) (loc_of_shr_record mrs1)) in *.
  destruct (shr_fexp_bounds m2 e1 loc_Exact mB eB ltac:(lia) HmB ltac:(lia) ltac:(lia)
              ltac:(simpl; lia)) as (He2 & Hm2 & Hup2 & Hlow2).
  destruct (shr_fexp 53 1024 m2 e1 loc_Exact) as [mrs2 e2]. simpl in *.
  pose proof (inx_range (loc_of_shr_record mrs2)).
  destruct (shr_m mrs2) as [|m3|m3] eqn:Hm3; [| |lia].
  - split; [done|]. intros Hlow HmBpos.
    assert (0 < 2 ^ (eB - e2)) by (apply Z.pow_pos_nonneg; lia).
    specialize (Hlow1 Hlow). specialize (Hlow2 ltac:(lia)). nia.
  - assert ((e2 <=? 1024 - 53) = true) as -> by (apply Z.leb_le; lia).
    split; [simpl; split; lia|].
    intros Hlow HmBpos. exists m3, e2. split; [done|]. split; [lia|].
    specialize (Hlow1 Hlow). specialize (Hlow2 ltac:(lia)). lia.
Qed.

Lemma pos_iter_xO m d : Zpos (Pos.iter xO m d) = Zpos m * 2 ^ Zpos d.
Proof.
  induction d as [|d IH] using Pos.peano_ind.
  - simpl. lia.
  - rewrite Pos.iter_succ, Pos2Z.inj_succ, Z.pow_succ_r by lia.
    replace (Zpos (Pos.iter xO m d)~0) with (2 * Zpos (Pos.iter xO m d)) by lia.
    rewrite IH. lia.
Qed.

Lemma shl_align_spec mx ex ex' :
  (shl_align mx ex ex').2 ≤ ex ∧
  Zpos (shl_align mx ex ex').1 = Zpos mx * 2 ^ (ex - (shl_align mx ex ex').2).
Proof.
  unfold shl_align. destruct (ex' - ex) as [|d|d] eqn:Hd; simpl.
  - rewrite Z.sub_diag. simpl. lia.
  - rewrite Z.sub_diag. simpl. lia.
  - split; [lia|]. rewrite pos_iter_xO. do 2 f_equal. lia.
Qed.

(** Rounding a mantissa at an exponent, after alignment. *)
Lemma binary_round_bounds m e mB eB :
  mB < 2 ^ 53 → -1074 ≤ eB ≤ 971 → e ≤ eB →
  Zpos m ≤ mB * 2 ^ (eB - e) →
  bounded_by mB eB (binary_round 53 1024 false m e) ∧
  (mB * 2 ^ (eB - e) ≤ Zpos m →
   ∃ m' e', binary_round 53 1024 false m e = S754_finite false m' e' ∧
            e' ≤ eB ∧ Zpos m' = mB * 2 ^ (eB - e')).
Proof.
  intros HmB HeB He Hle. unfold binary_round.
  pose proof (shl_align_spec m e (fexp 53 1024 (Zpos (digits2_pos m) + e))) as [He' Hm'].
  destruct (shl_align m e _) as [mz ez]. simpl in *.
  assert (0 < 2 ^ (e - ez)) by (apply Z.pow_pos_nonneg; lia).
  assert (mB * 2 ^ (eB - ez) = mB * 2 ^ (eB - e) * 2 ^ (e - ez)) as HK.
  { rewrite <- Z.mul_assoc, <- Z.pow_add_r by lia. do 2 f_equal. lia. }
  destruct (binary_round_aux_bounds (Zpos mz) ez loc_Exact mB eB) as [Hup Hex];
    [lia | done | done | lia | simpl; nia |].
  split; [done|]. intros Hlow.
  destruct Hex as (m' & e' & -> & ? & ?); [nia | nia |].
  exists m', e'. split; [done|]. split; [lia | done].
Qed.

(** Counts below 2^53 are doubles. *)
Lemma float_of_Z_exact n :
  0 < n < 2 ^ 53 →
  ∃ m e, float_of_Z n = S754_finite false m e ∧ e ≤ 0 ∧ Zpos m = n * 2 ^ (- e).
Proof.
  intros Hn. unfold float_of_Z, binary_normalize.
  destruct n as [|p|p]; [lia| |lia].
  destruct (binary_round_bounds p 0 (Zpos p) 0) as [_ Hex];
    [lia | lia | lia | simpl; lia |].
  destruct Hex as (m & e & -> & ? & Hm); [simpl; lia|].
  exists m, e. split; [done|]. split; [done|]. rewrite Hm. do 2 f_equal.
Qed.

Lemma bounded_by_mono mB mB' eB x :
  mB ≤ mB' → bounded_by mB eB x → bounded_by mB' eB x.
Proof.
  intros Hle. destruct x as [| | |[] m e]; simpl; try done.
  intros [? ?]. split; [done|].
  assert (0 < 2 ^ (eB - e)) by (apply Z.pow_pos_nonneg; lia). nia.
Qed.

(** The sum of two bounded doubles is bounded by the sum of the bounds. *)
Lemma float_add_bounds x y mBx mBy eB :
  mBx + mBy < 2 ^ 53 → -1074 ≤ eB ≤ 971 → 0 ≤ mBx → 0 ≤ mBy →
  bounded_by mBx eB x → bounded_by mBy eB y →
  bounded_by (mBx + mBy) eB (float_add x y).
Proof.
  intros HmB HeB Hx0 Hy0 Hx Hy. unfold float_add.
  destruct x as [sx| | |[] mx ex]; try done; destruct y as [sy| | |[] my ey]; try done.
  - by destruct sx, sy.
  - apply (bounded_by_mono mBy _ _ (S754_finite false my ey)); [lia | done].
  - apply (bounded_by_mono mBx _ _ (S754_finite false mx ex)); [lia | done].
  - destruct Hx as [Hex Hmx], Hy as [Hey Hmy]. unfold SFadd.
    pose proof (shl_align_spec mx ex (Z.min ex ey)) as [Hx1 Hx2].
    pose proof (shl_align_spec my ey (Z.min ex ey)) as [Hy1 Hy2].
    assert ((shl_align mx ex (Z.min ex ey)).2 = Z.min ex ey) as Hxe.
    { unfold shl_align. destruct (Z.min ex ey - ex) eqn:?; simpl; lia. }
    assert ((shl_align my ey (Z.min ex ey)).2 = Z.min ex ey) as Hye.
    { unfold shl_align. destruct (Z.min ex ey - ey) eqn:?; simpl; lia. }
    rewrite Hxe in Hx2. rewrite Hye in Hy2.
    set (ez := Z.min ex ey) in *. simpl cond_Zopp.
    destruct (Zpos (shl_align mx ex ez).1 + Zpos (shl_align my ey ez).1) as [|p|p] eqn:Hsum;
      [lia| |lia].
    simpl. apply binary_round_bounds; [done | done | lia |].
    rewrite <- Hsum, Hx2, Hy2.
    assert (0 < 2 ^ (ex - ez)) by (apply Z.pow_pos_nonneg; lia).
    assert (0 < 2 ^ (ey - ez)) by (apply Z.pow_pos_nonneg; lia).
    assert (2 ^ (eB - ez) = 2 ^ (eB - ex) * 2 ^ (ex - ez)) as Ha.
    { rewrite <- Z.pow_add_r by lia. f_equal. lia. }
    assert (2 ^ (eB - ez) = 2 ^ (eB - ey) * 2 ^ (ey - ez)) as Hb.
    { rewrite <- Z.pow_add_r by lia. f_equal. lia. }
    rewrite Z.mul_add_distr_r. rewrite Ha at 1. rewrite Hb. nia.
Qed.

Lemma inx_new_location nb k : inx (new_location nb k) = if k =? 0 then 0 else 1.
Proof.
  unfold new_location, new_location_even, new_location_odd.
  destruct (Z.even nb), (k =? 0); done.
Qed.

(** The quotient the division rounds: the aligned dividend divided by the
    divisor, with what is left over. *)
Lemma SFdiv_core_binary_spec mx ex my ey :
  let e' := Z.min (fexp 53 1024 (Zpos (digits2_pos mx) + ex - (Zpos (digits2_pos my) + ey)))
                  (ex - ey) in
  ∃ q r, SFdiv_core_binary 53 1024 (Zpos mx) ex (Zpos my) ey
         = (q, e', new_location (Zpos my) r) ∧
         Zpos mx * 2 ^ (ex - ey - e') = Zpos my * q + r ∧ 0 ≤ r < Zpos my ∧ 0 ≤ q.
Proof.
  intros e'.
  assert (0 ≤ ex - ey - e') as Hs by (unfold e'; lia).
  set (m' := match ex - ey - e' with
             | 0 => Zpos mx
             | Zpos _ => Z.shiftl (Zpos mx) (ex - ey - e')
             | Zneg _ => 0
             end).
  assert (m' = Zpos mx * 2 ^ (ex - ey - e')) as Hm'.
  { unfold m'. destruct (ex - ey - e') as [|p|p] eqn:E; [simpl; lia| |lia].
    by rewrite Z.shiftl_mul_pow2. }
  change (SFdiv_core_binary 53 1024 (Zpos mx) ex (Zpos my) ey)
    with (let '(q, r) := Z.div_eucl m' (Zpos my) in (q, e', new_location (Zpos my) r)).
  pose proof (Z_div_mod m' (Zpos my) ltac:(lia)) as Hdiv.
  destruct (Z.div_eucl m' (Zpos my)) as [q r]. destruct Hdiv as [Heq Hr].
  exists q, r. split; [done|]. split; [lia|]. split; [done|].
  assert (0 < 2 ^ (ex - ey - e')) by (by apply Z.pow_pos_nonneg). nia.
Qed.

(** A quotient that is at most a double is rounded to at most that
    double. *)
Lemma float_div_bounds mx ex my ey mB eB lo :
  0 < mB < 2 ^ 53 → -1074 ≤ eB ≤ 971 → lo ≤ ex → lo ≤ eB + ey →
  Zpos mx * 2 ^ (ex - lo) ≤ mB * Zpos my * 2 ^ (eB + ey - lo) →
  bounded_by mB eB (float_div (S754_finite false mx ex) (S754_finite false my ey)).
Proof.
  intros HmB HeB Hlo1 Hlo2 H. unfold float_div, SFdiv.
  destruct (SFdiv_core_binary_spec mx ex my ey) as (q & r & -> & Hqr & Hr & Hq).
  set (e' := Z.min _ _) in *. simpl xorb.
  pose proof (digits_bounds mx) as [Hd1 _]. pose proof (digits_bounds my) as [_ Hd2].
  set (d1 := Zpos (digits2_pos mx)) in *. set (d2 := Zpos (digits2_pos my)) in *.
  assert (0 < d1 ∧ 0 < d2) as [? ?] by (unfold d1, d2; lia).
  assert (0 < 2 ^ (ex - lo)) by (apply Z.pow_pos_nonneg; lia).
  assert (0 < 2 ^ (eB + ey - lo)) by (apply Z.pow_pos_nonneg; lia).
  assert (d1 + ex - (d2 + ey) ≤ 53 + eB) as HD.
  { assert (2 ^ (d1 - 1 + (ex - lo)) < 2 ^ (53 + d2 + (eB + ey - lo))) as Hlt.
    { rewrite !Z.pow_add_r by lia.
      assert (0 < 2 ^ d2) by (apply Z.pow_pos_nonneg; lia).
      assert (0 < 2 ^ (d1 - 1)) by (apply Z.pow_pos_nonneg; lia).
      assert (2 ^ (d1 - 1) * 2 ^ (ex - lo) ≤ Zpos mx * 2 ^ (ex - lo)) by nia.
      assert (mB * Zpos my * 2 ^ (eB + ey - lo) < 2 ^ 53 * 2 ^ d2 * 2 ^ (eB + ey - lo));
        [|lia].
      apply Z.mul_lt_mono_pos_r; [done|]. nia. }
    apply pow2_lt_inv in Hlt; lia. }
  assert (e' ≤ eB) as He'.
  { unfold e'. rewrite fexp64. lia. }
  assert (0 ≤ ex - ey - e') as Hs by (unfold e'; lia).
  assert (0 < 2 ^ (eB - e')) by (apply Z.pow_pos_nonneg; lia).
  assert (Zpos mx * 2 ^ (ex - ey - e') ≤ mB * 2 ^ (eB - e') * Zpos my) as Hm'.
  { apply (Z.mul_le_mono_pos_r _ _ (2 ^ (eB + ey - lo))); [done|].
    rewrite <- !Z.mul_assoc, <- !Z.pow_add_r by lia.
    replace (ex - ey - e' + (eB + ey - lo)) with ((ex - lo) + (eB - e')) by lia.
    replace (mB * (2 ^ (eB - e') * (Zpos my * 2 ^ (eB + ey - lo))))
      with (mB * Zpos my * 2 ^ (eB + ey - lo) * 2 ^ (eB - e')) by lia.
    rewrite Z.pow_add_r by lia. nia. }
  apply binary_round_aux_bounds; [done | lia | done | done |].
  rewrite inx_new_location. destruct (Z.eqb_spec r 0); nia.
Qed.

Lemma summation_bounds mB eB xs s :
  0 ≤ mB → -1074 ≤ eB ≤ 971 →
  summation xs s → Forall (bounded_by mB eB) xs →
  mB * Z.of_nat (length xs) < 2 ^ 53 →
  bounded_by (mB * Z.of_nat (length xs)) eB s.
Proof.
  intros HmB HeB Hsum. induction Hsum as [|x|xs ys a b _ IHa _ IHb|xs ys a Hperm _ IH];
    intros Hall Hlen.
  - done.
  - apply Forall_inv in Hall. apply (bounded_by_mono mB); [simpl; lia | done].
  - apply Forall_app in Hall as [Hxs Hys]. rewrite length_app, Nat2Z.inj_add in *.
    rewrite Z.mul_add_distr_l in *.
    apply float_add_bounds; [done | done | lia | lia | apply IHa | apply IHb];
      try done; lia.
  - rewrite <- Hperm in *. by apply IH.
Qed.

(** The mean of doubles that are all at most a double is at most that
    double, whatever the order of the additions. *)
Lemma mean_bounds mB eB xs s :
  0 < mB → -1074 ≤ eB ≤ 971 → xs ≠ [] →
  summation xs s → Forall (bounded_by mB eB) xs →
  mB * Z.of_nat (length xs) < 2 ^ 53 →
  bounded_by mB eB (float_div s (float_of_Z (Z.of_nat (length xs)))).
Proof.
  intros HmB HeB Hne Hsum Hall Hlen.
  pose proof (summation_bounds mB eB xs s ltac:(lia) HeB Hsum Hall Hlen) as Hs.
  assert (0 < Z.of_nat (length xs)) as Hn by (destruct xs; [done | simpl; lia]).
  set (n := Z.of_nat (length xs)) in *.
  destruct (float_of_Z_exact n) as (my & ey & -> & Hey & Hmy); [nia|].
  destruct s as [sx| | |[] mx ex]; try done.
  destruct Hs as [Hex Hmx].
  apply (float_div_bounds mx ex my ey mB eB (Z.min ex (eB + ey))); [lia | done | lia | lia |].
  set (lo := Z.min ex (eB + ey)).
  assert (0 < 2 ^ (ex - lo)) by (apply Z.pow_pos_nonneg; lia).
  assert (0 < 2 ^ (eB - ex)) by (apply Z.pow_pos_nonneg; lia).
  assert (Zpos mx * 2 ^ (ex - lo) ≤ mB * n * 2 ^ (eB - ex) * 2 ^ (ex - lo)) as H1 by nia.
  etrans; [exact H1|]. rewrite Hmy.
  rewrite <- !Z.mul_assoc, <- !Z.pow_add_r by lia.
  replace (eB - ex + (ex - lo)) with (eB - lo) by lia.
  replace (- ey + (eB + ey - lo)) with (eB - lo) by lia. lia.
Qed.

Lemma round_half_even_div_bounds a b :
  0 < b → a / b ≤ round_half_even_div a b ≤ a / b + 1 ∧
          (a mod b = 0 → round_half_even_div a b = a / b).
Proof.
  intros Hb. unfold round_half_even_div.
  destruct (Z.compare_spec (2 * (a mod b)) b); [destruct (Z.even _)|..];
    split; try lia; intros; lia.
Qed.

Lemma tenths_bound m e :
  e ≤ 2 → Zpos m ≤ 25 * 2 ^ (2 - e) → 0 ≤ tenths m e ≤ 1000.
Proof.
  intros He Hm. unfold tenths. destruct (Z.leb_spec 0 e).
  - assert (0 < 2 ^ e) by (by apply Z.pow_pos_nonneg).
    assert (2 ^ (2 - e) * 2 ^ e = 4) as H4.
    { rewrite <- Z.pow_add_r by lia. by replace (2 - e + e) with 2 by lia. }
    nia.
  - assert (0 < 2 ^ (- e)) as Hb by (apply Z.pow_pos_nonneg; lia).
    assert (2 ^ (2 - e) = 4 * 2 ^ (- e)) as H4.
    { replace (2 - e) with (2 + - e) by lia. by rewrite Z.pow_add_r by lia. }
    destruct (round_half_even_div_bounds (10 * Zpos m) (2 ^ (- e)) Hb) as [[Hlo Hhi] Hex].
    pose proof (Z.div_mod (10 * Zpos m) (2 ^ (- e)) ltac:(lia)) as Hdm.
    pose proof (Z.mod_pos_bound (10 * Zpos m) (2 ^ (- e)) Hb) as Hmod.
    assert (0 ≤ 10 * Zpos m / 2 ^ (- e)) by (apply Z.div_pos; lia).
    split; [lia|].
    destruct (decide ((10 * Zpos m) mod 2 ^ (- e) = 0)) as [Hz|Hz].
    + rewrite (Hex Hz). nia.
    + assert (10 * Zpos m / 2 ^ (- e) < 1000); [|lia]. nia.
Qed.

Lemma round1_bounds x : bounded_by 25 2 x → bounded_by 25 2 (round1 x).
Proof.
  destruct x as [| | |[] m e]; try done. intros [He Hm]. unfold round1, tenth_double.
  pose proof (tenths_bound m e He Hm) as Hk.
  destruct (tenths m e) as [|k|k]; [done| |done].
  apply (float_div_bounds k 0 10 0 25 2 0); simpl; lia.
Qed.

Lemma bounded_by_in_range x : bounded_by 25 2 x → in_percent_range x.
Proof.
  destruct x as [| | |[] m e]; try done. intros [He Hm].
  split; [done|]. unfold SF2Q, cond_Zopp. destruct (Z.leb_spec 0 e).
  - assert (0 < 2 ^ e) by (by apply Z.pow_pos_nonneg).
    assert (2 ^ (2 - e) * 2 ^ e = 4) as H4.
    { rewrite <- Z.pow_add_r by lia. by replace (2 - e + e) with 2 by lia. }
    unfold Qle. simpl. split; nia.
  - assert (0 < 2 ^ (- e)) as Hb by (apply Z.pow_pos_nonneg; lia).
    assert (2 ^ (2 - e) = 4 * 2 ^ (- e)) as H4.
    { replace (2 - e) with (2 + - e) by lia. by rewrite Z.pow_add_r by lia. }
    unfold Qle. simpl. rewrite Z2Pos.id by done. split; lia.
Qed.

Lemma valid_digits m e :
  valid_binary 53 1024 (S754_finite false m e) = true →
  Z.max (Zpos (digits2_pos m) + e - 53) (-1074) = e.
Proof.
  unfold valid_binary, bounded, canonical_mantissa.
  intros [H _]%andb_true_iff. apply Z.eqb_eq in H. by rewrite fexp64 in H.
Qed.

Lemma in_range_bounded_by x :
  valid_binary 53 1024 x = true → in_percent_range x → bounded_by 25 2 x.
Proof.
  destruct x as [| | |s m e]; try done; [by intros _ [? _]..|].
  intros Hv (_ & H0 & H100). unfold SF2Q, cond_Zopp in *.
  destruct s.
  { exfalso. destruct (Z.leb_spec 0 e).
    - assert (0 < 2 ^ e) by (by apply Z.pow_pos_nonneg).
      unfold Qle in H0. simpl in H0. nia.
    - unfold Qle in H0. simpl in H0. lia. }
  apply valid_digits in Hv. pose proof (digits_bounds m) as [Hd _].
  destruct (Z.leb_spec 0 e).
  - exfalso. assert (Zpos (digits2_pos m) = 53) as Hd53 by lia.
    rewrite Hd53 in Hd. simpl in Hd.
    assert (1 ≤ 2 ^ e) by (apply (Z.pow_le_mono_r 2 0 e); lia).
    unfold Qle in H100. simpl in H100. nia.
  - assert (0 < 2 ^ (- e)) as Hb by (apply Z.pow_pos_nonneg; lia).
    unfold Qle in H100. simpl in H100. rewrite Z2Pos.id in H100 by done.
    split; [lia|].
    replace (2 - e) with (2 + - e) by lia. rewrite Z.pow_add_r by lia. lia.
Qed.

(** [tenths] is nearest: it is within a half of ten times the value. *)
Lemma tenths_nearest s m e :
  (Qabs (10 * Qabs (SF2Q (S754_finite s m e)) - inject_Z (tenths m e)) <= 1 # 2)%Q.
Proof.
  apply Qabs_Qle_condition. unfold SF2Q, tenths.
  assert (Z.abs (cond_Zopp s (Zpos m)) = Zpos m) as Habs by (by destruct s).
  destruct (Z.leb_spec 0 e).
  - assert (0 < 2 ^ e) by (by apply Z.pow_pos_nonneg).
    unfold Qabs, inject_Z, Qminus, Qplus, Qmult, Qopp, Qle. simpl Qnum. simpl Qden.
    rewrite Z.abs_mul, Habs, (Z.abs_eq (2 ^ e)) by lia. simpl. lia.
  - assert (0 < 2 ^ (- e)) as Hb by (apply Z.pow_pos_nonneg; lia).
    unfold Qabs, inject_Z, Qminus, Qplus, Qmult, Qopp, Qle. simpl Qnum. simpl Qden.
    rewrite Habs.
    rewrite !Pos2Z.inj_mul, Z2Pos.id by done.
    set (b := 2 ^ (- e)) in *.
    pose proof (Z.div_mod (10 * Zpos m) b ltac:(lia)) as Hdm.
    pose proof (Z.mod_pos_bound (10 * Zpos m) b Hb) as Hmod.
    unfold round_half_even_div.
    destruct (Z.compare_spec (2 * ((10 * Zpos m) mod b)) b); [destruct (Z.even _)|..];
      split; nia.
Qed.

Lemma round1_rounded x : rounded_to_tenths x (round1 x).
Proof.
  destruct x as [| | |s m e]; try done. simpl.
  exists (tenths m e). split; [apply tenths_nearest | done].
Qed.

Lemma sequential_sum_order xs : summation xs (sequential_sum xs).
Proof.
  unfold sequential_sum. induction xs as [|x xs IH] using rev_ind.
  - constructor.
  - rewrite foldl_app. simpl. apply summation_app; [done | constructor].
Qed.
End DoubleFacts.

(** ** The allocation means *)

Lemma filter_answered_idemp (subset : list Row) :
  filter answered (filter answered subset) = filter answered subset.
Proof. rewrite list_filter_filter. apply list_filter_iff. tauto. Qed.

Lemma coerce_numeric_binary64 to_double fsum c :
  coerce_numeric (H:=binary64 to_double fsum) c = number_or_zero to_double c.
Proof.
  destruct c as [s|]; [|done]. simpl. by destruct (to_double s) as [[]|].
Qed.

(** X1: the two denominators of the allocation block agree.  In every
    cell n_q78, the number of rows [mean_q78] keeps, equals n_q77, which
    [aggregate_cell] takes as the count of the values that are not NaN
    less the count of the empty texts; and both are at most n. *)
Theorem allocation_denominator_is_n_q77 `{Float64} (subset : list Row) (c : Cell.t) :
  aggregate_cell subset = Some c →
  Cell.n_q78 c = Cell.n_q77 c ∧ Cell.n_q77 c ≤ Cell.n c.
Proof.
  unfold aggregate_cell. case_decide as Hn; [done|]. intros [= <-].
  cbn [Cell.n Cell.n_q77 Cell.n_q78]. split.
  - destruct (answered_q77_spec (map Q7_7 subset)) as [-> _].
    assert ((mean_q78 subset).2 = length (filter answered subset)) as ->.
    { unfold mean_q78. case_decide as Hlen; [by rewrite Hlen | done]. }
    clear Hn. induction subset as [|r subset IH]; [done|]. simpl.
    rewrite !filter_cons. unfold answered at 1.
    destruct (decide (Q7_7 r ≠ None ∧ Q7_7 r ≠ Some "")); simpl; by rewrite IH.
  - etrans; [apply answered_q77_le|]. by rewrite length_map.
Qed.

Lemma allocation_denominator_is_n_q77_witness :
  ∃ c, aggregate_cell (H:=binary64 parse_float sequential_sum) allocation_rows = Some c ∧
       Cell.n_q78 c = Cell.n_q77 c ∧ Cell.n_q77 c ≤ Cell.n c.
Proof.
  destruct (aggregate_cell_nonempty (H:=binary64 parse_float sequential_sum)
              allocation_rows) as [c Hc]; [done|].
  exists c. split; [done|].
  by apply (allocation_denominator_is_n_q77 (H:=binary64 parse_float sequential_sum)
              allocation_rows c).
Defined.

Section AllocationMeans.
Variable to_double : string → option spec_float.
Variable fsum : list spec_float → spec_float.
Hypothesis fsum_order : ∀ xs, summation xs (fsum xs).

(** C5: the allocation means in doubles, the sum of a column being taken
    in any order.  Only the rows that answered Q7.7 count, and their
    number is the denominator; without such a row the result is five 0.0
    and 0; otherwise each mean is the mean of the column's numbers, a
    missing or unreadable field being zero, rounded to one decimal place;
    and the mean of a column of percentages, over fewer than 2^53 / 25
    rows, lies between 0 and 100. *)
Theorem mean_q78_in_binary64 (subset : list Row) :
  mean_q78 (H:=binary64 to_double fsum) subset
  = mean_q78 (H:=binary64 to_double fsum) (filter answered subset) ∧
  (mean_q78 (H:=binary64 to_double fsum) subset).2 = length (filter answered subset) ∧
  (filter answered subset = [] →
   mean_q78 (H:=binary64 to_double fsum) subset = (replicate 5 (S754_zero false), 0)) ∧
  (filter answered subset ≠ [] →
   Forall2 (λ col (r : spec_float),
              r = round1 (float_mean fsum (q78_values to_double col subset)) ∧
              rounded_to_tenths (float_mean fsum (q78_values to_double col subset)) r ∧
              ((25 * Z.of_nat (length (filter answered subset)) < 2 ^ 53)%Z →
               Forall percentage (q78_values to_double col subset) →
               in_percent_range r))
           Q78_COLS (mean_q78 (H:=binary64 to_double fsum) subset).1).
Proof.
  split_and!.
  - unfold mean_q78. by rewrite filter_answered_idemp.
  - unfold mean_q78. case_decide as Hlen; [by rewrite Hlen | done].
  - intros Hnil. unfold mean_q78. by rewrite Hnil.
  - intros Hne. unfold mean_q78. rewrite decide_False; cycle 1.
    { by intros ?%nil_length_inv. }
    cbn [fst]. apply Forall2_fmap_r, Forall_Forall2_diag, Forall_forall.
    intros col _. unfold compose. cbn [f_round1 f_mean binary64].
    assert (map (λ r, coerce_numeric (H:=binary64 to_double fsum) (col r))
                (filter answered subset) = q78_values to_double col subset) as ->.
    { unfold q78_values. apply map_ext. intros r. apply coerce_numeric_binary64. }
    split; [done|]. split; [apply round1_rounded|].
    intros Hsize Hall. apply bounded_by_in_range, round1_bounds.
    assert (length (q78_values to_double col subset) = length (filter answered subset))
      as Hlen by (unfold q78_values; apply length_map).
    apply mean_bounds; [lia | lia | | apply fsum_order | | by rewrite Hlen].
    + unfold q78_values. by destruct (filter answered subset).
    + eapply Forall_impl; [exact Hall|]. intros x [Hv Hr]. by apply in_range_bounded_by.
Qed.
End AllocationMeans.

Lemma mean_q78_in_binary64_witness :
  filter answered allocation_rows ≠ [] ∧
  (25 * Z.of_nat (length (filter answered allocation_rows)) < 2 ^ 53)%Z ∧
  Forall (λ col, Forall percentage (q78_values parse_float col allocation_rows)) Q78_COLS ∧
  mean_q78 (H:=binary64 parse_float sequential_sum) allocation_rows
  = mean_q78 (H:=binary64 parse_float sequential_sum) (filter answered allocation_rows) ∧
  (mean_q78 (H:=binary64 parse_float sequential_sum) allocation_rows).2
  = length (filter answered allocation_rows) ∧
  (filter answered allocation_rows = [] →
   mean_q78 (H:=binary64 parse_float sequential_sum) allocation_rows
   = (replicate 5 (S754_zero false), 0)) ∧
  (filter answered allocation_rows ≠ [] →
   Forall2 (λ col (r : spec_float),
              r = round1 (float_mean sequential_sum
                            (q78_values parse_float col allocation_rows)) ∧
              rounded_to_tenths (float_mean sequential_sum
                                   (q78_values parse_float col allocation_rows)) r ∧
              ((25 * Z.of_nat (length (filter answered allocation_rows)) < 2 ^ 53)%Z →
               Forall percentage (q78_values parse_float col allocation_rows) →
               in_percent_range r))
           Q78_COLS
           (mean_q78 (H:=binary64 parse_float sequential_sum) allocation_rows).1).
Proof.
  split; [by vm_compute|]. split; [by vm_compute|].
  split; [apply (bool_decide_unpack _); by vm_compute|].
  apply (mean_q78_in_binary64 parse_float sequential_sum sequential_sum_order
           allocation_rows).
Defined.

(** The model at work: the means of the example, 33.3, 33.3, 4.3, 6.7 and
    44.2 as doubles, over the three rows that answered. *)
Lemma allocation_means_example :
  (mean_q78 (H:=binary64 parse_float sequential_sum) allocation_rows
   : list spec_float * nat)
  = (map (tenth_double false) [333; 333; 43; 67; 442]%Z, 3).
Proof. by vm_compute. Qed.

(** ** Keys are unambiguous *)

Lemma key_tails_suffix_free :
  Forall (λ a, Forall (λ e, Forall (λ a', Forall (λ e',
    length (tail_chars a e) ≤ length (tail_chars a' e') →
    drop (length (tail_chars a' e') - length (tail_chars a e)) (tail_chars a' e')
    = tail_chars a e →
    a = a' ∧ e = e')
    EDU_LABELS) AGE_LABELS) EDU_LABELS) AGE_LABELS.
Proof. apply (bool_decide_unpack _). by vm_compute. Qed.

Lemma cell_key_labels_inj p p' a a' e e' :
  a ∈ AGE_LABELS → e ∈ EDU_LABELS → a' ∈ AGE_LABELS → e' ∈ EDU_LABELS →
  cell_key p a e = cell_key p' a' e' → p = p' ∧ a = a' ∧ e = e'.
Proof.
  intros Ha He Ha' He' E.
  pose proof key_tails_suffix_free as T.
  assert (a = a' ∧ e = e') as [-> ->].
  { rewrite !cell_key_tail in E.
    apply (f_equal list_ascii_of_string) in E. rewrite !chars_append in E.
    fold (tail_chars a e) (tail_chars a' e') in E.
    destruct (decide (length (tail_chars a e) ≤ length (tail_chars a' e')))
      as [Hle|Hgt].
    - rewrite Forall_forall in T. specialize (T a Ha).
      rewrite Forall_forall in T. specialize (T e He).
      rewrite Forall_forall in T. specialize (T a' Ha').
      rewrite Forall_forall in T. specialize (T e' He').
      apply T; [done|]. symmetry in E. by apply suffix_of_equal_apps in E.
    - rewrite Forall_forall in T. specialize (T a' Ha').
      rewrite Forall_forall in T. specialize (T e' He').
      rewrite Forall_forall in T. specialize (T a Ha).
      rewrite Forall_forall in T. specialize (T e He).
      cut (a' = a ∧ e' = e); [by intros [-> ->]|].
      apply T; [lia|]. apply suffix_of_equal_apps in E; [done|lia]. }
  split; [|done]. rewrite !cell_key_tail in E. by apply append_inj_r in E.
Qed.

Lemma bracket_labels :
  Forall (λ a, age_label a ∈ AGE_LABELS) AGE_BRACKETS ∧
  Forall (λ e, edu_label e ∈ EDU_LABELS) EDU_BRACKETS ∧
  Forall (λ b, b.1 ∈ AGE_BRACKETS ∧ b.2 ∈ EDU_BRACKETS) bracket_order ∧
  Forall (λ a, Forall (λ e, (a, e) ∈ bracket_order) EDU_BRACKETS) AGE_BRACKETS ∧
  NoDup (map (λ b, (age_label b.1, edu_label b.2)) bracket_order).
Proof. split_and!; apply (bool_decide_unpack _); by vm_compute. Qed.

Lemma bracket_in_order a e :
  a ∈ AGE_BRACKETS → e ∈ EDU_BRACKETS → (a, e) ∈ bracket_order.
Proof.
  intros Ha He. destruct bracket_labels as (_ & _ & _ & T & _).
  rewrite Forall_forall in T. specialize (T a Ha).
  rewrite Forall_forall in T. by apply T.
Qed.

Lemma bracket_order_labels b :
  b ∈ bracket_order →
  b.1 ∈ AGE_BRACKETS ∧ b.2 ∈ EDU_BRACKETS ∧
  age_label b.1 ∈ AGE_LABELS ∧ edu_label b.2 ∈ EDU_LABELS.
Proof.
  intros Hb. destruct bracket_labels as (TA & TE & TB & _ & _).
  rewrite Forall_forall in TA. rewrite Forall_forall in TE.
  rewrite Forall_forall in TB. destruct (TB b Hb). auto.
Qed.

(** Two bracket pairs with the same key, under any two prefixes, are the
    same pair under the same prefix. *)
Lemma bracket_key_inj p p' b b' :
  b ∈ bracket_order → b' ∈ bracket_order →
  cell_key p (age_label b.1) (edu_label b.2)
  = cell_key p' (age_label b'.1) (edu_label b'.2) →
  p = p' ∧ b = b'.
Proof.
  intros Hb Hb' E.
  destruct (bracket_order_labels b Hb) as (_ & _ & ? & ?).
  destruct (bracket_order_labels b' Hb') as (_ & _ & ? & ?).
  apply cell_key_labels_inj in E as (-> & Ea & Ee); [|done..].
  split; [done|].
  destruct bracket_labels as (_ & _ & _ & _ & Hnd).
  apply NoDup_fmap_1 in Hnd as Hnd0.
  assert (∀ l, NoDup (map (λ b, (age_label b.1, edu_label b.2)) l) →
               b ∈ l → b' ∈ l → b = b') as Hinj; [|by apply (Hinj bracket_order)].
  clear -Ea Ee. induction l as [|x l IH]; intros Hl Hx Hx'.
  - by apply elem_of_nil in Hx.
  - simpl in Hl. apply NoDup_cons in Hl as [Hnotin Hl].
    apply elem_of_cons in Hx as [->|Hx], Hx' as [->|Hx']; [done| | |by apply IH].
    + destruct Hnotin. apply list_elem_of_fmap. exists b'. by rewrite Ea, Ee.
    + destruct Hnotin. apply list_elem_of_fmap. exists b. by rewrite Ea, Ee.
Qed.

(** ** What each key holds *)

Section CellsExact.
Context `{Float64}.
Implicit Types (m cells : gmap string Cell.t) (k key : string) (c : Cell.t).
Implicit Types (ws : list (string * option Cell.t)).

Lemma put_if_ge5_store key cell m :
  put_if_ge5 key cell m
  = store_cell m (key, c ← cell; if decide (5 ≤ Cell.n c) then Some c else None).
Proof.
  unfold put_if_ge5, store_cell. destruct cell as [c|]; [|done].
  simpl. by case_decide.
Qed.

Lemma foldl_store_map {A} (f : gmap string Cell.t → A → gmap string Cell.t)
    (g : A → string * option Cell.t) (l : list A) m :
  (∀ m x, f m x = store_cell m (g x)) →
  foldl f m l = foldl store_cell m (map g l).
Proof.
  intros Hf. revert m. induction l as [|x l IH]; intros m; [done|].
  simpl. by rewrite Hf, IH.
Qed.

Lemma foldl_nested {A B C} (f : C → B → C) (h : A → list B) (l : list A) (x : C) :
  foldl (λ x a, foldl f x (h a)) x l = foldl f x (l ≫= h).
Proof.
  revert x. induction l as [|a l IH]; intros x; [done|].
  rewrite bind_cons, foldl_app. simpl. by rewrite IH.
Qed.

Lemma foldl_phases {A B} (f : A → B → A) (x : A) (w : B) (l1 l2 l3 : list B) :
  foldl f x (w :: l1 ++ l2 ++ l3) = foldl f (foldl f (foldl f (f x w) l1) l2) l3.
Proof. simpl. by rewrite !foldl_app. Qed.

Lemma foldl_store_nested {A B}
    (f : gmap string Cell.t → A → B → gmap string Cell.t)
    (g : A → B → string * option Cell.t) (l : list A) (l2 : list B) m :
  (∀ m a b, f m a b = store_cell m (g a b)) →
  foldl (λ m a, foldl (λ m b, f m a b) m l2) m l
  = foldl store_cell m (l ≫= λ a, map (g a) l2).
Proof.
  intros Hf. rewrite <- foldl_nested. revert m.
  induction l as [|a l IH]; intros m; [done|]. simpl. rewrite <- IH. f_equal.
  by apply foldl_store_map.
Qed.

Lemma cell_writes_phases p subset :
  cell_writes p subset
  = (cell_key p "All" "All", aggregate_cell subset)
    :: map (λ age_full,
              (cell_key p (age_short_of age_full) "All",
               c ← aggregate_cell (by_age age_full subset);
               if decide (5 ≤ Cell.n c) then Some c else None)) AGE_GROUPS
    ++ map (λ edu,
              (cell_key p "All" edu,
               c ← aggregate_cell (by_edu edu subset);
               if decide (5 ≤ Cell.n c) then Some c else None)) EDU_SHORT_ORDER
    ++ (AGE_GROUPS ≫= λ age_full,
          map (λ edu,
                 (cell_key p (age_short_of age_full) edu,
                  c ← aggregate_cell (by_edu edu (by_age age_full subset));
                  if decide (5 ≤ Cell.n c) then Some c else None)) EDU_SHORT_ORDER).
Proof. reflexivity. Qed.

(** [add_cells] is the sequence of its 49 assignments. *)
Lemma add_cells_writes p subset m :
  add_cells p subset m = foldl store_cell m (cell_writes p subset).
Proof.
  rewrite cell_writes_phases. unfold add_cells. cbv zeta.
  rewrite (foldl_store_nested
             (λ cells age_full edu,
                put_if_ge5 (cell_key p (age_short_of age_full) edu)
                  (aggregate_cell (by_edu edu (by_age age_full subset))) cells)
             (λ age_full edu,
                (cell_key p (age_short_of age_full) edu,
                 c ← aggregate_cell (by_edu edu (by_age age_full subset));
                 if decide (5 ≤ Cell.n c) then Some c else None)))
    by (intros; apply put_if_ge5_store).
  rewrite (foldl_store_map
             (λ cells edu, put_if_ge5 (cell_key p "All" edu)
                             (aggregate_cell (by_edu edu subset)) cells)
             (λ edu, (cell_key p "All" edu,
                      c ← aggregate_cell (by_edu edu subset);
                      if decide (5 ≤ Cell.n c) then Some c else None)))
    by (intros; apply put_if_ge5_store).
  rewrite (foldl_store_map
             (λ cells age_full,
                put_if_ge5 (cell_key p (age_short_of age_full) "All")
                  (aggregate_cell (by_age age_full subset)) cells)
             (λ age_full, (cell_key p (age_short_of age_full) "All",
                           c ← aggregate_cell (by_age age_full subset);
                           if decide (5 ≤ Cell.n c) then Some c else None)))
    by (intros; apply put_if_ge5_store).
  lazymatch goal with
  | |- _ = foldl _ _ (?w :: ?l1 ++ ?l2 ++ ?l3) =>
      rewrite (foldl_phases store_cell m w l1 l2 l3)
  end.
  do 3 f_equal.
Qed.

Lemma foldl_store_other ws m k :
  k ∉ map fst ws → foldl store_cell m ws !! k = m !! k.
Proof.
  revert m. induction ws as [|[k' v] ws IH]; intros m Hk; [done|].
  simpl in Hk. apply not_elem_of_cons in Hk as [Hne Hk].
  simpl. rewrite IH by done. unfold store_cell. simpl.
  destruct v; [|done]. by rewrite lookup_insert_ne.
Qed.

Lemma foldl_store_own ws m k v :
  NoDup (map fst ws) → (k, v) ∈ ws →
  foldl store_cell m ws !! k = match v with Some c => Some c | None => m !! k end.
Proof.
  revert m. induction ws as [|[k' v'] ws IH]; intros m Hnd Hin.
  - by apply elem_of_nil in Hin.
  - simpl in Hnd. apply NoDup_cons in Hnd as [Hnotin Hnd].
    apply elem_of_cons in Hin as [[= <- <-]|Hin]; simpl.
    + rewrite foldl_store_other by done. unfold store_cell. simpl.
      destruct v; [|done]. by rewrite lookup_insert_eq.
    + rewrite IH by done. destruct v; [done|]. unfold store_cell. simpl.
      destruct v'; [|done]. rewrite lookup_insert_ne; [done|].
      intros ->. apply Hnotin. apply list_elem_of_fmap. by exists (k, None).
Qed.

Lemma foldl_store_origin ws m k c :
  foldl store_cell m ws !! k = Some c → m !! k = Some c ∨ (k, Some c) ∈ ws.
Proof.
  revert m. induction ws as [|[k' v] ws IH]; intros m Hk; [by left|].
  simpl in Hk. apply IH in Hk as [Hk|Hk]; [|right; by right].
  unfold store_cell in Hk. simpl in Hk. destruct v as [c'|]; [|by left].
  destruct (decide (k' = k)) as [->|Hne].
  - rewrite lookup_insert_eq in Hk. injection Hk as ->. right. by left.
  - rewrite lookup_insert_ne in Hk by done. by left.
Qed.

Lemma cell_writes_keys p subset :
  NoDup (map fst (cell_writes p subset)).
Proof.
  unfold cell_writes. rewrite map_map.
  apply (NoDup_fmap_2_strong (λ b, cell_key p (age_label b.1) (edu_label b.2))).
  - intros b b' Hb Hb' E. by apply bracket_key_inj in E as [_ ?].
  - destruct bracket_labels as (_ & _ & _ & _ & Hnd). by apply NoDup_fmap_1 in Hnd.
Qed.

Lemma add_cells_own p subset m b :
  b ∈ bracket_order →
  add_cells p subset m !! cell_key p (age_label b.1) (edu_label b.2)
  = match expected_cell b.1 b.2 subset with
    | Some c => Some c
    | None => m !! cell_key p (age_label b.1) (edu_label b.2)
    end.
Proof.
  intros Hb. rewrite add_cells_writes.
  apply foldl_store_own; [apply cell_writes_keys|].
  unfold cell_writes. apply list_elem_of_fmap. by exists b.
Qed.

Lemma add_cells_other p p' subset m b :
  p ≠ p' → b ∈ bracket_order →
  add_cells p' subset m !! cell_key p (age_label b.1) (edu_label b.2)
  = m !! cell_key p (age_label b.1) (edu_label b.2).
Proof.
  intros Hne Hb. rewrite add_cells_writes. apply foldl_store_other.
  unfold cell_writes. rewrite map_map. intros Hin.
  apply list_elem_of_fmap in Hin as (b' & E & Hb'). cbn [fst] in E.
  by apply bracket_key_inj in E as [? _].
Qed.

Lemma add_all_other scopes m p b :
  p ∉ map fst scopes → b ∈ bracket_order →
  add_all scopes m !! cell_key p (age_label b.1) (edu_label b.2)
  = m !! cell_key p (age_label b.1) (edu_label b.2).
Proof.
  revert m. induction scopes as [|[p' s'] scopes IH]; intros m Hp Hb; [done|].
  simpl in Hp. apply not_elem_of_cons in Hp as [Hne Hp].
  unfold add_all. simpl. fold (add_all scopes (add_cells p' s' m)).
  rewrite IH by done. by apply add_cells_other.
Qed.

Lemma add_all_exact scopes m g subset b :
  NoDup (map fst scopes) → (g, subset) ∈ scopes → b ∈ bracket_order →
  add_all scopes m !! cell_key g (age_label b.1) (edu_label b.2)
  = match expected_cell b.1 b.2 subset with
    | Some c => Some c
    | None => m !! cell_key g (age_label b.1) (edu_label b.2)
    end.
Proof.
  revert m. induction scopes as [|[p' s'] scopes IH]; intros m Hnd Hin Hb.
  - by apply elem_of_nil in Hin.
  - simpl in Hnd. apply NoDup_cons in Hnd as [Hnotin Hnd].
    unfold add_all. simpl. fold (add_all scopes (add_cells p' s' m)).
    apply elem_of_cons in Hin as [[= <- <-]|Hin].
    + rewrite add_all_other by done. by apply add_cells_own.
    + rewrite IH by done. rewrite add_cells_other; [done| |done].
      intros ->. apply Hnotin. apply list_elem_of_fmap. by exists (p', subset).
Qed.

Lemma add_all_from scopes m k c :
  add_all scopes m !! k = Some c →
  m !! k = Some c ∨
  ∃ g subset b, (g, subset) ∈ scopes ∧ b ∈ bracket_order ∧
                k = cell_key g (age_label b.1) (edu_label b.2) ∧
                expected_cell b.1 b.2 subset = Some c.
Proof.
  revert m. induction scopes as [|[p' s'] scopes IH]; intros m Hk; [by left|].
  unfold add_all in Hk. simpl in Hk. fold (add_all scopes (add_cells p' s' m)) in Hk.
  apply IH in Hk as [Hk|(g & subset & b & ? & ?)].
  - rewrite add_cells_writes in Hk. apply foldl_store_origin in Hk as [?|Hk]; [by left|].
    right. unfold cell_writes in Hk. apply list_elem_of_fmap in Hk as (b & [= -> Hc] & Hb).
    exists p', s', b. split; [by left|done].
  - right. exists g, subset, b. split; [by right|done].
Qed.

Lemma build_cells_from data countries k c :
  build_cells data countries !! k = Some c →
  ∃ g subset b, (g, subset) ∈ geographies data countries ∧ b ∈ bracket_order ∧
                k = cell_key g (age_label b.1) (edu_label b.2) ∧
                expected_cell b.1 b.2 subset = Some c.
Proof.
  rewrite build_cells_add_all. intros Hk.
  apply add_all_from in Hk as [Hk|?]; [|done]. by rewrite lookup_empty in Hk.
Qed.

Lemma expected_cell_n age edu subset c :
  expected_cell age edu subset = Some c →
  Cell.n c = length (slice age edu subset) ∧
  aggregate_cell (slice age edu subset) = Some c ∧
  (age ≠ None ∨ edu ≠ None → 5 ≤ Cell.n c).
Proof.
  unfold expected_cell. destruct age as [a|], edu as [e|].
  4: { intros Hc. split_and!; [by apply aggregate_cell_n in Hc as [? _] | done |].
       by intros [?|?]. }
  all: intros Hc; apply bind_Some in Hc as (c' & Hagg & Hc); case_decide; [|done];
    injection Hc as <-; split_and!; [by apply aggregate_cell_n in Hagg as [? _]|done..].
Qed.

Lemma slice_sublist age edu subset : slice age edu subset `sublist_of` subset.
Proof.
  unfold slice, by_age, by_edu. destruct age, edu; try done.
  - etrans; apply sublist_filter.
  - apply sublist_filter.
  - apply sublist_filter.
Qed.

Lemma geographies_sublist data countries g subset :
  (g, subset) ∈ geographies data countries → subset `sublist_of` data.
Proof.
  unfold geographies. intros Hin.
  apply elem_of_cons in Hin as [[= _ ->]|Hin]; [done|].
  apply elem_of_cons in Hin as [[= _ ->]|Hin]; [apply sublist_filter|].
  apply elem_of_cons in Hin as [[= _ ->]|Hin]; [apply sublist_filter|].
  apply list_elem_of_fmap in Hin as (ci & [= _ ->] & _). apply sublist_filter.
Qed.
End CellsExact.

(** X2: composite keys are unambiguous.  Two keys built from age and
    education labels are equal only when prefix, age label and education
    label are all equal, whatever the prefixes are, the delimiter inside a
    prefix included. *)
Theorem composite_keys_unambiguous (g g' a a' e e' : string) :
  a ∈ AGE_LABELS → a' ∈ AGE_LABELS → e ∈ EDU_LABELS → e' ∈ EDU_LABELS →
  cell_key g a e = cell_key g' a' e' ↔ g = g' ∧ a = a' ∧ e = e'.
Proof.
  intros Ha Ha' He He'. split.
  - intros E. by apply cell_key_labels_inj in E.
  - by intros (-> & -> & ->).
Qed.

Lemma composite_keys_unambiguous_witness :
  cell_key "North|All" "All" "Secondary" = cell_key "North" "All" "Secondary"
  ↔ "North|All" = "North" ∧ "All" = "All" ∧ "Secondary" = "Secondary".
Proof.
  apply (composite_keys_unambiguous "North|All" "North" "All" "All"
           "Secondary" "Secondary");
    apply (bool_decide_unpack _); by vm_compute.
Defined.

(** X3: when the key prefixes of the reporting scopes are pairwise
    distinct, the cell under "<geography>|<age>|<education>" is exactly the
    aggregate of the geography's rows in that age and education bracket:
    present for (all, all) when the geography has a row, present for a
    breakdown when the slice has at least 5 rows, absent otherwise. *)
Theorem build_cells_exact `{Float64} (data : list Row) (countries : list CountryInfo.t)
    (g : string) (subset : list Row) (age edu : option string) :
  NoDup (map fst (geographies data countries)) →
  (g, subset) ∈ geographies data countries →
  age ∈ AGE_BRACKETS → edu ∈ EDU_BRACKETS →
  build_cells data countries !! cell_key g (age_label age) (edu_label edu)
  = expected_cell age edu subset.
Proof.
  intros Hnd Hin Ha He. rewrite build_cells_add_all.
  rewrite (add_all_exact _ ∅ g subset (age, edu)); [|done..|by apply bracket_in_order].
  simpl. rewrite lookup_empty. by destruct (expected_cell age edu subset).
Qed.

Lemma build_cells_exact_witness :
  build_cells (H:=exact_arith) chile_table (get_country_info chile_table)
    !! cell_key "Chile" (age_label (Some "25-34 years old")) (edu_label (Some "Secondary"))
  = expected_cell (Some "25-34 years old") (Some "Secondary") chile_table.
Proof.
  apply (build_cells_exact (H:=exact_arith) chile_table (get_country_info chile_table)
           "Chile" chile_table (Some "25-34 years old") (Some "Secondary")).
  - apply (bool_decide_unpack _). by vm_compute.
  - apply (bool_decide_unpack _). by vm_compute.
  - apply (bool_decide_unpack _). by vm_compute.
  - apply (bool_decide_unpack _). by vm_compute.
Defined.

(** X4: whatever the prefixes, every stored cell is the aggregate of the
    rows of one geography in one age and education bracket, stored under
    that triple's key; its n is the size of that slice, at least 1 and at
    most the number of rows of the table. *)
Theorem stored_cells_are_slices `{Float64} (data : list Row)
    (countries : list CountryInfo.t) (k : string) (c : Cell.t) :
  build_cells data countries !! k = Some c →
  ∃ g subset age edu,
    (g, subset) ∈ geographies data countries ∧
    age ∈ AGE_BRACKETS ∧ edu ∈ EDU_BRACKETS ∧
    k = cell_key g (age_label age) (edu_label edu) ∧
    aggregate_cell (slice age edu subset) = Some c ∧
    Cell.n c = length (slice age edu subset) ∧
    1 ≤ Cell.n c ≤ length data.
Proof.
  intros Hk. apply build_cells_from in Hk as (g & subset & [age edu] & Hin & Hb & -> & Hc).
  simpl in *. destruct (bracket_order_labels _ Hb) as (Ha & He & _).
  apply expected_cell_n in Hc as (Hn & Hagg & _).
  exists g, subset, age, edu. split_and!; try done.
  - apply aggregate_cell_n in Hagg as [_ Hne].
    rewrite Hn. destruct (slice age edu subset); [done | simpl; lia].
  - rewrite Hn. apply sublist_length. etrans; [apply slice_sublist|].
    by eapply geographies_sublist.
Qed.

Lemma stored_cells_are_slices_witness :
  ∃ c, build_cells (H:=exact_arith) [two_options_row] [] !! "All|All|All" = Some c ∧
  ∃ g subset age edu,
    (g, subset) ∈ geographies [two_options_row] [] ∧
    age ∈ AGE_BRACKETS ∧ edu ∈ EDU_BRACKETS ∧
    "All|All|All" = cell_key g (age_label age) (edu_label edu) ∧
    aggregate_cell (slice age edu subset) = Some c ∧
    Cell.n c = length (slice age edu subset) ∧
    1 ≤ Cell.n c ≤ length [two_options_row].
Proof.
  destruct (build_cells_top (H:=exact_arith) [two_options_row] [] "All" [two_options_row])
    as [c Hc]; [by left | done |].
  exists c. split; [exact Hc|].
  exact (stored_cells_are_slices (H:=exact_arith) [two_options_row] []
           "All|All|All" c Hc).
Defined.

(** X5: every key of the output's cells splits into a geography id that is
    "All", "OECD", "LMIC" or the id of a country listed in meta.countries,
    an age label that is "All" or listed in meta.age_groups, and an
    education label that is "All" or listed in meta.edu_groups. *)
Theorem cell_keys_match_meta `{Float64} (today : string) (data : list Row)
    (countries : list CountryInfo.t) (k : string) :
  let out := build_json today data countries (build_cells data countries) in
  is_Some (Output.cells out !! k) →
  ∃ g a e,
    k = cell_key g a e ∧
    (g ∈ ["All"; "OECD"; "LMIC"] ∨
     g ∈ map Meta.id (Meta.countries (Output.meta out))) ∧
    a ∈ "All" :: Meta.age_groups (Output.meta out) ∧
    e ∈ "All" :: Meta.edu_groups (Output.meta out).
Proof.
  intros out [c Hk]. simpl in Hk.
  apply build_cells_from in Hk as (g & subset & [age edu] & Hin & Hb & -> & _).
  destruct (bracket_order_labels _ Hb) as (_ & _ & Ha & He).
  exists g, (age_label age), (edu_label edu). split_and!; [done| |done..].
  unfold geographies in Hin.
  apply elem_of_cons in Hin as [[= -> _]|Hin]; [left; by apply (bool_decide_unpack _)|].
  apply elem_of_cons in Hin as [[= -> _]|Hin]; [left; by apply (bool_decide_unpack _)|].
  apply elem_of_cons in Hin as [[= -> _]|Hin]; [left; by apply (bool_decide_unpack _)|].
  right. apply list_elem_of_fmap in Hin as (ci & [= -> _] & Hci).
  simpl. rewrite map_map. simpl. apply list_elem_of_fmap. by exists ci.
Qed.

Lemma cell_keys_match_meta_witness :
  ∃ g a e,
    "All|All|All" = cell_key g a e ∧
    (g ∈ ["All"; "OECD"; "LMIC"] ∨
     g ∈ map Meta.id (Meta.countries (Output.meta
           (build_json (H:=exact_arith) "2026-03-01" [two_options_row] []
              (build_cells [two_options_row] []))))) ∧
    a ∈ "All" :: Meta.age_groups (Output.meta
           (build_json (H:=exact_arith) "2026-03-01" [two_options_row] []
              (build_cells [two_options_row] []))) ∧
    e ∈ "All" :: Meta.edu_groups (Output.meta
           (build_json (H:=exact_arith) "2026-03-01" [two_options_row] []
              (build_cells [two_options_row] []))).
Proof.
  apply (cell_keys_match_meta (H:=exact_arith) "2026-03-01" [two_options_row] []
           "All|All|All").
  apply (build_cells_top (H:=exact_arith) [two_options_row] [] "All" [two_options_row]);
    [by left | done].
Defined.

(** X6: an empty table gives no country, no cell at all (not even
    "All|All|All") and total_n = 0. *)
Theorem empty_table_gives_no_cells `{Float64} (today : string)
    (countries : list CountryInfo.t) :
  get_country_info [] = [] ∧
  build_cells [] countries = ∅ ∧
  Meta.total_n (Output.meta (build_json today [] countries (build_cells [] countries)))
  = 0.
Proof.
  split_and!; [done| |done].
  apply map_eq. intros k. rewrite lookup_empty.
  destruct (build_cells [] countries !! k) as [c|] eqn:Hk; [|done].
  apply build_cells_from in Hk as (g & subset & [age edu] & Hin & _ & _ & Hc).
  apply expected_cell_n in Hc as (_ & Hagg & _).
  apply aggregate_cell_n in Hagg as [_ Hne]. destruct Hne.
  apply geographies_sublist in Hin. apply sublist_nil_r in Hin. subst subset.
  apply sublist_nil_r, slice_sublist.
Qed.

(** ** More on the filter stage *)

Lemma to_datetime_cell_None parse format d :
  to_datetime_cell parse format d = None ↔
  ∃ s, d = RawDate s ∧ ¬ null_text s ∧
       match format with
       | Some fmt => strptime parse fmt s
       | None => parse_datetime_string parse s
       end = None.
Proof.
  destruct d as [|s|t]; simpl.
  - split; [done | by intros (? & ? & _)].
  - case_decide as Hnull.
    + split; [done|]. by intros (s' & [= <-] & ? & _).
    + rewrite fmap_None. split; [intros ?; by exists s|].
      by intros (s' & [= <-] & _ & ?).
  - split; [done | by intros (? & ? & _)].
Qed.

(** The rows kept, in terms of the rows given: the three tests in one,
    then the conversion of the date. *)
Lemma filter_chain parse format cutoff l data :
  mapM (λ r, d ← to_datetime_cell parse format (StartDate r); Some (set_StartDate d r))
       (remove_import_rows l) = Some data →
  Forall2 (λ r r', ∃ t, to_datetime_cell parse format (StartDate r) = Some (Timestamp t) ∧
                        (cutoff ≤ t)%Z ∧ r' = set_StartDate (Timestamp t) r)
          (filter (valid_response parse format cutoff) l)
          (attention_filter (date_filter cutoff data)).
Proof.
  unfold remove_import_rows, attention_filter, date_filter.
  revert data. induction l as [|x l IH]; intros data.
  - intros [= <-]. constructor.
  - rewrite (filter_cons (λ r, cell_contains "ImportId" (Q3_1 r) = false)).
    rewrite (filter_cons (valid_response parse format cutoff)).
    destruct (decide (cell_contains "ImportId" (Q3_1 x) = false)) as [Himp|Himp].
    + change (mapM ?f (x :: ?k)) with (y ← f x; k' ← mapM f k; Some (y :: k')).
      intros Hm. apply bind_Some in Hm as (y & Hy & Hm).
      apply bind_Some in Hm as (data' & Hdata' & [= <-]).
      apply bind_Some in Hy as (d & Hd & [= <-]).
      specialize (IH data' Hdata').
      rewrite (filter_cons (on_or_after cutoff)).
      destruct (decide (valid_response parse format cutoff x)) as [Hv|Hv].
      * destruct Hv as (_ & Hatt & t & Ht & Hle).
        assert (d = Timestamp t) as -> by congruence.
        rewrite decide_True by done. rewrite filter_cons, decide_True by done.
        constructor; [by exists t | done].
      * destruct (decide (on_or_after cutoff (set_StartDate d x))) as [Hdate|Hdate];
          [|done].
        rewrite filter_cons.
        destruct (decide (Attention_Check (set_StartDate d x) = Some ATTENTION_ANSWER))
          as [Hatt|Hatt]; [|done].
        exfalso. apply Hv. split_and!; [done..|].
        unfold on_or_after in Hdate. simpl in Hdate.
        destruct d as [| |t]; [done..|]. by exists t.
    + rewrite decide_False by (by intros [? _]). apply IH.
Qed.

(** X7: what the filter stage returns.  When it succeeds, its rows are
    exactly, in order and number, the rows after the first that carry no
    import marker, give the expected attention answer and whose date
    converts, in the format of the column, to a timestamp at or after the
    cut-off, each with that timestamp in place of its date. *)
Theorem load_and_filter_rows (parse : DateParser) (df out : list Row) :
  load_and_filter parse df = Some out →
  ∃ cutoff,
    parse_datetime_string parse DATE_CUTOFF = Some cutoff ∧
    Forall2 (λ r r', ∃ t, to_datetime_cell parse (date_format parse df) (StartDate r)
                          = Some (Timestamp t) ∧
                          (cutoff ≤ t)%Z ∧ r' = set_StartDate (Timestamp t) r)
            (filter (valid_response parse (date_format parse df) cutoff)
                    (skip_label_row df))
            out.
Proof.
  unfold load_and_filter. intros Hl.
  apply bind_Some in Hl as (data & Hconv & Hl).
  apply bind_Some in Hl as (cutoff & Hcut & Hl). injection Hl as <-.
  exists cutoff. split; [done|]. by apply filter_chain.
Qed.

Lemma load_and_filter_rows_witness :
  ∃ out cutoff,
    load_and_filter parse_iso_datetime raw_export = Some out ∧
    parse_datetime_string parse_iso_datetime DATE_CUTOFF = Some cutoff ∧
    Forall2 (λ r r', ∃ t, to_datetime_cell parse_iso_datetime
                            (date_format parse_iso_datetime raw_export) (StartDate r)
                          = Some (Timestamp t) ∧
                          (cutoff ≤ t)%Z ∧ r' = set_StartDate (Timestamp t) r)
            (filter (valid_response parse_iso_datetime
                       (date_format parse_iso_datetime raw_export) cutoff)
                    (skip_label_row raw_export))
            out.
Proof.
  eexists.
  assert (load_and_filter parse_iso_datetime raw_export = Some _) as Hrun
    by (by vm_compute).
  destruct (load_and_filter_rows parse_iso_datetime raw_export _ Hrun)
    as (cutoff & ?). by exists cutoff.
Defined.

(** X8: when the filter stage aborts.  It fails exactly when the cut-off
    date does not parse or some row after the first, without import marker,
    holds a date text, not a null text, that cannot be read: against the
    format of the column when there is one, on its own otherwise.  The
    attention answer of that row plays no part, a bad date in the first
    row or in an import row does no harm, and a text that could be read on
    its own still aborts the run when it is not in the column's format. *)
Theorem load_and_filter_fails_iff (parse : DateParser) (df : list Row) :
  load_and_filter parse df = None ↔
  parse_datetime_string parse DATE_CUTOFF = None ∨
  ∃ r s, r ∈ skip_label_row df ∧ cell_contains "ImportId" (Q3_1 r) = false ∧
         StartDate r = RawDate s ∧ ¬ null_text s ∧
         match date_format parse df with
         | Some fmt => strptime parse fmt s
         | None => parse_datetime_string parse s
         end = None.
Proof.
  unfold load_and_filter, to_datetime, date_format.
  set (data0 := remove_import_rows (skip_label_row df)).
  set (format := column_format parse (map StartDate data0)).
  destruct (mapM _ data0) as [data|] eqn:Hconv.
  - simpl. destruct (parse_datetime_string parse DATE_CUTOFF) as [cutoff|] eqn:Hcut; simpl.
    + split; [done|]. intros [?|(r & s & Hr & Himp & Hs & Hnull & Hbad)]; [done|].
      assert (mapM (λ r, d ← to_datetime_cell parse format (StartDate r);
                         Some (set_StartDate d r)) data0 = None) as Hnone;
        [|congruence].
      apply mapM_None. apply Exists_exists. exists r. split.
      * unfold data0, remove_import_rows. by apply list_elem_of_filter.
      * assert (to_datetime_cell parse format (StartDate r) = None) as ->; [|done].
        apply to_datetime_cell_None. by exists s.
    + split; [by left | done].
  - simpl. split; [|done]. intros _. right.
    apply mapM_None, Exists_exists in Hconv as (r & Hr & Hbad).
    unfold data0, remove_import_rows in Hr. apply list_elem_of_filter in Hr as [Himp Hr].
    destruct (to_datetime_cell parse format (StartDate r)) as [d|] eqn:Hd; [done|].
    apply to_datetime_cell_None in Hd as (s & Hs & Hnull & Hps). by exists r, s.
Qed.

(** Two dates of the export's own format, one without a time: each is read
    on its own, the column is not. *)
Lemma mixed_date_formats_abort :
  parse_datetime_string parse_iso_datetime "2026-02-01 10:00:00" ≠ None ∧
  parse_datetime_string parse_iso_datetime "2026-02-02" ≠ None ∧
  load_and_filter parse_iso_datetime
    [ respondent (RawDate "Start Date") None None None None None;
      respondent (RawDate "2026-02-01 10:00:00") None None None (Some "7") None;
      respondent (RawDate "2026-02-02") None None None (Some "7") None ] = None.
Proof. split_and!; [done..|]. by vm_compute. Qed.

(** ** More on the geography resolver *)

Lemma unique_NoDup l : NoDup (unique l).
Proof.
  induction l as [|x l IH]; simpl; constructor.
  - rewrite list_elem_of_filter. by intros [? _].
  - by apply NoDup_filter.
Qed.

Lemma value_counts_names col : NoDup (map fst (value_counts col)).
Proof.
  unfold value_counts.
  assert (map fst (merge_sort count_desc
            (map (λ v, (v, count_eq col v)) (unique (omap id col))))
          ≡ₚ unique (omap id col)) as ->; [|apply unique_NoDup].
  change (map fst ?l) with (fst <$> l).
  rewrite merge_sort_Permutation.
  induction (unique (omap id col)) as [|v l IH]; [done|]. simpl. by rewrite IH.
Qed.

Lemma value_counts_total col : sum_list (map snd (value_counts col)) ≤ length col.
Proof.
  unfold value_counts.
  assert (map snd (merge_sort count_desc
            (map (λ v, (v, count_eq col v)) (unique (omap id col))))
          ≡ₚ count_options col (unique (omap id col))) as ->.
  { change (map snd ?l) with (snd <$> l).
    rewrite merge_sort_Permutation. unfold count_options.
    induction (unique (omap id col)) as [|v l IH]; [done|]. simpl. by rewrite IH. }
  apply count_options_sum, unique_NoDup.
Qed.

Lemma omap_as_filter {A B C} (f : A → option B) (g : B → C) (h : A → C)
    (P : A → Prop) `{!∀ x, Decision (P x)} (l : list A) :
  (∀ x, match f x with Some y => P x ∧ g y = h x | None => ¬ P x end) →
  map g (omap f l) = map h (filter P l).
Proof.
  intros Hf. induction l as [|x l IH]; [done|].
  rewrite filter_cons.
  change (omap f (x :: l))
    with (match f x with Some y => y :: omap f l | None => omap f l end).
  specialize (Hf x). destruct (f x) as [y|].
  - destruct Hf as [HP Hg]. rewrite decide_True by done.
    rewrite !map_cons. by rewrite IH, Hg.
  - by rewrite decide_False.
Qed.

Lemma sum_snd_filter_le {A} (P : A * nat → Prop) `{!∀ x, Decision (P x)}
    (l : list (A * nat)) :
  sum_list (map snd (filter P l)) ≤ sum_list (map snd l).
Proof.
  induction l as [|x l IH]; [done|].
  rewrite filter_cons. destruct (decide (P x)); rewrite ?map_cons; simpl; lia.
Qed.

Lemma NoDup_fst_filter {A B} (P : A * B → Prop) `{!∀ x, Decision (P x)}
    (l : list (A * B)) :
  NoDup (map fst l) → NoDup (map fst (filter P l)).
Proof.
  induction l as [|x l IH]; [done|]. rewrite map_cons. intros Hnd.
  apply NoDup_cons in Hnd as [Hx Hnd]. rewrite filter_cons.
  destruct (decide (P x)); [|by apply IH].
  rewrite map_cons. apply NoDup_cons. split; [|by apply IH].
  intros Hin. apply Hx.
  apply list_elem_of_fmap in Hin as (y & -> & Hy).
  apply list_elem_of_filter in Hy as [_ Hy]. apply list_elem_of_fmap. by exists y.
Qed.

Lemma get_country_info_entries data :
  map (λ ci, (CountryInfo.full_name ci, CountryInfo.n ci)) (get_country_info data)
  = filter (λ x, MIN_COUNTRY_N ≤ x.2) (value_counts (map Country data)).
Proof.
  unfold get_country_info. cbv zeta.
  rewrite <- (map_id (filter _ _)).
  apply omap_as_filter. intros [v n]. cbn [snd].
  case_decide; [split|]; done.
Qed.

(** X9: the country list names no country twice; every descriptor has
    name = id, the short form of the full name when the table of short
    names has one and the full name itself otherwise; the counts of the
    listed countries add up to at most the number of rows, so at most
    (rows / 100) countries are listed. *)
Theorem country_list_shape (data : list Row) :
  NoDup (map CountryInfo.full_name (get_country_info data)) ∧
  (∀ ci, ci ∈ get_country_info data →
     CountryInfo.name ci = CountryInfo.id ci ∧
     CountryInfo.id ci
     = default (CountryInfo.full_name ci)
               (dict_get COUNTRY_SHORT (CountryInfo.full_name ci))) ∧
  sum_list (map CountryInfo.n (get_country_info data)) ≤ length data ∧
  100 * length (get_country_info data) ≤ length data.
Proof.
  pose proof (get_country_info_entries data) as Hent.
  assert (map CountryInfo.full_name (get_country_info data)
          = map fst (filter (λ x, MIN_COUNTRY_N ≤ x.2)
                       (value_counts (map Country data)))) as Hnames.
  { rewrite <- Hent, map_map. done. }
  assert (map CountryInfo.n (get_country_info data)
          = map snd (filter (λ x, MIN_COUNTRY_N ≤ x.2)
                       (value_counts (map Country data)))) as Hns.
  { rewrite <- Hent, map_map. done. }
  assert (sum_list (map CountryInfo.n (get_country_info data)) ≤ length data) as Hsum.
  { rewrite Hns. etrans; [apply sum_snd_filter_le|].
    etrans; [apply (value_counts_total (map Country data))|]. by rewrite length_map. }
  split_and!; [| |done|].
  - rewrite Hnames. apply NoDup_fst_filter, value_counts_names.
  - intros ci Hci.
    apply get_country_info_entry in Hci as (cn & n & _ & _ & ->). done.
  - etrans; [|exact Hsum].
    assert (Forall (λ ci, 100 ≤ CountryInfo.n ci) (get_country_info data)) as Hall.
    { apply Forall_forall. intros ci Hci.
      apply get_country_info_entry in Hci as (cn & n & _ & Hn & ->). exact Hn. }
    clear -Hall. induction Hall as [|ci l Hci _ IH]; simpl; lia.
Qed.

(** ** Substring matching and the multi-select counts *)

Lemma prefix_append p s : String.prefix p s = true ↔ ∃ r, s = p +:+ r.
Proof.
  revert s. induction p as [|a p IH]; intros s.
  - destruct s; simpl; (split; [intros _; by eexists | done]).
  - destruct s as [|b s]; simpl.
    + split; [done|]. by intros (r & ?).
    + destruct (ascii_dec a b) as [->|Hne].
      * rewrite IH. split; intros (r & Hr); exists r.
        -- by rewrite append_cons, <- Hr.
        -- rewrite append_cons in Hr. by injection Hr.
      * split; [done|]. intros (r & Hr). rewrite append_cons in Hr.
        injection Hr as ? _. by destruct Hne.
Qed.

Lemma contains_eq pat s :
  contains pat s
  = if String.prefix pat s then true
    else match s with
         | EmptyString => false
         | String _ s' => contains pat s'
         end.
Proof. by destruct s. Qed.

Lemma contains_substring pat s : contains pat s = true ↔ substring_of pat s.
Proof.
  unfold substring_of. split.
  - induction s as [|c s IH]; rewrite contains_eq.
    + destruct (String.prefix pat "") eqn:Hp; [|done]. intros _.
      apply prefix_append in Hp as (r & ->). by exists "", r.
    + destruct (String.prefix pat (String c s)) eqn:Hp.
      * intros _. apply prefix_append in Hp as (r & ->). by exists "", r.
      * intros (pre & post & ->)%IH. by exists (String c pre), post.
  - intros (pre & post & ->). induction pre as [|c pre IH]; rewrite contains_eq.
    + rewrite append_nil_l. by rewrite (proj2 (prefix_append pat (pat +:+ post)))
        by by eexists.
    + rewrite append_cons. by destruct (String.prefix pat _).
Qed.

(** X10: [str.contains(pat, na=False, regex=False)] as the model has it.  A
    cell matches exactly when it holds a text in which the pattern occurs
    as a contiguous piece, NaN never; so the import filter keeps exactly
    the rows whose Q3.1 is NaN or a text without "ImportId" in it.  (The
    import filter leaves [regex] at its default, but "ImportId" has no
    regex operator in it, so the search is for the literal text.  The
    column is a text column, as [read_csv] gives when the label row holds
    a text; [.str] on a column without any text raises instead.) *)
Theorem contains_is_substring (pat : string) (c : option string) (data : list Row)
    (r : Row) :
  (cell_contains pat c = true ↔ ∃ s, c = Some s ∧ substring_of pat s) ∧
  cell_contains pat None = false ∧
  (r ∈ remove_import_rows data ↔
   r ∈ data ∧ ∀ s, Q3_1 r = Some s → ¬ substring_of "ImportId" s).
Proof.
  assert (cell_contains pat c = true ↔ ∃ s, c = Some s ∧ substring_of pat s) as Hc.
  { destruct c as [s|]; simpl.
    - rewrite contains_substring. split; [by exists s | by intros (? & [= <-] & ?)].
    - split; [done | by intros (? & ? & _)]. }
  split_and!; [done..|].
  unfold remove_import_rows. rewrite list_elem_of_filter. split.
  - intros [Hno Hr]. split; [done|]. intros s Hs Hsub.
    rewrite Hs in Hno. simpl in Hno. apply contains_substring in Hsub. congruence.
  - intros [Hr Hno]. split; [|done].
    destruct (Q3_1 r) as [s|]; [|done]. simpl.
    destruct (contains "ImportId" s) eqn:Hs; [|done].
    apply contains_substring in Hs. by destruct (Hno s eq_refl).
Qed.

Lemma q77_hits_cons (c : option string) series (pats : list string) :
  sum_list (map (λ pat, length (filter (λ c, cell_contains pat c = true) (c :: series)))
                pats)
  = sum_list (map (λ pat, if cell_contains pat c then 1 else 0) pats)
    + sum_list (map (λ pat, length (filter (λ c, cell_contains pat c = true) series))
                    pats).
Proof.
  induction pats as [|pat pats IH]; [done|].
  rewrite !map_cons. simpl sum_list. rewrite IH, filter_cons.
  destruct (cell_contains pat c); simpl; lia.
Qed.

Lemma answered_q77_cons c series :
  answered_q77 (c :: series)
  = (if decide (c ≠ None ∧ ¬ c = Some "") then 1 else 0) + answered_q77 series.
Proof.
  destruct (answered_q77_spec (c :: series)) as [-> _].
  destruct (answered_q77_spec series) as [-> _].
  rewrite filter_cons. by case_decide.
Qed.

Lemma q77_single_option_hits :
  Forall (λ opt,
            opt ≠ "" ∧
            sum_list (map (λ pat, if cell_contains pat (Some opt) then 1 else 0)
                          Q77_FULL_OPTIONS) = 1)
         Q77_FULL_OPTIONS.
Proof. apply (bool_decide_unpack _). by vm_compute. Qed.

(** X11: no Q7.7 option text occurs inside another, so when every answer
    is NaN, empty or the text of a single option, the option counts add up
    to exactly n_q77. *)
Theorem single_option_answers_sum_to_n_q77 (series : list (option string)) :
  (∀ c, c ∈ series →
        c = None ∨ c = Some "" ∨ ∃ opt, opt ∈ Q77_FULL_OPTIONS ∧ c = Some opt) →
  sum_list (count_q77 series) = answered_q77 series.
Proof.
  unfold count_q77. induction series as [|c series IH]; intros Hall.
  - by vm_compute.
  - rewrite q77_hits_cons, answered_q77_cons, IH;
      [|intros c' Hc'; apply Hall; by right].
    f_equal. destruct (Hall c) as [->|[->|(opt & Hopt & ->)]]; [by left|done..|].
    pose proof q77_single_option_hits as T. rewrite Forall_forall in T.
    destruct (T opt Hopt) as [Hne ->].
    rewrite decide_True; [done|]. split; [done|]. by intros [= ->].
Qed.

Lemma single_option_answers_sum_to_n_q77_witness :
  sum_list (count_q77 [Some "Given directly to people in poor countries"; None;
                       Some ""])
  = answered_q77 [Some "Given directly to people in poor countries"; None; Some ""].
Proof.
  apply (single_option_answers_sum_to_n_q77
           [Some "Given directly to people in poor countries"; None; Some ""]).
  intros c Hc.
  apply elem_of_cons in Hc as [->|Hc].
  { right. right. eexists. split; [|done]. apply (bool_decide_unpack _). by vm_compute. }
  apply elem_of_cons in Hc as [->|Hc]; [by left|].
  apply elem_of_cons in Hc as [->|Hc]; [right; by left|].
  by apply elem_of_nil in Hc.
Defined.

(** ** The shape of a cell *)

Lemma mean_q78_length `{Float64} subset : length (mean_q78 subset).1 = 5.
Proof. unfold mean_q78. by case_decide. Qed.

(** X12: in every cell of the output, each question's list has as many
    entries as the question catalog lists options for that question, the
    questions coming in the catalog's order. *)
Theorem cell_lists_match_catalog `{Float64} (data : list Row)
    (countries : list CountryInfo.t) (k : string) (c : Cell.t) :
  build_cells data countries !! k = Some c →
  cell_list_lengths c = map (λ q, (q.1, length q.2.2)) QUESTIONS_META.
Proof.
  intros Hk. apply build_cells_from in Hk as (g & subset & [age edu] & _ & _ & _ & Hc).
  apply expected_cell_n in Hc as (_ & Hagg & _).
  revert Hagg. generalize (slice (age, edu).1 (age, edu).2 subset). intros sub.
  unfold aggregate_cell. case_decide; [done|].
  intros Hc. apply (inj Some) in Hc. subst c.
  unfold cell_list_lengths.
  cbn [Cell.q71 Cell.q31 Cell.q32 Cell.q41 Cell.q72 Cell.q73 Cell.q74 Cell.q75
       Cell.q76 Cell.q77 Cell.q78].
  unfold count_options, count_q77. rewrite !length_map, mean_q78_length.
  reflexivity.
Qed.

Lemma cell_lists_match_catalog_witness :
  ∃ c, build_cells (H:=exact_arith) [two_options_row] [] !! "All|All|All" = Some c ∧
       cell_list_lengths c = map (λ q, (q.1, length q.2.2)) QUESTIONS_META.
Proof.
  destruct (build_cells_top (H:=exact_arith) [two_options_row] [] "All" [two_options_row])
    as [c Hc]; [by left | done |].
  exists c. split; [exact Hc|].
  exact (cell_lists_match_catalog (H:=exact_arith) [two_options_row] []
           "All|All|All" c Hc).
Defined.

(** ** Where the search stops *)

Lemma has_char_append c a b : has_char c (a +:+ b) = has_char c a || has_char c b.
Proof.
  induction a as [|x a IH]; [done|]. rewrite append_cons. simpl.
  by rewrite IH, orb_assoc.
Qed.

Lemma has_char_chars c s : has_char c s = true ↔ c ∈ list_ascii_of_string s.
Proof.
  induction s as [|x s IH]; simpl.
  - split; [done | by intros ?%elem_of_nil].
  - rewrite orb_true_iff, bool_decide_eq_true, IH, elem_of_cons.
    split; (intros [?|?]; [by left | by right]).
Qed.

Lemma universal_newlines_cons c s :
  universal_newlines (String c s)
  = if decide (c = CR) then
      match s with
      | String c' s'' =>
          if decide (c' = LF) then String LF (universal_newlines s'')
          else String LF (universal_newlines s)
      | EmptyString => String LF EmptyString
      end
    else String c (universal_newlines s).
Proof. reflexivity. Qed.

Lemma has_char_cons c x s : has_char c (String x s) = bool_decide (x = c) || has_char c s.
Proof. reflexivity. Qed.

Lemma universal_newlines_has_no_cr s : has_char CR (universal_newlines s) = false.
Proof.
  assert (∀ n s, String.length s ≤ n → has_char CR (universal_newlines s) = false)
    as Hn; [|by apply (Hn (String.length s))].
  clear s. induction n as [|n IH]; intros s Hlen.
  - destruct s; [done | simpl in Hlen; lia].
  - destruct s as [|c s]; [done|]. simpl in Hlen.
    rewrite universal_newlines_cons. case_decide as Hc.
    + destruct s as [|c' s]; [done|]. simpl in Hlen.
      case_decide; rewrite has_char_cons, IH by (simpl; lia); done.
    + rewrite has_char_cons, IH by lia. by rewrite bool_decide_eq_false_2.
Qed.

Lemma all_space_chars ws c :
  all_space ws = true → c ∈ list_ascii_of_string ws → re_space c = true.
Proof.
  induction ws as [|x ws IH]; simpl; [by intros _ ?%elem_of_nil|].
  intros [Hx Hws]%andb_true_iff [->|Hc]%elem_of_cons; auto.
Qed.

(** An opening tag has its only [<] in front. *)
Lemma open_tag_chars t :
  is_open_tag t →
  ∃ body, list_ascii_of_string t = "<"%char :: body ∧ "<"%char ∉ body.
Proof.
  intros (ws1 & ws2 & _ & _ & Hws1 & Hws2 & ->).
  rewrite !chars_append.
  exists (list_ascii_of_string "script" ++ list_ascii_of_string ws1
          ++ list_ascii_of_string TAG_ID ++ list_ascii_of_string ws2
          ++ list_ascii_of_string TAG_TYPE).
  split; [done|]. rewrite !not_elem_of_app. split_and!.
  - apply (bool_decide_unpack _). by vm_compute.
  - intros Hc. by apply (all_space_chars _ _ Hws1) in Hc.
  - apply (bool_decide_unpack _). by vm_compute.
  - intros Hc. by apply (all_space_chars _ _ Hws2) in Hc.
  - apply (bool_decide_unpack _). by vm_compute.
Qed.

Lemma lt_only_in_front (body u l : list ascii) :
  "<"%char ∉ body → "<"%char :: body = u ++ "<"%char :: l → u = [].
Proof.
  intros Hbody E. destruct u as [|x u]; [done|].
  injection E as _ ->. destruct Hbody. apply elem_of_app. right. by left.
Qed.

Lemma string_of_chars (s : string) (l1 l2 : list ascii) :
  list_ascii_of_string s = l1 ++ l2 →
  s = string_of_list_ascii l1 +:+ string_of_list_ascii l2.
Proof.
  intros E. apply chars_inj.
  by rewrite chars_append, !list_ascii_of_string_of_list_ascii.
Qed.

(** An opening tag that starts inside [suf], in front of another opening
    tag, ends inside [suf] as well. *)
Lemma tag_within t tag suf r Z :
  is_open_tag t → is_open_tag tag → suf ≠ "" →
  t +:+ r = suf +:+ tag +:+ Z →
  ∃ x, suf = t +:+ x ∧ r = x +:+ tag +:+ Z.
Proof.
  intros Ht Htag Hsuf E.
  apply (f_equal list_ascii_of_string) in E. rewrite !chars_append in E.
  destruct (open_tag_chars t Ht) as (body & Hbody & Hno).
  destruct (open_tag_chars tag Htag) as (body' & Hbody' & _).
  apply app_eq_inv in E as [(l & Htl & Hr)|(l & Hsl & Hr)].
  - destruct l as [|c l].
    + rewrite app_nil_r in Htl. exists "". rewrite append_nil_r, append_nil_l.
      split; apply chars_inj; [done|]. by rewrite chars_append.
    + exfalso. rewrite Hbody' in Hr. injection Hr as <- _.
      rewrite Hbody in Htl. apply lt_only_in_front in Htl; [|done].
      destruct suf; [done|discriminate].
  - exists (string_of_list_ascii l). split; apply chars_inj.
    + by rewrite chars_append, list_ascii_of_string_of_list_ascii.
    + by rewrite !chars_append, list_ascii_of_string_of_list_ascii.
Qed.

(** Whether an opening tag starts inside [suf] does not depend on what
    follows the next opening tag. *)
Lemma match_open_local suf tag Z Z' :
  is_open_tag tag → suf ≠ "" →
  match_open (suf +:+ tag +:+ Z) = None →
  match_open (suf +:+ tag +:+ Z') = None.
Proof.
  intros Htag Hsuf Hnone.
  destruct (match_open (suf +:+ tag +:+ Z')) as [r|] eqn:Hm; [|done].
  apply match_open_sound in Hm as (t & Ht & E). symmetry in E.
  apply tag_within in E as (x & -> & _); [|done..].
  rewrite append_assoc, match_open_complete in Hnone; done.
Qed.

Lemma find_close_after x r : is_Some (find_close r) → is_Some (find_close (x +:+ r)).
Proof.
  intros [k Hk]. apply find_close_sound in Hk as (inner & post & -> & _).
  rewrite <- append_assoc. apply find_close_complete.
Qed.

(** The search never starts later than a marker that is there. *)
Lemma search_from_bound pos x t r :
  is_open_tag t → is_Some (find_close r) →
  ∃ a b, search_from pos (x +:+ t +:+ r) = Some (a, b) ∧
         a ≤ pos + String.length x + String.length t.
Proof.
  intros Ht Hr. revert pos. induction x as [|c x IH]; intros pos.
  - rewrite append_nil_l, search_from_eq, match_open_complete, bind_of_Some by done.
    destruct Hr as [k ->]. rewrite bind_of_Some. eexists _, _. split; [done|].
    rewrite length_append. simpl. lia.
  - rewrite search_from_eq.
    destruct (match_open (String c x +:+ t +:+ r)) as [r0|] eqn:Hm.
    + rewrite bind_of_Some.
      pose proof Hm as Hm'. apply match_open_sound in Hm' as (t0 & Ht0 & E).
      symmetry in E. apply tag_within in E as (x' & Hx & ->); [|done..].
      destruct (find_close_after (x' +:+ t) r Hr) as [k Hk].
      rewrite append_assoc in Hk. rewrite Hk, bind_of_Some.
      eexists _, _. split; [done|]. rewrite Hx, !length_append. simpl. lia.
    + rewrite append_cons. destruct (IH (S pos)) as (a & b & -> & Hle).
      exists a, b. split; [done|]. simpl. lia.
Qed.

Lemma search_from_skip pos pre s :
  (∀ x suf, pre = x +:+ suf → suf ≠ "" → match_open (suf +:+ s) = None) →
  search_from pos (pre +:+ s) = search_from (pos + String.length pre) s.
Proof.
  revert pos. induction pre as [|c pre IH]; intros pos Hno.
  - rewrite append_nil_l. simpl. by rewrite Nat.add_0_r.
  - rewrite search_from_eq, (Hno "" (String c pre)) by done.
    rewrite append_cons, IH.
    + simpl. f_equal. lia.
    + intros x suf -> Hsuf. by apply (Hno (String c x) suf).
Qed.

(** No opening tag starts in front of the match the search returns. *)
Lemma search_from_leftmost pos pre tag inner post b :
  is_open_tag tag →
  search_from pos (pre +:+ tag +:+ inner +:+ TAG_CLOSE +:+ post)
  = Some (pos + String.length (pre +:+ tag), b) →
  ∀ x suf, pre = x +:+ suf → suf ≠ "" →
           match_open (suf +:+ tag +:+ inner +:+ TAG_CLOSE +:+ post) = None.
Proof.
  intros Htag Hs x suf -> Hsuf.
  destruct (match_open _) as [r|] eqn:Hm; [|done]. exfalso.
  apply match_open_sound in Hm as (t & Ht & E). symmetry in E.
  apply tag_within in E as (x' & -> & ->); [|done..].
  rewrite !append_assoc in Hs.
  destruct (search_from_bound pos x t
              (x' +:+ tag +:+ inner +:+ TAG_CLOSE +:+ post) Ht) as (a & b' & Hs' & Hle).
  { rewrite <- !append_assoc. rewrite append_assoc. apply find_close_complete. }
  rewrite Hs' in Hs. injection Hs as -> _.
  destruct (open_tag_chars tag Htag) as (body & Hbody & _).
  assert (0 < String.length tag).
  { destruct tag; [done | simpl; lia]. }
  rewrite !length_append in Hle. lia.
Qed.

Lemma strip_close_chars s r :
  strip_prefix TAG_CLOSE s = Some r →
  list_ascii_of_string s = list_ascii_of_string TAG_CLOSE ++ list_ascii_of_string r.
Proof. intros Hs. apply strip_prefix_Some in Hs as ->. apply chars_append. Qed.

(** Text without a closing tag in it is taken whole as the content. *)
Lemma find_close_first j post :
  contains TAG_CLOSE j = false →
  find_close (j +:+ TAG_CLOSE +:+ post) = Some (String.length j).
Proof.
  induction j as [|c j IH]; intros Hno; rewrite find_close_eq.
  - by rewrite append_nil_l, strip_prefix_append.
  - rewrite contains_eq in Hno.
    destruct (String.prefix TAG_CLOSE (String c j)) eqn:Hp; [done|].
    destruct (strip_prefix TAG_CLOSE _) as [r|] eqn:Hs.
    + exfalso. apply strip_close_chars in Hs. rewrite !chars_append in Hs.
      apply app_eq_inv in Hs as [(l & Hj & _)|(l & Hcl & Hr)].
      * assert (String.prefix TAG_CLOSE (String c j) = true); [|congruence].
        apply prefix_append. exists (string_of_list_ascii l).
        by apply string_of_chars in Hj as ->; rewrite string_of_list_ascii_of_string.
      * destruct l as [|c' l].
        -- rewrite app_nil_r in Hcl.
           assert (String.prefix TAG_CLOSE (String c j) = true); [|congruence].
           apply prefix_append. exists "". rewrite append_nil_r. by apply chars_inj.
        -- injection Hr as <- _.
           apply (lt_only_in_front (list_ascii_of_string "/script>")) in Hcl;
             [done|]. apply (bool_decide_unpack _). by vm_compute.
    + rewrite append_cons, IH by done. done.
Qed.

Lemma search_from_at_tag pos tag r k :
  is_open_tag tag → find_close r = Some k →
  search_from pos (tag +:+ r)
  = Some (pos + String.length tag, pos + String.length tag + k).
Proof.
  intros Htag Hk.
  rewrite search_from_eq, match_open_complete, bind_of_Some, Hk, bind_of_Some by done.
  rewrite length_append. do 2 f_equal; lia.
Qed.

Lemma splice_at pre tag inner post j :
  take_str (String.length (pre +:+ tag))
           (pre +:+ tag +:+ inner +:+ TAG_CLOSE +:+ post)
  +:+ j
  +:+ drop_str (String.length (pre +:+ tag) + String.length inner)
               (pre +:+ tag +:+ inner +:+ TAG_CLOSE +:+ post)
  = pre +:+ tag +:+ j +:+ TAG_CLOSE +:+ post.
Proof.
  rewrite <- (append_assoc pre tag) at 1. rewrite take_str_append.
  rewrite <- length_append.
  rewrite <- (append_assoc pre tag), <- (append_assoc (pre +:+ tag) inner).
  by rewrite drop_str_append, !append_assoc.
Qed.

Lemma embed_found json_str html_path w doc a b :
  files w !! html_path = Some doc →
  re_search (universal_newlines doc) = Some (a, b) →
  (embed_in_html json_str html_path w).1 = Returned ∧
  files (embed_in_html json_str html_path w).2
  = <[html_path := take_str a (universal_newlines doc) +:+ json_str
                   +:+ drop_str b (universal_newlines doc)]> (files w).
Proof. intros Hdoc Hs. unfold embed_in_html. by rewrite Hdoc, Hs. Qed.

(** X13: embedding again replaces the JSON of the run before.  After a
    successful embedding of a JSON text that holds no closing script tag
    and no CR, a second embedding succeeds and leaves the files exactly as
    embedding the second text into the original document would. *)
Theorem embedding_again_replaces_the_json (json1 json2 html_path : string)
    (w : World) (doc : string) :
  files w !! html_path = Some doc →
  has_marker (universal_newlines doc) →
  contains TAG_CLOSE json1 = false →
  has_char CR json1 = false →
  (embed_in_html json2 html_path (embed_in_html json1 html_path w).2).1 = Returned ∧
  files (embed_in_html json2 html_path (embed_in_html json1 html_path w).2).2
  = files (embed_in_html json2 html_path w).2.
Proof.
  intros Hdoc Hm Hclose Hcr.
  apply re_search_marker in Hm as [[a b] Hs].
  pose proof Hs as Hsplit. unfold re_search in Hsplit.
  apply search_from_sound in Hsplit as (pre & tag & inner & post & Htag & Htext & Ha & Hb).
  rewrite Nat.add_0_l in Ha. subst a b.
  destruct (embed_found json1 html_path w doc _ _ Hdoc Hs) as [_ Hfiles1].
  destruct (embed_found json2 html_path w doc _ _ Hdoc Hs) as [_ Hfiles2].
  rewrite Htext, splice_at in Hfiles1, Hfiles2.
  set (doc1 := pre +:+ tag +:+ json1 +:+ TAG_CLOSE +:+ post) in *.
  assert (universal_newlines doc1 = doc1) as Hun.
  { apply universal_newlines_no_cr.
    pose proof (universal_newlines_has_no_cr doc) as Hno.
    rewrite Htext, !has_char_append in Hno.
    apply orb_false_iff in Hno as [Hpre Hno]. apply orb_false_iff in Hno as [Htg Hno].
    apply orb_false_iff in Hno as [_ Hno].
    unfold doc1. by rewrite !has_char_append, Hpre, Htg, Hcr, Hno. }
  assert (re_search doc1
          = Some (String.length (pre +:+ tag),
                  String.length (pre +:+ tag) + String.length json1)) as Hs1.
  { unfold re_search, doc1. rewrite search_from_skip.
    - rewrite (search_from_at_tag _ tag _ (String.length json1));
        [|done|by apply find_close_first].
      rewrite length_append. do 2 f_equal; lia.
    - intros x suf Hpre Hsuf.
      apply (match_open_local suf tag (inner +:+ TAG_CLOSE +:+ post)); [done..|].
      unfold re_search in Hs. rewrite Htext in Hs.
      by apply (search_from_leftmost 0 pre tag inner post _ Htag Hs x suf). }
  assert (files (embed_in_html json1 html_path w).2 !! html_path = Some doc1) as Hdoc1.
  { by rewrite Hfiles1, lookup_insert_eq. }
  rewrite <- Hun in Hs1.
  destruct (embed_found json2 html_path _ doc1 _ _ Hdoc1 Hs1) as [Hret Hfiles].
  split; [done|]. rewrite Hfiles, Hun. unfold doc1 at 1 2.
  rewrite splice_at, Hfiles1, Hfiles2. by rewrite insert_insert_eq.
Qed.

Lemma embedding_again_replaces_the_json_witness :
  (embed_in_html "{}" "index.html"
     (embed_in_html "[1]" "index.html" (one_file "index.html" page_with_marker)).2).1
  = Returned ∧
  files (embed_in_html "{}" "index.html"
           (embed_in_html "[1]" "index.html" (one_file "index.html" page_with_marker)).2).2
  = files (embed_in_html "{}" "index.html" (one_file "index.html" page_with_marker)).2.
Proof.
  apply (embedding_again_replaces_the_json "[1]" "{}" "index.html"
           (one_file "index.html" page_with_marker) page_with_marker).
  - by vm_compute.
  - apply re_search_marker. vm_compute. by eexists.
  - by vm_compute.
  - by vm_compute.
Defined.

(** ** The output block of [main] *)

(** X14: the --output file is written before the embedding is tried.  When
    both are asked for and the document the embedding then reads has no
    marker, the run exits with code 1 with the JSON file written all the
    same; when both name the same file, that document is the JSON text
    itself: the HTML file has been overwritten. *)
Theorem output_is_written_before_embedding (json_str o h : string) (w : World)
    (doc : string) :
  o ≠ "" → h ≠ "" →
  <[o := json_str]> (files w) !! h = Some doc →
  ¬ has_marker (universal_newlines doc) →
  ∃ w', main_outputs json_str (Some o) (Some h) w = (Exited 1, w') ∧
        files w' = <[o := json_str]> (files w) ∧
        (o = h → doc = json_str ∧ files w' !! h = Some json_str).
Proof.
  intros Ho Hh Hdoc Hno. unfold main_outputs, given.
  rewrite !decide_False by done.
  unfold embed_in_html. cbn [files print write_text]. rewrite Hdoc.
  destruct (re_search (universal_newlines doc)) as [m|] eqn:Hs.
  { destruct Hno. apply re_search_marker. by eexists. }
  eexists. split; [reflexivity|]. cbn [files print write_text]. split; [done|].
  intros ->. rewrite lookup_insert_eq in Hdoc. injection Hdoc as <-.
  by rewrite lookup_insert_eq.
Qed.

Lemma output_is_written_before_embedding_witness :
  ∃ w', main_outputs "{}" (Some "index.html") (Some "index.html")
          (one_file "index.html" page_with_marker) = (Exited 1, w') ∧
        files w' = <["index.html" := "{}"]>
                     (files (one_file "index.html" page_with_marker)) ∧
        ("index.html" = "index.html" →
         "{}" = "{}" ∧ files w' !! "index.html" = Some "{}").
Proof.
  apply (output_is_written_before_embedding "{}" "index.html" "index.html"
           (one_file "index.html" page_with_marker) "{}").
  - done.
  - done.
  - by vm_compute.
  - intros Hm. apply re_search_marker in Hm. vm_compute in Hm. by destruct Hm.
Defined.

(** X15: what the output block leaves behind when nothing goes wrong.
    With no destination (an empty path counts as none) no file changes and
    the notice is printed; with --output alone that file holds the JSON
    text verbatim and no other file changes; in every case the files that
    are named by neither argument keep their content. *)
Theorem main_outputs_touches_named_files_only (json_str : string)
    (output embed : option string) (w : World) (path : string) :
  (given output = None → given embed = None →
   main_outputs json_str output embed w = (Returned, print MSG_NOT_SAVED w)) ∧
  (∀ o, given output = Some o → given embed = None →
        (main_outputs json_str output embed w).1 = Returned ∧
        files (main_outputs json_str output embed w).2 = <[o := json_str]> (files w)) ∧
  (given output ≠ Some path → given embed ≠ Some path →
   files (main_outputs json_str output embed w).2 !! path = files w !! path).
Proof.
  split_and!.
  - intros Ho He. unfold main_outputs. by rewrite Ho, He.
  - intros o Ho He. unfold main_outputs. by rewrite Ho, He.
  - intros Ho He. unfold main_outputs.
    assert (files (match given output with
                   | Some p => print ("Written to " +:+ p) (write_text p json_str w)
                   | None => w
                   end) !! path = files w !! path) as Hout.
    { destruct (given output) as [o|]; [|done]. cbn [files print write_text].
      rewrite lookup_insert_ne; [done|]. intros ->. by destruct Ho. }
    destruct (given embed) as [h|] eqn:Hh.
    + unfold embed_in_html.
      destruct (files _ !! h) as [bytes|]; [|done].
      destruct (re_search _) as [[a b]|]; [|done].
      cbn [snd files print write_text]. rewrite lookup_insert_ne; [done|].
      intros ->. by destruct He.
    + by destruct (given output).
Qed.

(** ** Which marker is replaced *)

Lemma find_close_minimal x y k :
  find_close (x +:+ TAG_CLOSE +:+ y) = Some k → k ≤ String.length x.
Proof.
  revert k. induction x as [|c x IH]; intros k; rewrite find_close_eq.
  - by rewrite append_nil_l, strip_prefix_append; intros [= <-].
  - destruct (strip_prefix TAG_CLOSE _); [intros [= <-]; lia|].
    rewrite append_cons. destruct (find_close (x +:+ TAG_CLOSE +:+ y)) as [k'|]; [|done].
    intros [= <-]. specialize (IH k' eq_refl). simpl. lia.
Qed.

(** The match [re_search] returns, as a split of the text: the first
    opening tag, the content up to the first closing tag after it. *)
Lemma re_search_split (html : string) (a b : nat) :
  re_search html = Some (a, b) →
  ∃ pre tag inner post,
    is_open_tag tag ∧
    html = pre +:+ tag +:+ inner +:+ TAG_CLOSE +:+ post ∧
    a = String.length (pre +:+ tag) ∧ b = a + String.length inner ∧
    ¬ substring_of TAG_CLOSE inner ∧
    ∀ x suf t r, pre = x +:+ suf → suf ≠ "" → is_open_tag t →
                 suf +:+ tag +:+ inner +:+ TAG_CLOSE +:+ post ≠ t +:+ r.
Proof.
  intros Hs. pose proof Hs as Hsplit. unfold re_search in Hsplit.
  apply search_from_sound in Hsplit as (pre & tag & inner & post & Htag & -> & Ha & Hb).
  rewrite Nat.add_0_l in Ha. subst a b.
  pose proof (search_from_leftmost 0 pre tag inner post _ Htag Hs) as Hleft.
  exists pre, tag, inner, post. split_and!; [done..| |].
  - intros (x & y & Hinner).
    unfold re_search in Hs. rewrite search_from_skip in Hs by done.
    destruct (find_close_complete inner post) as [k Hk].
    rewrite (search_from_at_tag _ tag _ k) in Hs by done.
    injection Hs as Ha Hb. rewrite length_append in Ha, Hb.
    assert (k = String.length inner) as -> by lia.
    rewrite Hinner, !append_assoc in Hk. apply find_close_minimal in Hk.
    rewrite !length_append in Hk.
    assert (0 < String.length TAG_CLOSE) by (simpl; lia). lia.
  - intros x suf t r Hpre Hsuf Ht E.
    specialize (Hleft x suf Hpre Hsuf).
    rewrite E in Hleft. by rewrite match_open_complete in Hleft.
Qed.

(** C7, as amended: when the document read from the file (line endings
    already translated to LF) has the marker, the call returns and the
    file holds that text with the content of the marker replaced by the
    JSON text, every other file being untouched.  The marker is the first
    one: the text splits into a part in which no opening tag starts, the
    opening tag, the old content, which holds no closing tag, the closing
    tag and the rest; what is written is the first part, the opening tag,
    the JSON text, the closing tag and the rest.  The split is one of the
    stored bytes themselves when they contain no CR. *)
Theorem embed_replaces_inner_content (json_str html_path : string) (w : World)
    (doc : string) :
  files w !! html_path = Some doc →
  has_marker (universal_newlines doc) →
  ∃ pre tag inner post,
    is_open_tag tag ∧
    universal_newlines doc = pre +:+ tag +:+ inner +:+ TAG_CLOSE +:+ post ∧
    ¬ substring_of TAG_CLOSE inner ∧
    (∀ x suf t r, pre = x +:+ suf → suf ≠ "" → is_open_tag t →
                  suf +:+ tag +:+ inner +:+ TAG_CLOSE +:+ post ≠ t +:+ r) ∧
    (has_char CR doc = false → doc = pre +:+ tag +:+ inner +:+ TAG_CLOSE +:+ post) ∧
    (embed_in_html json_str html_path w).1 = Returned ∧
    files (embed_in_html json_str html_path w).2
    = <[html_path := pre +:+ tag +:+ json_str +:+ TAG_CLOSE +:+ post]> (files w).
Proof.
  intros Hdoc Hm. apply re_search_marker in Hm as [[a b] Hs].
  destruct (embed_found json_str html_path w doc a b Hdoc Hs) as [Hret Hfiles].
  destruct (re_search_split _ _ _ Hs)
    as (pre & tag & inner & post & Htag & Hhtml & -> & -> & Hinner & Hfirst).
  exists pre, tag, inner, post. split_and!; [done..| | done |].
  - intros Hcr. by rewrite <- Hhtml, universal_newlines_no_cr.
  - rewrite Hfiles. f_equal. rewrite Hhtml. apply splice_at.
Qed.

Lemma embed_replaces_inner_content_witness :
  ∃ pre tag inner post,
    is_open_tag tag ∧
    universal_newlines page_with_marker = pre +:+ tag +:+ inner +:+ TAG_CLOSE +:+ post ∧
    ¬ substring_of TAG_CLOSE inner ∧
    (∀ x suf t r, pre = x +:+ suf → suf ≠ "" → is_open_tag t →
                  suf +:+ tag +:+ inner +:+ TAG_CLOSE +:+ post ≠ t +:+ r) ∧
    (has_char CR page_with_marker = false →
     page_with_marker = pre +:+ tag +:+ inner +:+ TAG_CLOSE +:+ post) ∧
    (embed_in_html "{}" "index.html" (one_file "index.html" page_with_marker)).1
    = Returned ∧
    files (embed_in_html "{}" "index.html" (one_file "index.html" page_with_marker)).2
    = <["index.html" := pre +:+ tag +:+ "{}" +:+ TAG_CLOSE +:+ post]>
        (files (one_file "index.html" page_with_marker)).
Proof.
  apply (embed_replaces_inner_content "{}" "index.html"
           (one_file "index.html" page_with_marker) page_with_marker).
  - by vm_compute.
  - apply re_search_marker. vm_compute. by eexists.
Defined.

(** C7 as stated fails on the stored bytes: reading translates CR LF to
    LF, so the CR in front of the marker, outside its content, is gone
    from the written file. *)
Lemma embed_rewrites_line_endings :
  ∃ w', embed_in_html "{}" "index.html" (one_file "index.html" page_with_crlf)
        = (Returned, w') ∧
        page_with_crlf
        = ("<p>" +:+ String CR (String LF "")) +:+ MARKER_OPEN +:+ "" +:+ TAG_CLOSE ∧
        files w' !! "index.html"
        = Some (("<p>" +:+ String LF "") +:+ MARKER_OPEN +:+ "{}" +:+ TAG_CLOSE) ∧
        files w' !! "index.html"
        ≠ Some (("<p>" +:+ String CR (String LF "")) +:+ MARKER_OPEN +:+ "{}" +:+ TAG_CLOSE).
Proof.
  eexists. split; [by vm_compute|]. split; [done|]. split; [by vm_compute|].
  by vm_compute.
Qed.

(** X16: the match the search returns is the first marker of the text and
    its content is the shortest possible: the text splits at the returned
    offsets into a part ending with an opening tag, a content without any
    closing tag in it, and a rest starting with the closing tag, and no
    opening tag starts anywhere in front of the one chosen. *)
Theorem search_takes_first_marker (html : string) (a b : nat) :
  re_search html = Some (a, b) →
  ∃ pre tag inner post,
    is_open_tag tag ∧
    html = pre +:+ tag +:+ inner +:+ TAG_CLOSE +:+ post ∧
    a = String.length (pre +:+ tag) ∧ b = a + String.length inner ∧
    ¬ substring_of TAG_CLOSE inner ∧
    ∀ x suf t r, pre = x +:+ suf → suf ≠ "" → is_open_tag t →
                 suf +:+ tag +:+ inner +:+ TAG_CLOSE +:+ post ≠ t +:+ r.
Proof.
  intros Hs. pose proof Hs as Hsplit. unfold re_search in Hsplit.
  apply search_from_sound in Hsplit as (pre & tag & inner & post & Htag & -> & Ha & Hb).
  rewrite Nat.add_0_l in Ha. subst a b.
  assert (∀ x suf, pre = x +:+ suf → suf ≠ "" →
            match_open (suf +:+ tag +:+ inner +:+ TAG_CLOSE +:+ post) = None) as Hleft.
  { intros x suf. by apply (search_from_leftmost 0 pre tag inner post _ Htag Hs). }
  exists pre, tag, inner, post. split_and!; [done..| |].
  - intros (x & y & Hinner).
    unfold re_search in Hs. rewrite search_from_skip in Hs by done.
    destruct (find_close_complete inner post) as [k Hk].
    rewrite (search_from_at_tag _ tag _ k) in Hs by done.
    injection Hs as Ha Hb. rewrite length_append in Ha, Hb.
    assert (k = String.length inner) as -> by lia.
    rewrite Hinner, !append_assoc in Hk. apply find_close_minimal in Hk.
    rewrite !length_append in Hk.
    assert (0 < String.length TAG_CLOSE) by (simpl; lia). lia.
  - intros x suf t r Hpre Hsuf Ht E.
    specialize (Hleft x suf Hpre Hsuf). rewrite E in Hleft.
    by rewrite match_open_complete in Hleft.
Qed.

Lemma search_takes_first_marker_witness :
  ∃ a b pre tag inner post,
    re_search page_with_marker = Some (a, b) ∧
    is_open_tag tag ∧
    page_with_marker = pre +:+ tag +:+ inner +:+ TAG_CLOSE +:+ post ∧
    a = String.length (pre +:+ tag) ∧ b = a + String.length inner ∧
    ¬ substring_of TAG_CLOSE inner ∧
    ∀ x suf t r, pre = x +:+ suf → suf ≠ "" → is_open_tag t →
                 suf +:+ tag +:+ inner +:+ TAG_CLOSE +:+ post ≠ t +:+ r.
Proof.
  eexists _, _.
  assert (re_search page_with_marker = Some (_, _)) as Hs by (by vm_compute).
  destruct (search_takes_first_marker page_with_marker _ _ Hs)
    as (pre & tag & inner & post & ?).
  by exists pre, tag, inner, post.
Defined.

(** ** Countries in the metadata and in the cells *)

(** X17: with the country list the resolver returns and pairwise distinct
    key prefixes, every listed country has its top-level cell, and that
    cell's n is the count in the country's descriptor, at least 100. *)
Theorem country_cells_carry_the_listed_count `{Float64} (data : list Row)
    (ci : CountryInfo.t) :
  NoDup (map fst (geographies data (get_country_info data))) →
  ci ∈ get_country_info data →
  ∃ c, build_cells data (get_country_info data)
         !! cell_key (CountryInfo.id ci) "All" "All" = Some c ∧
       Cell.n c = CountryInfo.n ci ∧ 100 ≤ Cell.n c.
Proof.
  intros Hnd Hci.
  set (subset := filter (λ r, Country r = Some (CountryInfo.full_name ci)) data).
  assert ((CountryInfo.id ci, subset) ∈ geographies data (get_country_info data))
    as Hin.
  { unfold geographies. do 3 (apply elem_of_cons; right).
    apply list_elem_of_fmap. by exists ci. }
  assert (CountryInfo.n ci = length subset ∧ 100 ≤ CountryInfo.n ci) as [Hn Hge].
  { apply get_country_info_entry in Hci as (cn & n & Hcn & Hmin & ->).
    apply elem_of_value_counts in Hcn as [_ ->]. unfold subset. simpl.
    split; [by rewrite count_eq_column | exact Hmin]. }
  pose proof (add_all_exact (geographies data (get_country_info data)) ∅
                (CountryInfo.id ci) subset (None, None) Hnd Hin) as Hex.
  rewrite <- build_cells_add_all in Hex. simpl in Hex.
  destruct (aggregate_cell_nonempty subset) as [c Hc].
  { intros Hnil. rewrite Hnil in Hn. simpl in Hn. lia. }
  rewrite Hc in Hex. exists c. split.
  - apply Hex. by apply (bool_decide_unpack _).
  - apply aggregate_cell_n in Hc as [-> _]. lia.
Qed.

Lemma country_cells_carry_the_listed_count_witness :
  ∃ ci c,
    ci ∈ get_country_info chile_table ∧
    build_cells (H:=exact_arith) chile_table (get_country_info chile_table)
      !! cell_key (CountryInfo.id ci) "All" "All" = Some c ∧
    Cell.n c = CountryInfo.n ci ∧ 100 ≤ Cell.n c.
Proof.
  assert (NoDup (map fst (geographies chile_table (get_country_info chile_table))))
    as Hnd by (apply (bool_decide_unpack _); by vm_compute).
  assert (∃ ci, get_country_info chile_table !! 0 = Some ci) as [ci Hci]
    by (eexists; by vm_compute).
  apply list_elem_of_lookup_2 in Hci.
  destruct (country_cells_carry_the_listed_count (H:=exact_arith)
              chile_table ci Hnd Hci) as (c & ?).
  by exists ci, c.
Defined.
